(** * Portal: the captive-portal landing page controller

    A shallow embedding of [static/js/portal.js] (and of the second build
    of the same script, which differs only in [acceptPortal]) as an
    event-driven state machine.

    The browser is the environment.  It delivers events (the document
    becoming ready, clicks, geolocation callbacks, settled fetches and
    body parses, timer ticks, page-lifecycle signals); the script reacts
    by running synchronous code up to its next suspension point.  Each
    [async] function is cut at its [await]s into segments; the operation
    a suspended call waits for (a position request, a fetch, a body
    parse) is an entry of the [pending] table that names the segment to
    resume.  Everything the page sends out is appended to the trace
    [out]. *)

From stdpp Require Import gmap strings list fin_maps pretty.
From Stdlib Require Import QArith Qround Qabs.

Set Warnings "-register-all".
Local Open Scope string_scope.
Local Open Scope Z_scope.

(** ** JavaScript values *)

(** Values as [JSON.parse] produces them, plus [undefined], which reading
    an absent property yields.  The script does two things with a number
    of a body: it prints it and it tests it for truth.  So a number is
    kept as the text [Number::toString] gives it, which tells numbers
    apart: [12] is ["12"], [1.5] is ["1.5"], [10^21] is ["1e+21"], and
    both zeros are ["0"]. *)
Inductive JSVal :=
| JUndefined
| JNull
| JBool (b : bool)
| JNum (text : string)
| JStr (s : string)
| JArr (items : list JSVal)
| JObj (fields : list (string * JSVal)).

(** Thrown values: [new Error(msg)], the [TypeError] of a property read on
    [null]/[undefined] or of a failed fetch, the [SyntaxError] of a body
    that is not JSON. *)
Inductive Exn :=
| Error (message : string)
| TypeError (message : string)
| SyntaxError (message : string).

(** An object made by [JSON.parse] has the property [k] of its own. *)
Definition has_key (k : string) (fields : list (string * JSVal)) : bool :=
  existsb (fun kv => String.eqb k kv.1) fields.

(** What [ToPrimitive] throws when neither [toString] nor [valueOf]
    yields a primitive value. *)
Definition not_primitive : Exn :=
  TypeError "Cannot convert object to primitive value".

(** [ToString], as template literals and DOM string attributes apply it.
    An object is converted by its [toString] method: the inherited one
    prints [[object Object]]; a property [toString] of its own, which in
    a parsed body is never a function, hides it, and then the conversion
    throws, since [valueOf] yields no primitive either.  An array is
    converted by [join], which prints [null] and [undefined] as nothing
    and converts the other elements in order. *)
Fixpoint ToString (v : JSVal) : Exn + string :=
  match v with
  | JUndefined => inr "undefined"
  | JNull => inr "null"
  | JBool true => inr "true"
  | JBool false => inr "false"
  | JNum text => inr text
  | JStr s => inr s
  | JArr items =>
      (fix join (l : list JSVal) : Exn + string :=
         match l with
         | [] => inr EmptyString
         | x :: l' =>
             match match x with
                   | JUndefined | JNull => inr EmptyString
                   | _ => ToString x
                   end with
             | inl e => inl e
             | inr sx =>
                 match l' with
                 | [] => inr sx
                 | _ => match join l' with
                        | inl e => inl e
                        | inr rest => inr (sx +:+ "," +:+ rest)
                        end
                 end
             end
         end) items
  | JObj fields =>
      if has_key "toString" fields then inl not_primitive else inr "[object Object]"
  end.

(** [ToBoolean]. *)
Definition truthy (v : JSVal) : bool :=
  match v with
  | JUndefined | JNull | JBool false | JStr EmptyString => false
  | JNum text => negb (String.eqb text "0")
  | _ => true
  end.

Fixpoint lookup_field (k : string) (fields : list (string * JSVal)) : JSVal :=
  match fields with
  | [] => JUndefined
  | (k', v) :: rest => if String.eqb k k' then v else lookup_field k rest
  end.

(** [v.k] for the property names the script reads, none of which is
    inherited from a prototype: a [TypeError] on [null] and [undefined],
    the field of an object, [undefined] on anything else. *)
Definition get_prop (v : JSVal) (k : string) : Exn + JSVal :=
  match v with
  | JUndefined =>
      inl (TypeError ("Cannot read properties of undefined (reading '" +:+ k +:+ "')"))
  | JNull =>
      inl (TypeError ("Cannot read properties of null (reading '" +:+ k +:+ "')"))
  | JObj fields => inr (lookup_field k fields)
  | _ => inr JUndefined
  end.

(** [v.k] where [v] is known not to be [null] or [undefined]. *)
Definition field (v : JSVal) (k : string) : JSVal :=
  match v with
  | JObj fields => lookup_field k fields
  | _ => JUndefined
  end.

(** [null] or [undefined]. *)
Definition nullish (v : JSVal) : bool :=
  match v with
  | JUndefined | JNull => true
  | _ => false
  end.

(** [a ?? b]. *)
Definition nullish_or (a b : JSVal) : JSVal :=
  match a with
  | JUndefined | JNull => b
  | _ => a
  end.

(** Assignment to [textContent], a nullable DOM string: [null] and
    [undefined] clear the text, anything else is converted. *)
Definition to_textContent (v : JSVal) : Exn + string :=
  match v with
  | JUndefined | JNull => inr EmptyString
  | _ => ToString v
  end.

(** ** Numbers of the geolocation API

    Coordinates are finite doubles; the script only carries them around,
    rounds one and prints two, so they are modelled by their exact
    rational value. *)

(** [Math.round]: the nearest integer, ties towards +infinity. *)
Definition Math_round (x : Q) : Z := Qfloor (x + (1 # 2))%Q.

Fixpoint zeros (n : nat) : string :=
  match n with
  | O => EmptyString
  | S n' => "0" +:+ zeros n'
  end.

Definition drop_string (n : nat) (s : string) : string :=
  String.substring n (String.length s - n)%nat s.

(** [x.toFixed(f)] for |x| < 10^21: sign first, then the integer [n] with
    [n / 10^f] nearest to |x| (the larger on a tie), printed with [f]
    digits after the point. *)
Definition toFixed (f : nat) (x : Q) : string :=
  let sign := if Qlt_le_dec x 0 then "-" else EmptyString in
  let n := Qfloor (Qabs x * inject_Z (10 ^ Z.of_nat f) + (1 # 2))%Q in
  let m := pretty n in
  let m := if (String.length m <=? f)%nat
           then zeros (f + 1 - String.length m)%nat +:+ m else m in
  let k := String.length m in
  match f with
  | O => sign +:+ m
  | _ => sign +:+ String.substring 0 (k - f)%nat m +:+ "." +:+ drop_string (k - f)%nat m
  end.

(** ** The page *)

Record Element := mkElement {
  textContent : string;
  style_display : string;
  disabled : bool;
  src : string;
  alt : string;
  href : string
}.

(** [navigator]: which capabilities this browser has.  A present
    [geolocation] property holds the Geolocation object, so
    ["geolocation" in navigator] and the truth of [navigator.geolocation]
    coincide. *)
Record Navigator := mkNavigator {
  geolocation : bool;
  sendBeacon : bool;
  userAgent : string
}.

Inductive Visibility := visible | hidden.

(** The [event] field of a heartbeat: ["ping"] or ["leave"]. *)
Inductive VisitEvent := ping | leave.

Record GeoFix := mkGeoFix {
  latitude : Q;
  longitude : Q;
  accuracy_m : Z
}.

(** [pos.coords] of a GeolocationPosition. *)
Record Coords := mkCoords {
  coords_latitude : Q;
  coords_longitude : Q;
  coords_accuracy : Q
}.

(** GeolocationPositionError: code 1 PERMISSION_DENIED,
    2 POSITION_UNAVAILABLE, 3 TIMEOUT. *)
Record PositionError := mkPositionError {
  code : Z;
  message : string
}.

Record PositionOptions := mkPositionOptions {
  enableHighAccuracy : bool;
  timeout : Z;
  maximumAge : Z
}.

Record AdApiPayload := mkAdApiPayload {
  ad_latitude : option Q;
  ad_longitude : option Q;
  user_agent : string;
  local_time : Z
}.

Record AcceptPayload := mkAcceptPayload {
  accept_latitude : option Q;
  accept_longitude : option Q;
  accept_accuracy_m : option Z
}.

Record PingPayload := mkPingPayload {
  ping_latitude : option Q;
  ping_longitude : option Q;
  ping_accuracy_m : option Z;
  event : VisitEvent
}.

(** A request body: [JSON.stringify] of one of the payload objects, kept
    as the object it serialises. *)
Inductive Body :=
| BodyAd (payload : AdApiPayload)
| BodyAccept (payload : AcceptPayload)
| BodyPing (payload : PingPayload)
| BodyEmptyObject.

Record Response := mkResponse {
  status : Z;
  statusText : string
}.

(** [response.ok]. *)
Definition ok (r : Response) : bool := (200 <=? status r) && (status r <=? 299).

Inductive LogDetail :=
| LogExn (e : Exn)
| LogVal (v : JSVal)
| LogStatus (status : Z) (statusText : string).

(** What leaves the page.  Every [fetch] of the script is a POST with
    [Content-Type: application/json]; a beacon carries a Blob of type
    [application/json]. *)
Inductive Effect :=
| Fetch (url : string) (body : Body) (keepalive : bool)
| SendBeacon (url : string) (body : Body)
| GetCurrentPosition (options : PositionOptions)
| Console (level : string) (label : string) (detail : LogDetail).

(** The closures the script hands to the browser. *)
Inductive Callback :=
| CbAcceptClick            (* () => { void acceptPortal(); } *)
| CbIntervalPing           (* () => { void postVisitPing("ping"); } *)
| CbOnLeave                (* onLeave *)
| CbOnVisibilityChange.    (* () => { if (hidden) onLeave(); } *)

Inductive Target :=
| TWindow
| TDocument
| TElement (id : string).

Record Listener := mkListener {
  target : Target;
  type : string;
  listener : Callback
}.

Record Timer := mkTimer {
  handle : nat;
  delay : Z;
  handler : Callback
}.

(** Who waits for [tryGetGeo()]. *)
Inductive GeoK :=
| KPing (ev : VisitEvent)   (* postVisitPing(ev) *)
| KAccept.                  (* acceptPortal *)

(** A pending operation, by the suspension point of the call that waits
    for it. *)
Inductive Await :=
| AwaitInitGeo                (* initPortal's getCurrentPosition callbacks *)
| AwaitTryGetGeo (k : GeoK)   (* await tryGetGeo(), request outstanding *)
| AwaitAdFetch                (* requestAd: await fetch(...) *)
| AwaitAdJson                 (* requestAd: await response.json() *)
| AwaitPingFetch              (* postVisitPing: await fetch(...) *)
| AwaitAcceptFetch            (* acceptPortal: await fetch(...) *)
| AwaitAcceptJson.            (* acceptPortal: await res.json() *)

(** A job of the microtask queue: resume the call suspended in
    [await tryGetGeo()] with the settled promise. *)
Record Micro := mkMicro {
  cont : GeoK;
  settled : Exn + option GeoFix
}.

Record Page := mkPage {
  navigator : Navigator;
  hours : Z;                          (* new Date().getHours() *)
  loaded : bool;                      (* DOMContentLoaded has fired *)
  visibilityState : Visibility;
  dom : gmap string Element;          (* elements by id *)
  lastGeo : option GeoFix;
  visitPingTimer : option nat;
  timers : list Timer;
  next_timer : nat;
  listeners : list Listener;
  pending : gmap nat Await;
  next_id : nat;
  microtasks : list Micro;
  out : list Effect
}.

Definition set_loaded (b : bool) (p : Page) : Page :=
  mkPage (navigator p) (hours p) b (visibilityState p) (dom p) (lastGeo p)
    (visitPingTimer p) (timers p) (next_timer p) (listeners p) (pending p)
    (next_id p) (microtasks p) (out p).

Definition set_visibilityState (v : Visibility) (p : Page) : Page :=
  mkPage (navigator p) (hours p) (loaded p) v (dom p) (lastGeo p)
    (visitPingTimer p) (timers p) (next_timer p) (listeners p) (pending p)
    (next_id p) (microtasks p) (out p).

Definition set_dom (d : gmap string Element) (p : Page) : Page :=
  mkPage (navigator p) (hours p) (loaded p) (visibilityState p) d (lastGeo p)
    (visitPingTimer p) (timers p) (next_timer p) (listeners p) (pending p)
    (next_id p) (microtasks p) (out p).

Definition set_lastGeo (g : option GeoFix) (p : Page) : Page :=
  mkPage (navigator p) (hours p) (loaded p) (visibilityState p) (dom p) g
    (visitPingTimer p) (timers p) (next_timer p) (listeners p) (pending p)
    (next_id p) (microtasks p) (out p).

Definition set_visitPingTimer (t : option nat) (p : Page) : Page :=
  mkPage (navigator p) (hours p) (loaded p) (visibilityState p) (dom p)
    (lastGeo p) t (timers p) (next_timer p) (listeners p) (pending p)
    (next_id p) (microtasks p) (out p).

Definition set_timers (ts : list Timer) (n : nat) (p : Page) : Page :=
  mkPage (navigator p) (hours p) (loaded p) (visibilityState p) (dom p)
    (lastGeo p) (visitPingTimer p) ts n (listeners p) (pending p)
    (next_id p) (microtasks p) (out p).

Definition set_listeners (ls : list Listener) (p : Page) : Page :=
  mkPage (navigator p) (hours p) (loaded p) (visibilityState p) (dom p)
    (lastGeo p) (visitPingTimer p) (timers p) (next_timer p) ls (pending p)
    (next_id p) (microtasks p) (out p).

Definition set_pending (m : gmap nat Await) (p : Page) : Page :=
  mkPage (navigator p) (hours p) (loaded p) (visibilityState p) (dom p)
    (lastGeo p) (visitPingTimer p) (timers p) (next_timer p) (listeners p) m
    (next_id p) (microtasks p) (out p).

Definition set_next_id (n : nat) (p : Page) : Page :=
  mkPage (navigator p) (hours p) (loaded p) (visibilityState p) (dom p)
    (lastGeo p) (visitPingTimer p) (timers p) (next_timer p) (listeners p)
    (pending p) n (microtasks p) (out p).

Definition set_microtasks (q : list Micro) (p : Page) : Page :=
  mkPage (navigator p) (hours p) (loaded p) (visibilityState p) (dom p)
    (lastGeo p) (visitPingTimer p) (timers p) (next_timer p) (listeners p)
    (pending p) (next_id p) q (out p).

Definition set_out (o : list Effect) (p : Page) : Page :=
  mkPage (navigator p) (hours p) (loaded p) (visibilityState p) (dom p)
    (lastGeo p) (visitPingTimer p) (timers p) (next_timer p) (listeners p)
    (pending p) (next_id p) (microtasks p) o.

(** ** Running JavaScript: state and exceptions

    A computation transforms the page and ends in a value or a thrown
    exception; what it wrote before throwing stays written. *)

Definition M (A : Type) : Type := Page -> Page * (Exn + A).

#[global] Instance M_ret : MRet M := fun A a p => (p, inr a).

#[global] Instance M_bind : MBind M := fun A B f m p =>
  match m p with
  | (p', inl e) => (p', inl e)
  | (p', inr a) => f a p'
  end.

Definition gets {A} (f : Page -> A) : M A := fun p => (p, inr (f p)).
Definition modify (f : Page -> Page) : M unit := fun p => (f p, inr tt).
Definition throw {A} (e : Exn) : M A := fun p => (p, inl e).
Definition lift {A} (r : Exn + A) : M A := fun p => (p, r).

(** The page a computation leaves behind. *)
Definition exec {A} (m : M A) (p : Page) : Page := fst (m p).

(** How a segment of an [async] function ends: the function returned, or
    it is suspended at an [await]. *)
Inductive Ctl := Done | Suspended.

(** [try { body } catch (e) { handler }]. *)
Definition try_catch {A} (body : M A) (catch : Exn -> M A) : M A := fun p =>
  match body p with
  | (p', inl e) => catch e p'
  | r => r
  end.

(** [try { body } catch (e) { handler } finally { cleanup }] around a
    segment: a suspended body has not left the [try] yet; the cleanup runs
    on every way out, also when the handler throws. *)
Definition try_catch_finally
    (body : M Ctl) (catch : Exn -> M Ctl) (finally : M unit) : M Ctl := fun p =>
  match body p with
  | (p1, inr Suspended) => (p1, inr Suspended)
  | (p1, inr Done) => (finally ;; mret Done) p1
  | (p1, inl e) =>
      match catch e p1 with
      | (p2, inr c) => (finally ;; mret c) p2
      | (p2, inl e') =>
          match finally p2 with
          | (p3, inl e'') => (p3, inl e'')
          | (p3, inr _) => (p3, inl e')
          end
      end
  end.

(** [void f()]: the call's promise is dropped, a rejection goes
    unhandled. *)
Definition void (m : M Ctl) : M unit := fun p => (exec m p, inr tt).

(** [new Promise(executor)], settled or not when the constructor returns.
    The executor yields [Some v] when it called [resolve(v)]; if it throws
    first, the promise is rejected. *)
Inductive Promise (A : Type) :=
| Fulfilled (v : A)
| Rejected (e : Exn)
| Pending.
Arguments Fulfilled {A} v.
Arguments Rejected {A} e.
Arguments Pending {A}.

Definition new_Promise {A} (executor : M (option A)) : M (Promise A) := fun p =>
  match executor p with
  | (p', inl e) => (p', inr (Rejected e))
  | (p', inr (Some v)) => (p', inr (Fulfilled v))
  | (p', inr None) => (p', inr Pending)
  end.

(** ** Browser primitives *)

Definition emit (e : Effect) : M unit :=
  modify (fun p => set_out (out p ++ [e]) p).

Definition console_error (label : string) (e : Exn) : M unit :=
  emit (Console "error" label (LogExn e)).

(** Start an operation and wait for it: the browser is handed a fresh
    handle, by which it will report the settlement. *)
Definition register (st : Await) : M unit :=
  modify (fun p => set_next_id (S (next_id p))
                     (set_pending (<[next_id p := st]> (pending p)) p)).

Definition suspend (st : Await) : M Ctl :=
  register st ;;
  mret Suspended.

Definition enqueue (job : Micro) : M Ctl :=
  modify (fun p => set_microtasks (microtasks p ++ [job]) p) ;;
  mret Suspended.

Definition setInterval (cb : Callback) (ms : Z) : M nat :=
  h ← gets next_timer;
  modify (fun p => set_timers (timers p ++ [mkTimer h ms cb]) (S h) p) ;;
  mret h.

Definition addEventListener (t : Target) (ty : string) (cb : Callback) : M unit :=
  modify (fun p => set_listeners (listeners p ++ [mkListener t ty cb]) p).

Definition update (id : string) (f : Element -> Element) : M unit :=
  modify (fun p => set_dom (alter f id (dom p)) p).

Definition set_textContent (id text : string) : M unit :=
  update id (fun e => mkElement text (style_display e) (disabled e) (src e) (alt e) (href e)).

Definition set_display (id value : string) : M unit :=
  update id (fun e => mkElement (textContent e) value (disabled e) (src e) (alt e) (href e)).

Definition set_disabled (id : string) (b : bool) : M unit :=
  update id (fun e => mkElement (textContent e) (style_display e) b (src e) (alt e) (href e)).

Definition set_src (id value : string) : M unit :=
  update id (fun e => mkElement (textContent e) (style_display e) (disabled e) value (alt e) (href e)).

Definition set_alt (id value : string) : M unit :=
  update id (fun e => mkElement (textContent e) (style_display e) (disabled e) (src e) value (href e)).

Definition set_href (id value : string) : M unit :=
  update id (fun e => mkElement (textContent e) (style_display e) (disabled e) (src e) (alt e) value).

Definition dquote : string := String (Ascii.ascii_of_nat 34) EmptyString.

(** ** The script *)

(** [$(id)]: the element, by its id, or an [Error]. *)
Definition getElement (id : string) : M string :=
  d ← gets dom;
  match d !! id with
  | Some _ => mret id
  | None => throw (Error ("Element with id " +:+ dquote +:+ id +:+ dquote +:+ " not found"))
  end.

Notation "'$' id" := (getElement id) (at level 9, id at level 9, only parsing).

Definition setStatus (text : string) : M unit :=
  statusEl ← $ "status";
  set_textContent statusEl text.

Definition setAcceptStatus (text : string) : M unit :=
  el ← $ "accept-status";
  set_textContent el text.

(** [requestAd]: its [catch] block. *)
Definition requestAd_catch (adCardEl emptyEl errorEl : string) (error : Exn) : M Ctl :=
  console_error "Ad request error:" error ;;
  set_display adCardEl "none" ;;
  set_display emptyEl "none" ;;
  set_display errorEl "block" ;;
  setStatus "加载广告失败" ;;
  mret Done.

(** [requestAd], up to [await fetch(...)]. *)
Definition requestAd (latitude longitude : option Q) : M Ctl :=
  adCardEl ← $ "ad-card";
  adTitleEl ← $ "ad-title";
  adImageEl ← $ "ad-image";
  adLinkEl ← $ "ad-link";
  emptyEl ← $ "empty";
  errorEl ← $ "error";
  nav ← gets navigator;
  h ← gets hours;
  let payload := mkAdApiPayload latitude longitude (userAgent nav) h in
  setStatus "正在获取推荐广告..." ;;
  try_catch
    (emit (Fetch "/api/v1/ad-recommend/" (BodyAd payload) false) ;;
     suspend AwaitAdFetch)
    (requestAd_catch adCardEl emptyEl errorEl).

(** [requestAd], from the settled fetch to [await response.json()]. *)
Definition requestAd_response (r : Exn + Response) : M Ctl :=
  try_catch
    (response ← lift r;
     if status response =? 204 then
       set_display "ad-card" "none" ;;
       set_display "empty" "block" ;;
       set_display "error" "none" ;;
       setStatus "当前没有匹配到定向广告，展示通用提示。" ;;
       mret Done
     else if negb (ok response) then
       throw (Error ("HTTP " +:+ pretty (status response)))
     else
       suspend AwaitAdJson)
    (requestAd_catch "ad-card" "empty" "error").

(** [requestAd], from the parsed body to the end. *)
Definition requestAd_json (r : Exn + JSVal) : M Ctl :=
  try_catch
    (data ← lift r;
     title ← lift (get_prop data "title");
     text ← lift (to_textContent title);
     set_textContent "ad-title" text ;;
     image_url ← lift (get_prop data "image_url");
     image ← lift (ToString image_url);
     set_src "ad-image" image ;;
     title ← lift (get_prop data "title");
     label ← lift (ToString title);
     set_alt "ad-image" label ;;
     target_url ← lift (get_prop data "target_url");
     target ← lift (ToString target_url);
     set_href "ad-link" target ;;
     set_display "ad-card" "block" ;;
     set_display "empty" "none" ;;
     set_display "error" "none" ;;
     setStatus "已为你匹配到专属广告" ;;
     mret Done)
    (requestAd_catch "ad-card" "empty" "error").

(** The two acquisition policies. *)
Definition FAST : PositionOptions := mkPositionOptions false 5000 0.
Definition CACHED : PositionOptions := mkPositionOptions true 5000 300000.

(** [tryGetGeo]: the promise as the constructor leaves it.  Without the
    capability the executor resolves [null] at once; with it, the two
    callbacks below are handed to [getCurrentPosition]. *)
Definition tryGetGeo : M (Promise (option GeoFix)) :=
  new_Promise
    (nav ← gets navigator;
     if negb (geolocation nav) then mret (Some None)
     else emit (GetCurrentPosition CACHED) ;; mret None).

(** [tryGetGeo]'s success callback; it yields the value it passes to
    [resolve]. *)
Definition tryGetGeo_success (pos : Coords) : M (option GeoFix) :=
  modify (set_lastGeo (Some (mkGeoFix (coords_latitude pos) (coords_longitude pos)
                                      (Math_round (coords_accuracy pos))))) ;;
  gets lastGeo.

(** [tryGetGeo]'s error callback: [() => resolve(null)]. *)
Definition tryGetGeo_error (err : PositionError) : M (option GeoFix) :=
  mret None.

(** [await tryGetGeo()] in the call that continues as [k]: an already
    settled promise resumes the call from the microtask queue, an
    unsettled one leaves it pending on the position request. *)
Definition await_tryGetGeo (k : GeoK) : M Ctl :=
  promise ← tryGetGeo;
  match promise with
  | Fulfilled v => enqueue (mkMicro k (inr v))
  | Rejected e => enqueue (mkMicro k (inl e))
  | Pending => suspend (AwaitTryGetGeo k)
  end.

(** [postVisitPing], from [geo] on. *)
Definition postVisitPing_send (ev : VisitEvent) (geo : option GeoFix) : M Ctl :=
  let payload := mkPingPayload (latitude <$> geo) (longitude <$> geo)
                               (accuracy_m <$> geo) ev in
  nav ← gets navigator;
  if (match ev with leave => true | ping => false end) && sendBeacon nav then
    emit (SendBeacon "/api/v1/portal/ping/" (BodyPing payload)) ;;
    mret Done
  else
    emit (Fetch "/api/v1/portal/ping/" (BodyPing payload) true) ;;
    suspend AwaitPingFetch.

(** [postVisitPing], up to its first suspension. *)
Definition postVisitPing (ev : VisitEvent) : M Ctl :=
  cached ← gets lastGeo;
  match cached with
  | Some geo => postVisitPing_send ev (Some geo)
  | None => await_tryGetGeo (KPing ev)
  end.

Definition onLeave : M unit := void (postVisitPing leave).

Definition startVisitPingLoop : M unit :=
  t ← gets visitPingTimer;
  match t with
  | Some _ => mret tt
  | None =>
      void (postVisitPing ping) ;;
      h ← setInterval CbIntervalPing 60000;
      modify (set_visitPingTimer (Some h)) ;;
      addEventListener TWindow "beforeunload" CbOnLeave ;;
      addEventListener TDocument "visibilitychange" CbOnVisibilityChange
  end.

(** [acceptPortal] of [static/js/portal.js]. *)
Module PortalJs.

Definition acceptPortal_catch (error : Exn) : M Ctl :=
  console_error "accept portal error:" error ;;
  setAcceptStatus "认证失败，请稍后重试。" ;;
  mret Done.

Definition acceptPortal_finally (btn : string) : M unit :=
  set_disabled btn false.

(** From [geo] to [await fetch(...)]. *)
Definition acceptPortal_fetch (geo : option GeoFix) : M Ctl :=
  let payload := mkAcceptPayload (latitude <$> geo) (longitude <$> geo)
                                 (accuracy_m <$> geo) in
  emit (Fetch "/api/v1/portal/accept/" (BodyAccept payload) false) ;;
  suspend AwaitAcceptFetch.

(** Up to the first suspension. *)
Definition acceptPortal : M Ctl :=
  btn ← $ "accept-btn";
  set_disabled btn true ;;
  setAcceptStatus "正在提交认证..." ;;
  try_catch_finally
    (cached ← gets lastGeo;
     match cached with
     | Some geo => acceptPortal_fetch (Some geo)
     | None => await_tryGetGeo KAccept
     end)
    acceptPortal_catch (acceptPortal_finally btn).

(** Resumed from [await tryGetGeo()]. *)
Definition acceptPortal_geo (r : Exn + option GeoFix) : M Ctl :=
  try_catch_finally
    (geo ← lift r;
     acceptPortal_fetch geo)
    acceptPortal_catch (acceptPortal_finally "accept-btn").

(** Resumed from [await fetch(...)]. *)
Definition acceptPortal_response (r : Exn + Response) : M Ctl :=
  try_catch_finally
    (res ← lift r;
     if negb (ok res) then throw (Error ("HTTP " +:+ pretty (status res)))
     else suspend AwaitAcceptJson)
    acceptPortal_catch (acceptPortal_finally "accept-btn").

(** Resumed from [await res.json()]. *)
Definition acceptPortal_json (r : Exn + JSVal) : M Ctl :=
  try_catch_finally
    (data ← lift r;
     data_ok ← lift (get_prop data "ok");
     (if truthy data_ok then
        startVisitPingLoop ;;
        venue ← lift (get_prop data "venue");
        if truthy venue then
          name ← lift (get_prop venue "name");
          name ← lift (ToString name);
          category ← lift (get_prop venue "category");
          category ← lift (ToString category);
          distance_m ← lift (get_prop venue "distance_m");
          distance ← lift (ToString (nullish_or distance_m (JStr "?")));
          setAcceptStatus ("认证成功。归因店铺：" +:+ name +:+ "（" +:+ category
                           +:+ "），距离约 " +:+ distance +:+ "m")
        else
          setAcceptStatus "认证成功。但未命中附近店铺（可能未授权定位或距离阈值过小）。"
      else
        setAcceptStatus "认证失败：返回状态异常。") ;;
     mret Done)
    acceptPortal_catch (acceptPortal_finally "accept-btn").

End PortalJs.

(** [acceptPortal] of the other build of the script. *)
Module Part000.

Definition acceptPortal_catch (acceptStatus : string) (error : Exn) : M Ctl :=
  console_error "accept portal error:" error ;;
  set_textContent acceptStatus "认证失败：网络异常或服务器错误。" ;;
  mret Done.

Definition acceptPortal_finally (btn : string) : M unit :=
  set_disabled btn false.

(** Up to [await fetch(...)]. *)
Definition acceptPortal : M Ctl :=
  btn ← $ "accept-btn";
  acceptStatus ← $ "accept-status";
  set_disabled btn true ;;
  set_textContent acceptStatus "正在提交认证..." ;;
  try_catch_finally
    (emit (Fetch "/api/v1/portal/accept/" BodyEmptyObject false) ;;
     suspend AwaitAcceptFetch)
    (acceptPortal_catch acceptStatus) (acceptPortal_finally btn).

(** Resumed from [await fetch(...)]. *)
Definition acceptPortal_response (r : Exn + Response) : M Ctl :=
  try_catch_finally
    (res ← lift r;
     if negb (ok res) then
       emit (Console "error" "portal accept http error:"
                     (LogStatus (status res) (statusText res))) ;;
       set_textContent "accept-status" ("认证失败：返回状态 " +:+ pretty (status res)) ;;
       mret Done
     else
       suspend AwaitAcceptJson)
    (acceptPortal_catch "accept-status") (acceptPortal_finally "accept-btn").

(** Resumed from [await res.json()], inside the inner [try]. *)
Definition acceptPortal_json (r : Exn + JSVal) : M Ctl :=
  try_catch_finally
    (data ← match r with
            | inr data => emit (Console "log" "portal accept response:" (LogVal data)) ;;
                          mret data
            | inl e => emit (Console "warn" "portal accept response is not valid JSON:"
                                     (LogExn e)) ;;
                       mret JNull
            end;
     is_authenticated ← (if truthy data then lift (get_prop data "is_authenticated")
                         else mret JUndefined);
     (if truthy data && match is_authenticated with JBool false => true | _ => false end
      then set_textContent "accept-status" "认证未生效，请稍后重试。"
      else set_textContent "accept-status" "认证成功，你可以继续访问互联网。") ;;
     mret Done)
    (acceptPortal_catch "accept-status") (acceptPortal_finally "accept-btn").

End Part000.

(** [initPortal]'s success callback. *)
Definition initPortal_success (pos : Coords) : M unit :=
  let lat := coords_latitude pos in
  let lon := coords_longitude pos in
  setStatus ("定位成功：" +:+ toFixed 6 lat +:+ ", " +:+ toFixed 6 lon +:+ "（acc="
             +:+ pretty (Math_round (coords_accuracy pos)) +:+ "m）") ;;
  void (requestAd (Some lat) (Some lon)).

(** [initPortal]'s error callback. *)
Definition initPortal_error (err : PositionError) : M unit :=
  setStatus ("定位失败：code=" +:+ pretty (code err) +:+ " msg=" +:+ message err) ;;
  void (requestAd None None).

Definition initPortal : M unit :=
  btn ← $ "accept-btn";
  addEventListener (TElement btn) "click" CbAcceptClick ;;
  setStatus "初始化中..." ;;
  nav ← gets navigator;
  if negb (geolocation nav) then
    setStatus "设备不支持定位，展示通用广告。" ;;
    void (requestAd None None)
  else
    setStatus "正在请求位置信息..." ;;
    emit (GetCurrentPosition FAST) ;;
    register AwaitInitGeo.

(** The [DOMContentLoaded] listener. *)
Definition onDOMContentLoaded : M unit :=
  try_catch initPortal
    (fun error =>
       emit (Console "error" "Init portal error:" (LogExn error)) ;;
       setStatus "初始化失败").

(** ** The event loop *)

(** Which build of the script the page runs. *)
Inductive Script := portal_js | part_000.

Definition acceptPortal (s : Script) : M Ctl :=
  match s with
  | portal_js => PortalJs.acceptPortal
  | part_000 => Part000.acceptPortal
  end.

Definition acceptPortal_response (s : Script) (r : Exn + Response) : M Ctl :=
  match s with
  | portal_js => PortalJs.acceptPortal_response r
  | part_000 => Part000.acceptPortal_response r
  end.

Definition acceptPortal_json (s : Script) (r : Exn + JSVal) : M Ctl :=
  match s with
  | portal_js => PortalJs.acceptPortal_json r
  | part_000 => Part000.acceptPortal_json r
  end.

(** What the browser can do to the page. *)
Inductive Event :=
| DOMContentLoaded
| Click (id : string)
| GeoSuccess (a : nat) (pos : Coords)
| GeoError (a : nat) (err : PositionError)
| FetchResolve (a : nat) (response : Response)
| FetchReject (a : nat) (reason : Exn)
| JsonResolve (a : nat) (data : JSVal)
| JsonReject (a : nat) (reason : Exn)
| TimerFire (h : nat)
| BeforeUnload
| VisibilityChange (v : Visibility).

(** Resume a call after [await tryGetGeo()].  Only the [acceptPortal] of
    [static/js/portal.js] has such a suspension point. *)
Definition resume (k : GeoK) (r : Exn + option GeoFix) : M Ctl :=
  match k with
  | KPing ev => geo ← lift r; postVisitPing_send ev geo
  | KAccept => PortalJs.acceptPortal_geo r
  end.

(** The code that runs when the operation a call waits for at [st]
    settles as [e] says; [None] when [e] is not a settlement of such an
    operation. *)
Definition on_settled (s : Script) (st : Await) (e : Event) : option (M unit) :=
  match st, e with
  | AwaitInitGeo, GeoSuccess _ pos => Some (initPortal_success pos)
  | AwaitInitGeo, GeoError _ err => Some (initPortal_error err)
  | AwaitTryGetGeo k, GeoSuccess _ pos =>
      Some (void (v ← tryGetGeo_success pos; resume k (inr v)))
  | AwaitTryGetGeo k, GeoError _ err =>
      Some (void (v ← tryGetGeo_error err; resume k (inr v)))
  | AwaitAdFetch, FetchResolve _ response => Some (void (requestAd_response (inr response)))
  | AwaitAdFetch, FetchReject _ reason => Some (void (requestAd_response (inl reason)))
  | AwaitAdJson, JsonResolve _ data => Some (void (requestAd_json (inr data)))
  | AwaitAdJson, JsonReject _ reason => Some (void (requestAd_json (inl reason)))
  | AwaitPingFetch, FetchResolve _ _ => Some (mret tt)
  | AwaitPingFetch, FetchReject _ _ => Some (mret tt)
  | AwaitAcceptFetch, FetchResolve _ response =>
      Some (void (acceptPortal_response s (inr response)))
  | AwaitAcceptFetch, FetchReject _ reason =>
      Some (void (acceptPortal_response s (inl reason)))
  | AwaitAcceptJson, JsonResolve _ data => Some (void (acceptPortal_json s (inr data)))
  | AwaitAcceptJson, JsonReject _ reason => Some (void (acceptPortal_json s (inl reason)))
  | _, _ => None
  end.

Definition settle (s : Script) (a : nat) (e : Event) (p : Page) : Page :=
  match pending p !! a with
  | Some st =>
      match on_settled s st e with
      | Some m => exec m (set_pending (delete a (pending p)) p)
      | None => p
      end
  | None => p
  end.

(** The microtask checkpoint: the jobs queued by the code that just ran
    are resumed in order. *)
Definition drain (s : Script) (p : Page) : Page :=
  fold_left (fun p job => exec (resume (cont job) (settled job)) p)
            (microtasks p) (set_microtasks [] p).

Definition run_callback (s : Script) (cb : Callback) : M unit :=
  match cb with
  | CbAcceptClick => void (acceptPortal s)
  | CbIntervalPing => void (postVisitPing ping)
  | CbOnLeave => onLeave
  | CbOnVisibilityChange =>
      v ← gets visibilityState;
      match v with
      | hidden => onLeave
      | visible => mret tt
      end
  end.

(** One callback, then the microtask checkpoint. *)
Definition invoke (s : Script) (p : Page) (cb : Callback) : Page :=
  drain s (exec (run_callback s cb) p).

Definition Target_eqb (t u : Target) : bool :=
  match t, u with
  | TWindow, TWindow => true
  | TDocument, TDocument => true
  | TElement i, TElement j => String.eqb i j
  | _, _ => false
  end.

(** The listeners of an event, in registration order. *)
Definition listening (t : Target) (ty : string) (p : Page) : list Callback :=
  map listener
      (List.filter (fun l => Target_eqb (target l) t && String.eqb (type l) ty)
                   (listeners p)).

Definition dispatch (s : Script) (t : Target) (ty : string) (p : Page) : Page :=
  fold_left (invoke s) (listening t ty p) p.

Definition firing (h : nat) (p : Page) : list Callback :=
  map handler (List.filter (fun t => Nat.eqb (handle t) h) (timers p)).

(** The page's reaction to an event.  A second [DOMContentLoaded] does not
    occur, a disabled button receives no click, and a settlement that no
    pending call waits for is not delivered. *)
Definition react (s : Script) (e : Event) (p : Page) : Page :=
  match e with
  | DOMContentLoaded =>
      if loaded p then p else exec onDOMContentLoaded (set_loaded true p)
  | Click id =>
      match dom p !! id with
      | Some el => if disabled el then p else dispatch s (TElement id) "click" p
      | None => p
      end
  | TimerFire h => fold_left (invoke s) (firing h p) p
  | BeforeUnload => dispatch s TWindow "beforeunload" p
  | VisibilityChange v => dispatch s TDocument "visibilitychange" (set_visibilityState v p)
  | GeoSuccess a _ | GeoError a _ | FetchResolve a _ | FetchReject a _
  | JsonResolve a _ | JsonReject a _ => settle s a e p
  end.

Definition step (s : Script) (p : Page) (e : Event) : Page :=
  drain s (react s e p).

Definition run (s : Script) (p : Page) (es : list Event) : Page :=
  fold_left (step s) es p.

(** The page when the script has been evaluated and nothing has happened
    yet. *)
Definition initial (nav : Navigator) (h : Z) (v : Visibility)
    (d : gmap string Element) : Page :=
  mkPage nav h false v d None None [] 1 [] ∅ 0 [] [].

(** ** Observations *)

Definition text_of (id : string) (p : Page) : option string :=
  textContent <$> dom p !! id.

Definition displayed (id : string) (p : Page) : bool :=
  match dom p !! id with
  | Some el => negb (String.eqb (style_display el) "none")
  | None => false
  end.

Definition is_disabled (id : string) (p : Page) : bool :=
  match dom p !! id with
  | Some el => disabled el
  | None => false
  end.

(** The elements the script looks up; the page template provides them. *)
Definition required_ids : list string :=
  ["status"; "accept-status"; "accept-btn"; "ad-card"; "ad-title"; "ad-image";
   "ad-link"; "empty"; "error"].

Definition dom_ok (d : gmap string Element) : Prop :=
  Forall (fun id => is_Some (d !! id)) required_ids.

Definition page_ok (p : Page) : Prop := dom_ok (dom p).

(** The three outcomes of an ad request, as the panels show them. *)
Inductive AdOutcome := AdFound | AdEmpty | AdError.

(** The outcome the panels display, if they display exactly one. *)
Definition ad_state (p : Page) : option AdOutcome :=
  match displayed "ad-card" p, displayed "empty" p, displayed "error" p with
  | true, false, false => Some AdFound
  | false, true, false => Some AdEmpty
  | false, false, true => Some AdError
  | _, _, _ => None
  end.

(** What the network answers to a request: no response at all, or a
    response together with what reading its body as JSON gives. *)
Inductive Reply :=
| NetworkFailure (reason : Exn)
| Replied (response : Response) (body : Exn + JSVal).

(** The events by which the browser reports [reply] for the fetch [a]; the
    body parse, if the script asks for it, is the next operation. *)
Definition reply_events (a : nat) (reply : Reply) : list Event :=
  match reply with
  | NetworkFailure reason => [FetchReject a reason]
  | Replied response (inl reason) => [FetchResolve a response; JsonReject (S a) reason]
  | Replied response (inr data) => [FetchResolve a response; JsonResolve (S a) data]
  end.

(** [requestAd(latitude, longitude)] called on page [p] and answered by
    [reply]. *)
Definition requestAd_run (s : Script) (latitude longitude : option Q)
    (reply : Reply) (p : Page) : Page :=
  run s (exec (requestAd latitude longitude) p) (reply_events (next_id p) reply).

(** The classification of a reply in the words of the specification:
    204 is [Empty], another status outside 2xx is [Error], a 2xx with a
    parseable body is [Found], a network or parse failure is [Error]. *)
Definition stated_outcome (reply : Reply) : AdOutcome :=
  match reply with
  | NetworkFailure _ => AdError
  | Replied response body =>
      if status response =? 204 then AdEmpty
      else if negb (ok response) then AdError
      else match body with
           | inl _ => AdError
           | inr _ => AdFound
           end
  end.

(** [ToString] of the value does not throw. *)
Definition converts (v : JSVal) : bool :=
  match ToString v with
  | inr _ => true
  | inl _ => false
  end.

(** The body can be shown as an ad: it is not [null], so that its
    fields can be read, and the three fields the card shows convert to
    strings. *)
Definition shows_as_ad (data : JSVal) : bool :=
  negb (nullish data)
  && converts (field data "title")
  && converts (field data "image_url")
  && converts (field data "target_url").

(** The classification the script makes: as stated, except that a body
    which cannot be shown as an ad ends in the [catch] clause like a
    failure. *)
Definition outcome (reply : Reply) : AdOutcome :=
  match reply with
  | NetworkFailure _ => AdError
  | Replied response body =>
      if status response =? 204 then AdEmpty
      else if negb (ok response) then AdError
      else match body with
           | inl _ => AdError
           | inr data => if shows_as_ad data then AdFound else AdError
           end
  end.

Definition blank : Element :=
  mkElement EmptyString EmptyString false EmptyString EmptyString EmptyString.

(** A page with the required elements and nothing else, in a browser with
    both capabilities, shortly after one o'clock. *)
Definition sample_page : Page :=
  initial (mkNavigator true true "Mozilla/5.0") 13 visible
          (list_to_map ((fun id => (id, blank)) <$> required_ids)).

(** Handles are handed out in increasing order: none in use is still to
    come. *)
Definition fresh_ids (p : Page) : Prop :=
  forall a, is_Some (pending p !! a) -> (a < next_id p)%nat.


(** ** Counting what the page has sent and what it waits for *)

Fixpoint count_if {A} (f : A -> bool) (l : list A) : nat :=
  match l with
  | [] => O
  | x :: l' => ((if f x then 1 else 0) + count_if f l')%nat
  end.

Definition VisitEvent_eqb (a b : VisitEvent) : bool :=
  match a, b with
  | ping, ping | leave, leave => true
  | _, _ => false
  end.

Definition is_ad_request (e : Effect) : bool :=
  match e with
  | Fetch url _ _ => String.eqb url "/api/v1/ad-recommend/"
  | _ => false
  end.

Definition is_accept_request (e : Effect) : bool :=
  match e with
  | Fetch url _ _ => String.eqb url "/api/v1/portal/accept/"
  | _ => false
  end.

(** A heartbeat of kind [ev], by either transport. *)
Definition is_heartbeat (ev : VisitEvent) (e : Effect) : bool :=
  match e with
  | Fetch url (BodyPing payload) _ | SendBeacon url (BodyPing payload) =>
      String.eqb url "/api/v1/portal/ping/" && VisitEvent_eqb (event payload) ev
  | _ => false
  end.

Definition ad_requests (p : Page) : nat := count_if is_ad_request (out p).
Definition accept_requests (p : Page) : nat := count_if is_accept_request (out p).
Definition sent (ev : VisitEvent) (p : Page) : nat := count_if (is_heartbeat ev) (out p).

(** The number of pending operations whose suspension point satisfies
    [P]. *)
Definition count_ops (P : Await -> bool) (m : gmap nat Await) : nat :=
  size (filter (fun kv => P kv.2 = true) m).

Definition ops (P : Await -> bool) (p : Page) : nat := count_ops P (pending p).

(** A call of [postVisitPing(ev)] that waits for a position. *)
Definition waits_for_fix (ev : VisitEvent) (st : Await) : bool :=
  match st with
  | AwaitTryGetGeo (KPing ev') => VisitEvent_eqb ev' ev
  | _ => false
  end.

(** A call of [postVisitPing(ev)] queued for the microtask checkpoint. *)
Definition queued_for (ev : VisitEvent) (job : Micro) : bool :=
  match cont job with
  | KPing ev' => VisitEvent_eqb ev' ev
  | KAccept => false
  end.

(** The calls of [postVisitPing(ev)] made so far that got past their
    fetch or beacon, and those that have not yet. *)
Definition waiting (ev : VisitEvent) (p : Page) : nat :=
  (ops (waits_for_fix ev) p + count_if (queued_for ev) (microtasks p))%nat.

Definition dispatched (ev : VisitEvent) (p : Page) : nat :=
  (sent ev p + waiting ev p)%nat.

(** A call of [acceptPortal] in flight. *)
Definition is_accept_op (st : Await) : bool :=
  match st with
  | AwaitTryGetGeo KAccept | AwaitAcceptFetch | AwaitAcceptJson => true
  | _ => false
  end.

Definition is_init_op (st : Await) : bool :=
  match st with
  | AwaitInitGeo => true
  | _ => false
  end.

(** ** Page sessions *)

(** The pages a session can reach: the freshly loaded page, and whatever
    the browser's events make of it. *)
Inductive reachable (s : Script) : Page -> Prop :=
| reach_initial nav h v d : reachable s (initial nav h v d)
| reach_step p e : reachable s p -> reachable s (step s p e).

Definition lifecycle (l : Listener) : bool :=
  match target l with
  | TElement _ => false
  | _ => true
  end.

Definition lifecycle_listeners (p : Page) : list Listener :=
  List.filter lifecycle (listeners p).

Definition element_listeners (p : Page) : list Listener :=
  List.filter (fun l => negb (lifecycle l)) (listeners p).

Definition leave_listeners : list Listener :=
  [mkListener TWindow "beforeunload" CbOnLeave;
   mkListener TDocument "visibilitychange" CbOnVisibilityChange].

Definition click_listener : Listener :=
  mkListener (TElement "accept-btn") "click" CbAcceptClick.

(** The heartbeat is off, with no timer and no observer, or on, with the
    one timer the sentinel names and the two observers. *)
Definition heartbeat_inv (p : Page) : Prop :=
  match visitPingTimer p with
  | None => timers p = [] /\ lifecycle_listeners p = []
  | Some h => timers p = [mkTimer h 60000 CbIntervalPing]
              /\ lifecycle_listeners p = leave_listeners
  end.

(** Before the document is ready nothing has happened; afterwards the
    button has at most the one click listener. *)
Definition click_inv (p : Page) : Prop :=
  if loaded p
  then element_listeners p = [] \/ element_listeners p = [click_listener]
  else listeners p = [] /\ pending p = ∅ /\ out p = [] /\ visitPingTimer p = None.

(** At most one [acceptPortal] is in flight, and the button is disabled
    while it is. *)
Definition mutex_inv (p : Page) : Prop :=
  (ops is_accept_op p <= 1)%nat
  /\ (ops is_accept_op p = 1%nat -> is_disabled "accept-btn" p = true).

(** The position request of [initPortal] and the ad request exclude each
    other; on a page with the required elements, one of the two has been
    made once the document is ready. *)
Definition ad_inv (p : Page) : Prop :=
  (ad_requests p + ops is_init_op p <= 1)%nat
  /\ (page_ok p -> loaded p = true ->
      (ad_requests p + ops is_init_op p = 1)%nat).

Definition Inv (p : Page) : Prop :=
  microtasks p = [] /\ fresh_ids p /\ heartbeat_inv p /\ click_inv p
  /\ mutex_inv p /\ ad_inv p.

(** What a single step may do to the accept button: a step that sends an
    accept request leaves the button disabled, a step that ends the call
    in flight leaves it enabled, and, on a page with the required
    elements, a step that disables the button leaves a call in flight. *)
Definition button_step (p p' : Page) : Prop :=
  (accept_requests p' <> accept_requests p -> is_disabled "accept-btn" p' = true)
  /\ (ops is_accept_op p = 1%nat -> ops is_accept_op p' = O ->
      is_disabled "accept-btn" p' = false)
  /\ (page_ok p -> is_disabled "accept-btn" p = false ->
      is_disabled "accept-btn" p' = true -> ops is_accept_op p' = 1%nat).

Definition Step_ok (p p' : Page) : Prop := Inv p' /\ button_step p p'.

(** ** Weakest preconditions *)

(** [wp m Q p]: running [m] on [p] ends in a page and a result that
    satisfy [Q]. *)
Definition wp {A} (m : M A) (Q : Page -> Exn + A -> Prop) (p : Page) : Prop :=
  Q (fst (m p)) (snd (m p)).

(** ** Properties of computations *)

(** [m] keeps the property [I] of the page, however it ends. *)
Definition keeps {A} (I : Page -> Prop) (m : M A) : Prop :=
  forall p, I p -> I (exec m p).

(** A property of the page that no write of the event loop itself
    disturbs: the loop sets the ready flag and the visibility state, and
    maintains the table of pending operations and the microtask queue. *)
Record stable (I : Page -> Prop) : Prop := {
  stable_loaded : forall p b, I p -> I (set_loaded b p);
  stable_visibility : forall p v, I p -> I (set_visibilityState v p);
  stable_pending : forall p m, I p -> I (set_pending m p);
  stable_microtasks : forall p q, I p -> I (set_microtasks q p)
}.

(** ** Sample sessions *)

(** The sample page in a browser without geolocation and without
    [sendBeacon]. *)
Definition sample_page_without_geolocation : Page :=
  initial (mkNavigator false false "Mozilla/5.0") 13 visible
          (list_to_map ((fun id => (id, blank)) <$> required_ids)).

Definition sample_position : Coords := mkCoords (3123 # 100) (12147 # 100) (65 # 2).

(** The sample page once the document is ready: [initPortal] has asked
    for a position and waits for it. *)
Definition page_locating : Page := step portal_js sample_page DOMContentLoaded.

(** A session in which the visitor has clicked the accept button and the
    accept request is on its way. *)
Definition page_accepting (s : Script) : Page :=
  run s sample_page_without_geolocation [DOMContentLoaded; Click "accept-btn"].

(** A body that accepts the join, without attribution. *)
Definition join_accepted : JSVal := JObj [("ok", JBool true)].

(** The visitor has denied the position request. *)
Definition denied : PositionError :=
  mkPositionError 1 "User denied Geolocation".

(** A session in a browser with geolocation in which no position could
    be had: the visitor has clicked the accept button, the accept
    request went out without a fix, and its response has arrived; the
    call waits for the body. *)
Definition page_accept_replied : Page :=
  run portal_js sample_page
      [DOMContentLoaded; Click "accept-btn"; GeoError 1 denied;
       FetchResolve 2 (mkResponse 200 "OK")].

(** The same session once the body has accepted the join: the heartbeat
    runs, and there is no cached fix. *)
Definition page_joined_without_fix : Page :=
  step portal_js page_accept_replied (JsonResolve 3 join_accepted).

(** A session in which the join was accepted and the heartbeat runs, with
    a cached fix. *)
Definition page_joined : Page :=
  run portal_js sample_page
      [DOMContentLoaded; Click "accept-btn"; GeoSuccess 1 sample_position;
       FetchResolve 2 (mkResponse 200 "OK");
       JsonResolve 3 (JObj [("ok", JBool true)])].

(** ** The ad request (C1) *)

(** A 200 response whose body is the JSON text [null]. *)
Definition null_body : Reply := Replied (mkResponse 200 "OK") (inr JNull).

(** A 200 response whose body is [{"title": {"toString": 1}}]: the
    title is an object that cannot be converted to a string. *)
Definition unprintable_title : Reply :=
  Replied (mkResponse 200 "OK")
          (inr (JObj [("title", JObj [("toString", JNum "1")])])).

(** The body of the reply parses, to a value that cannot be shown as an
    ad: [null], or a value with a field whose conversion throws. *)
Definition body_not_shown (reply : Reply) : bool :=
  match reply with
  | Replied _ (inr data) => negb (shows_as_ad data)
  | _ => false
  end.

(** ** The heartbeat (C2, C5) *)

(** What [startVisitPingLoop] does, called any number of times on [p]. *)
Definition start_idempotent (p : Page) : Prop :=
  (length (timers p) <= 1)%nat
  /\ (visitPingTimer p = None -> timers p = [])
  /\ (forall q, exec startVisitPingLoop (exec startVisitPingLoop q)
                = exec startVisitPingLoop q)
  /\ (visitPingTimer p <> None -> exec startVisitPingLoop p = p)
  /\ forall n,
       let p' := Nat.iter (S n) (exec startVisitPingLoop) p in
       p' = exec startVisitPingLoop p
       /\ (exists h, visitPingTimer p' = Some h
                     /\ timers p' = [mkTimer h 60000 CbIntervalPing])
       /\ dispatched ping p'
          = (dispatched ping p + match visitPingTimer p with
                                 | Some _ => 0
                                 | None => 1
                                 end)%nat
       /\ (visitPingTimer p = None -> lastGeo p <> None ->
           sent ping p' = S (sent ping p))
       /\ (visitPingTimer p = None -> lastGeo p = None ->
           geolocation (navigator p) = true ->
           sent ping p' = sent ping p
           /\ out p' = (out p ++ [GetCurrentPosition CACHED])%list
           /\ pending p' = <[next_id p := AwaitTryGetGeo (KPing ping)]> (pending p))
       /\ (forall s, visitPingTimer p = None -> lastGeo p = None ->
           geolocation (navigator p) = false ->
           sent ping p' = sent ping p /\ sent ping (drain s p') = S (sent ping p))
       /\ (forall s, visitPingTimer p = None ->
           (sent ping (drain s p') + ops (waits_for_fix ping) (drain s p'))%nat
           = S (sent ping p + ops (waits_for_fix ping) p))
       /\ (forall s a e, pending p !! a = Some (AwaitTryGetGeo (KPing ping)) ->
           (exists pos, e = GeoSuccess a pos) \/ (exists err, e = GeoError a err) ->
           sent ping (step s p e) = S (sent ping p)).

(** The payload [postVisitPing(ev)] builds from the fix it has. *)
Definition heartbeat_payload (ev : VisitEvent) (geo : option GeoFix) : PingPayload :=
  mkPingPayload (latitude <$> geo) (longitude <$> geo) (accuracy_m <$> geo) ev.


(** ** A successful join (C3) *)

(** The body tells the client that the join was accepted: [data.ok]. *)
Definition accepted (data : JSVal) : bool :=
  match get_prop data "ok" with
  | inr v => truthy v
  | inl _ => false
  end.

Fixpoint prefix_of (a b : string) : bool :=
  match a, b with
  | EmptyString, _ => true
  | String x a', String y b' => Ascii.eqb x y && prefix_of a' b'
  | _, _ => false
  end.

(** [hay.includes(needle)]. *)
Fixpoint includes (needle hay : string) : bool :=
  prefix_of needle hay
  || match hay with
     | EmptyString => false
     | String _ rest => includes needle rest
     end.

Definition cafe_x : JSVal :=
  JObj [("name", JStr "Cafe X"); ("category", JStr "food"); ("distance_m", JNum "12")].

(** A body that accepts the join and attributes it to Cafe X. *)
Definition join_at_cafe_x : JSVal := JObj [("ok", JBool true); ("venue", cafe_x)].

(** From a page on which [acceptPortal] waits for its response: a 2xx
    response and a body with a truthy [ok]. *)
Definition accept_ok_starts_heartbeat (p : Page) : Prop :=
  forall a res data,
    pending p !! a = Some AwaitAcceptFetch -> ok res = true -> accepted data = true ->
    let p' := run portal_js p [FetchResolve a res; JsonResolve (next_id p) data] in
    visitPingTimer p' <> None
    /\ (visitPingTimer p = None ->
        visitPingTimer p' = Some (next_timer p)
        /\ timers p' = (timers p ++ [mkTimer (next_timer p) 60000 CbIntervalPing])%list
        /\ lifecycle_listeners p' = (lifecycle_listeners p ++ leave_listeners)%list
        /\ dispatched ping p' = S (dispatched ping p))
    /\ is_disabled "accept-btn" p' = false
    /\ ops is_accept_op p' = O
    /\ (get_prop data "venue" = inr cafe_x ->
        text_of "accept-status" p'
          = Some "认证成功。归因店铺：Cafe X（food），距离约 12m"
        /\ includes "Cafe X" "认证成功。归因店铺：Cafe X（food），距离约 12m" = true
        /\ includes "12m" "认证成功。归因店铺：Cafe X（food），距离约 12m" = true)
    /\ (forall venue, get_prop data "venue" = inr venue -> truthy venue = false ->
        text_of "accept-status" p'
          = Some "认证成功。但未命中附近店铺（可能未授权定位或距离阈值过小）。").

(** ** The cached fix (C4) *)

(** The fix [tryGetGeo] makes of a position. *)
Definition fix_of (pos : Coords) : GeoFix :=
  mkGeoFix (coords_latitude pos) (coords_longitude pos) (Math_round (coords_accuracy pos)).

Definition lastGeo_cache (s : Script) (p : Page) : Prop :=
  (forall a k pos, pending p !! a = Some (AwaitTryGetGeo k) ->
     lastGeo (step s p (GeoSuccess a pos)) = Some (fix_of pos))
  /\ (forall q pos,
     tryGetGeo_success pos q = (set_lastGeo (Some (fix_of pos)) q, inr (Some (fix_of pos))))
  /\ (forall e, (forall a pos, e <> GeoSuccess a pos) ->
     lastGeo (step s p e) = lastGeo p)
  /\ (forall a pos, pending p !! a = Some AwaitInitGeo ->
     lastGeo (step s p (GeoSuccess a pos)) = lastGeo p).

(** ** The initial ad request (C6) *)

(** The ad request [requestAd(latitude, longitude)] sends from page [p]. *)
Definition ad_request (latitude longitude : option Q) (p : Page) : Effect :=
  Fetch "/api/v1/ad-recommend/"
        (BodyAd (mkAdApiPayload latitude longitude (userAgent (navigator p)) (hours p)))
        false.

Definition initial_ad_request (s : Script) (p : Page) : Prop :=
  (ad_requests p <= 1)%nat
  /\ (ops is_init_op p <> O -> ad_requests p = O)
  /\ (page_ok p -> loaded p = true -> (ad_requests p + ops is_init_op p = 1)%nat)
  /\ (page_ok p -> loaded p = false ->
      let p' := step s p DOMContentLoaded in
      if geolocation (navigator p)
      then out p' = [GetCurrentPosition FAST]
           /\ timeout FAST = 5000
           /\ pending p' = {[ next_id p := AwaitInitGeo ]}
      else out p' = [ad_request None None p])
  /\ (forall a err, page_ok p -> pending p !! a = Some AwaitInitGeo ->
      out (step s p (GeoError a err)) = (out p ++ [ad_request None None p])%list)
  /\ (forall a pos, page_ok p -> pending p !! a = Some AwaitInitGeo ->
      out (step s p (GeoSuccess a pos)) =
      (out p ++ [ad_request (Some (coords_latitude pos))
                            (Some (coords_longitude pos)) p])%list).

(** ** The accept button (C8) *)

(** The event [e] ends the call of [acceptPortal] that waits on the
    operation [a] of [p] without a successful join being possible or with
    the body in hand: the request fails, the response is not 2xx, or the
    body arrives or fails to parse. *)
Definition ends_accept (p : Page) (a : nat) (e : Event) : Prop :=
  match pending p !! a, e with
  | Some AwaitAcceptFetch, FetchReject a' _ => a' = a
  | Some AwaitAcceptFetch, FetchResolve a' r => a' = a /\ ok r = false
  | Some AwaitAcceptJson, (JsonResolve a' _ | JsonReject a' _) => a' = a
  | _, _ => False
  end.

Definition accept_mutex (s : Script) (p : Page) : Prop :=
  (ops is_accept_op p <= 1)%nat
  /\ (ops is_accept_op p = 1%nat -> is_disabled "accept-btn" p = true)
  /\ (ops is_accept_op p = 1%nat -> step s p (Click "accept-btn") = p)
  /\ (forall e, accept_requests (step s p e) <> accept_requests p ->
                is_disabled "accept-btn" (step s p e) = true)
  /\ (forall e, ops is_accept_op p = 1%nat -> ops is_accept_op (step s p e) = O ->
                is_disabled "accept-btn" (step s p e) = false)
  /\ (forall e, page_ok p -> is_disabled "accept-btn" p = false ->
                is_disabled "accept-btn" (step s p e) = true ->
                ops is_accept_op (step s p e) = 1%nat)
  /\ (forall a e, ends_accept p a e ->
        ops is_accept_op (step s p e) = O
        /\ is_disabled "accept-btn" (step s p e) = false).

(** ** The two builds of [acceptPortal] (C9) *)

(** The session of the sample page without geolocation in which the
    visitor clicks the accept button and the server replies [reply]; the
    accept request is operation 1, after the ad request. *)
Definition accept_scenario (s : Script) (reply : Reply) : Page :=
  run s (page_accepting s) (reply_events 1 reply).

Definition accept_request_bodies (p : Page) : list Body :=
  omap (fun e => match e with
                 | Fetch url body _ =>
                     if String.eqb url "/api/v1/portal/accept/" then Some body else None
                 | _ => None
                 end) (out p).

(** What the script wrote to the console: level, label and what was
    logged; an exception logged at level [error] under
    [accept portal error:] is one the [catch] clause caught. *)
Definition console_of (p : Page) : list (string * string * LogDetail) :=
  omap (fun e => match e with
                 | Console level label detail => Some (level, label, detail)
                 | _ => None
                 end) (out p).

Record AcceptView := mkAcceptView {
  view_status : option string;
  view_bodies : list Body;
  view_console : list (string * string * LogDetail);
  view_timer : option nat;
  view_pings : nat
}.

Definition accept_view (s : Script) (reply : Reply) : AcceptView :=
  let p := accept_scenario s reply in
  mkAcceptView (text_of "accept-status" p) (accept_request_bodies p) (console_of p)
               (visitPingTimer p) (dispatched ping p).

Definition unparseable_200 : Reply :=
  Replied (mkResponse 200 "OK") (inl (SyntaxError "Unexpected end of JSON input")).

Definition status_500 : Reply :=
  Replied (mkResponse 500 "Internal Server Error") (inr (JObj [])).

Definition body_without_ok : Reply :=
  Replied (mkResponse 200 "OK") (inr (JObj [])).

Definition body_ok_true : Reply :=
  Replied (mkResponse 200 "OK") (inr (JObj [("ok", JBool true)])).

Definition no_fix : AcceptPayload := mkAcceptPayload None None None.

(** ** A failed join (C10) *)

(** The heartbeat, as far as the page and the network can tell. *)
Definition heartbeat_view (p : Page) :=
  (visitPingTimer p, timers p, lifecycle_listeners p,
   sent ping p, sent leave p, waiting ping p, waiting leave p).

(** The operation an event reports on. *)
Definition settles (e : Event) : option nat :=
  match e with
  | GeoSuccess a _ | GeoError a _ | FetchResolve a _ | FetchReject a _
  | JsonResolve a _ | JsonReject a _ => Some a
  | _ => None
  end.

(** Whatever happens to a call of [acceptPortal] in flight, short of a
    body with a truthy [ok], leaves the heartbeat as it was; so does the
    click that starts the call. *)
Definition accept_failure_atomic (s : Script) (p : Page) : Prop :=
  heartbeat_view (step s p (Click "accept-btn")) = heartbeat_view p
  /\ forall a st e,
       pending p !! a = Some st -> is_accept_op st = true -> settles e = Some a ->
       (forall data, e = JsonResolve a data -> accepted data = false) ->
       heartbeat_view (step s p e) = heartbeat_view p.

(** ** Further observations *)

(** The [Error] that [$] throws for an id the document does not have. *)
Definition not_found (id : string) : Exn :=
  Error ("Element with id " +:+ dquote +:+ id +:+ dquote +:+ " not found").

(** The document has no element [id]. *)
Definition missing (p : Page) (id : string) : bool :=
  match dom p !! id with
  | Some _ => false
  | None => true
  end.

(** The elements [requestAd] looks up before it does anything else, in
    the order in which it looks them up; the last is the one [setStatus]
    writes. *)
Definition requestAd_ids : list string :=
  ["ad-card"; "ad-title"; "ad-image"; "ad-link"; "empty"; "error"; "status"].

(** The attributes of an element other than its text. *)
Definition attributes (el : Element) :=
  (style_display el, disabled el, src el, alt el, href el).

(** Everything of a page but its document. *)
Definition outside_dom (p : Page) :=
  (navigator p, hours p, loaded p, visibilityState p, lastGeo p, visitPingTimer p,
   timers p, next_timer p, listeners p, pending p, next_id p, microtasks p, out p).

(** The first exception of a sequence of computations. *)
Fixpoint first_thrown {A} (l : list (Exn + A)) : option Exn :=
  match l with
  | [] => None
  | inl e :: _ => Some e
  | inr _ :: l' => first_thrown l'
  end.

(** The exception [requestAd] ends up with in its [catch] clause, if
    any: the reason the fetch was rejected with, the [Error] thrown for a
    status outside 2xx, the reason the body failed to parse with, the
    [TypeError] of reading [title] off a body that is [null], or the
    [TypeError] of the first of the four assignments to the card whose
    value cannot be converted to a string. *)
Definition requestAd_error (reply : Reply) : option Exn :=
  match reply with
  | NetworkFailure reason => Some reason
  | Replied response body =>
      if status response =? 204 then None
      else if negb (ok response) then Some (Error ("HTTP " +:+ pretty (status response)))
      else match body with
           | inl reason => Some reason
           | inr data =>
               match get_prop data "title" with
               | inl e => Some e
               | inr title =>
                   first_thrown [to_textContent title;
                                 ToString (field data "image_url");
                                 ToString title;
                                 ToString (field data "target_url")]
               end
           end
  end.

(** What the console shows of it. *)
Definition requestAd_log (reply : Reply) : list (string * string * LogDetail) :=
  match requestAd_error reply with
  | Some e => [("error", "Ad request error:", LogExn e)]
  | None => []
  end.

Definition sample_ad : JSVal :=
  JObj [("id", JNum "7"); ("title", JStr "Coffee"); ("image_url", JStr "/media/coffee.png");
        ("target_url", JStr "https://example.com/coffee")].

(** The accept request [acceptPortal] of [static/js/portal.js] sends
    with the fix [geo], or without one. *)
Definition accept_request (geo : option GeoFix) : Effect :=
  Fetch "/api/v1/portal/accept/"
        (BodyAccept (mkAcceptPayload (latitude <$> geo) (longitude <$> geo)
                                     (accuracy_m <$> geo)))
        false.

(** The heartbeat request for [ev] with the fix [geo], or without one. *)
Definition ping_request (ev : VisitEvent) (geo : option GeoFix) : Effect :=
  Fetch "/api/v1/portal/ping/" (BodyPing (heartbeat_payload ev geo)) true.

(** [data && data.is_authenticated === false], as the other build reads
    the body. *)
Definition not_authenticated (data : JSVal) : bool :=
  truthy data
  && match field data "is_authenticated" with
     | JBool false => true
     | _ => false
     end.

(** The sample page without the [accept-status] element, once the
    document is ready. *)
Definition page_without_accept_status (s : Script) : Page :=
  step s (initial (mkNavigator true true "Mozilla/5.0") 13 visible
                  (delete "accept-status"
                          (list_to_map ((fun id => (id, blank)) <$> required_ids))))
       DOMContentLoaded.

(** A call of the ad flow in flight: [initPortal]'s position request or
    a suspended [requestAd]. *)
Definition is_ad_op (st : Await) : bool :=
  match st with
  | AwaitInitGeo | AwaitAdFetch | AwaitAdJson => true
  | _ => false
  end.



(** * The React ad banner

    [hooks/useAdRecommendation.ts] and the [AdBanner] component that
    renders its result.  The hook's four pieces of state are a record;
    the closures it hands to the browser are cut at their [await]s like
    those of the portal script; [AdBanner] is a function from the
    hook's state to what it renders. *)

Module Banner.

(** What a promise is rejected with, or a [throw] throws: an [Error]
    object, or some other value. *)
Inductive Thrown :=
| ThrownError (e : Exn)
| ThrownValue (v : JSVal).

Definition exn_message (e : Exn) : string :=
  match e with
  | Error m | TypeError m | SyntaxError m => m
  end.

(** [err instanceof Error ? err.message : "Failed to fetch ad recommendation."] *)
Definition message_of (err : Thrown) : string :=
  match err with
  | ThrownError e => exn_message e
  | ThrownValue _ => "Failed to fetch ad recommendation."
  end.

(** The state of [useAdRecommendation]: [ad] is an [Ad] or [null],
    [error] a string or [null]. *)
Record HookState := mkHookState {
  ad : JSVal;
  loading : bool;
  error : option string;
  locationDenied : bool
}.

(** Where a call is suspended.  The callbacks of the position request
    close over the user agent and the hour [fetchAd] read. *)
Inductive Await :=
| AwaitPosition (userAgent : string) (localHour : Z)
| AwaitFetch
| AwaitText (status : Z)
| AwaitJson.

Inductive Effect :=
| AdFetch (payload : AdApiPayload)      (* POST /api/v1/ad-recommend/ *)
| PositionRequest (options : PositionOptions)
| LogError (err : Thrown)               (* console.error(err) *)
| LogWarn (label : string) (err : PositionError).

(** The component instance in its browser: [navigator] is [None] where
    there is no [navigator] object, [clock] is the local hour. *)
Record Hook := mkHook {
  navigator : option Navigator;
  clock : Z;
  mounted : bool;
  state : HookState;
  pending : gmap nat Await;
  next_id : nat;
  out : list Effect
}.

Definition set_state (f : HookState -> HookState) (h : Hook) : Hook :=
  mkHook (navigator h) (clock h) (mounted h) (f (state h)) (pending h) (next_id h) (out h).

Definition setAd (v : JSVal) : Hook -> Hook :=
  set_state (fun st => mkHookState v (loading st) (error st) (locationDenied st)).

Definition setLoading (b : bool) : Hook -> Hook :=
  set_state (fun st => mkHookState (ad st) b (error st) (locationDenied st)).

Definition setError (e : option string) : Hook -> Hook :=
  set_state (fun st => mkHookState (ad st) (loading st) e (locationDenied st)).

Definition setLocationDenied (b : bool) : Hook -> Hook :=
  set_state (fun st => mkHookState (ad st) (loading st) (error st) b).

Definition emit (e : Effect) (h : Hook) : Hook :=
  mkHook (navigator h) (clock h) (mounted h) (state h) (pending h) (next_id h)
         (out h ++ [e]).

Definition register (st : Await) (h : Hook) : Hook :=
  mkHook (navigator h) (clock h) (mounted h) (state h)
         (<[next_id h := st]> (pending h)) (S (next_id h)) (out h).

Definition set_pending (m : gmap nat Await) (h : Hook) : Hook :=
  mkHook (navigator h) (clock h) (mounted h) (state h) m (next_id h) (out h).

(** [getUserAgent]. *)
Definition getUserAgent (h : Hook) : string :=
  match navigator h with
  | Some nav => userAgent nav
  | None => "unknown"
  end.

(** How a segment of an [async] function ends. *)
Inductive Outcome :=
| Returned (v : JSVal)
| Threw (err : Thrown)
| Awaiting.

(** [postAdRecommend], up to [await fetch(...)]. *)
Definition postAdRecommend (payload : AdApiPayload) (h : Hook) : Hook * Outcome :=
  (register AwaitFetch (emit (AdFetch payload) h), Awaiting).

(** [postAdRecommend], from the settled fetch on. *)
Definition postAdRecommend_response (r : Thrown + Response) (h : Hook) : Hook * Outcome :=
  match r with
  | inl err => (h, Threw err)
  | inr response =>
      if status response =? 204 then (h, Returned JNull)
      else if negb (ok response) then (register (AwaitText (status response)) h, Awaiting)
      else (register AwaitJson h, Awaiting)
  end.

(** [postAdRecommend], from [await response.text()] on. *)
Definition postAdRecommend_text (status : Z) (r : Thrown + string) (h : Hook)
  : Hook * Outcome :=
  match r with
  | inl err => (h, Threw err)
  | inr text =>
      (h, Threw (ThrownError (Error ("Ad recommend request failed: " +:+ pretty status
                                     +:+ " " +:+ text))))
  end.

(** [postAdRecommend], from [await response.json()] on. *)
Definition postAdRecommend_json (r : Thrown + JSVal) (h : Hook) : Hook * Outcome :=
  match r with
  | inl err => (h, Threw err)
  | inr data => (h, Returned data)
  end.

(** [sendRequest] around a segment of [postAdRecommend]: its [try],
    [catch] and [finally]. *)
Definition sendRequest_around (segment : Hook -> Hook * Outcome) (h : Hook) : Hook :=
  match segment h with
  | (h', Returned adResponse) => setLoading false (setAd adResponse h')
  | (h', Threw err) =>
      setLoading false (setError (Some (message_of err)) (emit (LogError err) h'))
  | (h', Awaiting) => h'
  end.

Definition sendRequest (userAgent : string) (localHour : Z)
    (latitude longitude : option Q) : Hook -> Hook :=
  sendRequest_around
    (postAdRecommend (mkAdApiPayload latitude longitude userAgent localHour)).

Definition has_geolocation (h : Hook) : bool :=
  match navigator h with
  | Some nav => geolocation nav
  | None => false
  end.

(** [fetchAd], which is also [refresh]. *)
Definition fetchAd (h : Hook) : Hook :=
  let h := setError None (setLoading true h) in
  let userAgent := getUserAgent h in
  let localHour := clock h in
  if negb (has_geolocation h) then sendRequest userAgent localHour None None h
  else register (AwaitPosition userAgent localHour) (emit (PositionRequest FAST) h).

(** The success callback of [fetchAd]'s position request. *)
Definition fetchAd_success (userAgent : string) (localHour : Z) (pos : Coords)
    (h : Hook) : Hook :=
  sendRequest userAgent localHour (Some (coords_latitude pos)) (Some (coords_longitude pos))
              (setLocationDenied false h).

(** [GeolocationPositionError.PERMISSION_DENIED]. *)
Definition PERMISSION_DENIED : Z := 1.

(** The error callback of [fetchAd]'s position request. *)
Definition fetchAd_error (userAgent : string) (localHour : Z) (geoError : PositionError)
    (h : Hook) : Hook :=
  let h := if code geoError =? PERMISSION_DENIED then setLocationDenied true h
           else emit (LogWarn "Geolocation error:" geoError) h in
  sendRequest userAgent localHour None None h.

(** What [AdBanner] renders. *)
Inductive View :=
| LoadingView
| ErrorView (message : string)          (* with the retry button *)
| EmptyView
| CardView (notice : bool) (target_url image_url title : JSVal).

Definition AdBanner (st : HookState) : View :=
  if loading st then LoadingView
  else match error st with
       | Some (String c s) => ErrorView (String c s)
       | _ =>
           if negb (truthy (ad st)) then EmptyView
           else CardView (locationDenied st) (field (ad st) "target_url")
                         (field (ad st) "image_url") (field (ad st) "title")
       end.

(** What can happen to the component. *)
Inductive Event :=
| Mount                                   (* the effect of [useEffect] runs *)
| Refresh                                 (* a caller of the hook calls [refresh] *)
| ClickRetry                              (* a click on the retry button *)
| Hour (h : Z)                            (* the local hour changes *)
| GeoSuccess (a : nat) (pos : Coords)
| GeoError (a : nat) (err : PositionError)
| FetchResolve (a : nat) (response : Response)
| FetchReject (a : nat) (reason : Thrown)
| TextResolve (a : nat) (text : string)
| TextReject (a : nat) (reason : Thrown)
| JsonResolve (a : nat) (data : JSVal)
| JsonReject (a : nat) (reason : Thrown).

(** The code that runs when the operation a call waits for at [st]
    settles as [e] says. *)
Definition on_settled (st : Await) (e : Event) : option (Hook -> Hook) :=
  match st, e with
  | AwaitPosition ua hour, GeoSuccess _ pos => Some (fetchAd_success ua hour pos)
  | AwaitPosition ua hour, GeoError _ err => Some (fetchAd_error ua hour err)
  | AwaitFetch, FetchResolve _ response =>
      Some (sendRequest_around (postAdRecommend_response (inr response)))
  | AwaitFetch, FetchReject _ reason =>
      Some (sendRequest_around (postAdRecommend_response (inl reason)))
  | AwaitText status, TextResolve _ text =>
      Some (sendRequest_around (postAdRecommend_text status (inr text)))
  | AwaitText status, TextReject _ reason =>
      Some (sendRequest_around (postAdRecommend_text status (inl reason)))
  | AwaitJson, JsonResolve _ data =>
      Some (sendRequest_around (postAdRecommend_json (inr data)))
  | AwaitJson, JsonReject _ reason =>
      Some (sendRequest_around (postAdRecommend_json (inl reason)))
  | _, _ => None
  end.

Definition settle (a : nat) (e : Event) (h : Hook) : Hook :=
  match pending h !! a with
  | Some st =>
      match on_settled st e with
      | Some k => k (set_pending (delete a (pending h)) h)
      | None => h
      end
  | None => h
  end.

(** The component's reaction to an event.  The effect runs once; the
    retry button exists only in the error view. *)
Definition step (h : Hook) (e : Event) : Hook :=
  match e with
  | Mount =>
      if mounted h then h
      else fetchAd (mkHook (navigator h) (clock h) true (state h) (pending h)
                           (next_id h) (out h))
  | Refresh => fetchAd h
  | ClickRetry =>
      match AdBanner (state h) with
      | ErrorView _ => fetchAd h
      | _ => h
      end
  | Hour t => mkHook (navigator h) t (mounted h) (state h) (pending h) (next_id h) (out h)
  | GeoSuccess a _ | GeoError a _ | FetchResolve a _ | FetchReject a _
  | TextResolve a _ | TextReject a _ | JsonResolve a _ | JsonReject a _ => settle a e h
  end.

Definition run (h : Hook) (es : list Event) : Hook := fold_left step es h.

(** The component at its first render: [useState]'s initial values. *)
Definition initial (nav : option Navigator) (hour : Z) : Hook :=
  mkHook nav hour false (mkHookState JNull true None false) ∅ 0 [].

(** The sessions of the component on its own: nobody but the retry
    button calls [refresh]. *)
Inductive reachable : Hook -> Prop :=
| reach_initial nav hour : reachable (initial nav hour)
| reach_step h e : reachable h -> e <> Refresh -> reachable (step h e).

(** The sessions of the hook with any caller. *)
Inductive reachable_any : Hook -> Prop :=
| reach_any_initial nav hour : reachable_any (initial nav hour)
| reach_any_step h e : reachable_any h -> reachable_any (step h e).

(** The operation an event reports on. *)
Definition settles (e : Event) : option nat :=
  match e with
  | GeoSuccess a _ | GeoError a _ | FetchResolve a _ | FetchReject a _
  | TextResolve a _ | TextReject a _ | JsonResolve a _ | JsonReject a _ => Some a
  | _ => None
  end.

(** The ad requests sent so far. *)
Definition ad_fetches (h : Hook) : list AdApiPayload :=
  omap (fun e => match e with AdFetch payload => Some payload | _ => None end) (out h).

(** A reply of the server to the ad request, as far as [postAdRecommend]
    reads it: the fetch fails; or it resolves, and the body is not read
    (status 204), read as text (another status outside 2xx) or parsed
    (a 2xx status). *)
Inductive Reply :=
| NoResponse (reason : Thrown)
| Responded (response : Response) (text : Thrown + string) (json : Thrown + JSVal).

(** The events by which the browser reports [reply] for the fetch [a] of
    the hook [h]; the body is the next operation. *)
Definition reply_events (a : nat) (h : Hook) (reply : Reply) : list Event :=
  match reply with
  | NoResponse reason => [FetchReject a reason]
  | Responded response text json =>
      FetchResolve a response
      :: (if status response =? 204 then []
          else if negb (ok response)
               then [match text with
                     | inl reason => TextReject (next_id h) reason
                     | inr t => TextResolve (next_id h) t
                     end]
               else [match json with
                     | inl reason => JsonReject (next_id h) reason
                     | inr data => JsonResolve (next_id h) data
                     end])
  end.

(** What the hook makes of a reply: the ad, or why there is none. *)
Definition verdict (reply : Reply) : Thrown + JSVal :=
  match reply with
  | NoResponse reason => inl reason
  | Responded response text json =>
      if status response =? 204 then inr JNull
      else if negb (ok response)
           then match text with
                | inl reason => inl reason
                | inr t => inl (ThrownError
                                  (Error ("Ad recommend request failed: "
                                          +:+ pretty (status response) +:+ " " +:+ t)))
                end
           else json
  end.

(** A browser with geolocation, at one o'clock. *)
Definition sample : Hook :=
  initial (Some (mkNavigator true true "Mozilla/5.0")) 13.

(** The sample once the effect has run and the position was denied: the
    ad request is in flight. *)
Definition sample_fetching : Hook :=
  run sample [Mount; GeoError 0 (mkPositionError 1 "User denied Geolocation")].

(** At most one call is in flight, the banner shows the loading view
    exactly while one is, and no error is set meanwhile. *)
Definition single_flight (h : Hook) : Prop :=
  (forall a, is_Some (pending h !! a) -> (a < next_id h)%nat)
  /\ (loading (state h) = true -> error (state h) = None)
  /\ if mounted h
     then (loading (state h) = true /\ exists a st, pending h = {[ a := st ]})
          \/ (loading (state h) = false /\ pending h = ∅)
     else loading (state h) = true /\ pending h = ∅ /\ out h = [].

(** Handles are handed out in increasing order. *)
Definition fresh_ids (h : Hook) : Prop :=
  forall a, is_Some (pending h !! a) -> (a < next_id h)%nat.

(** The hook's state when a request has ended with [verdict]. *)
Definition settled_state (st : HookState) (verdict : Thrown + JSVal) : HookState :=
  match verdict with
  | inr adResponse => mkHookState adResponse false (error st) (locationDenied st)
  | inl err => mkHookState (ad st) false (Some (message_of err)) (locationDenied st)
  end.

(** A session of the hook in which a caller refreshes while the first
    request is in flight, and the first request then fails. *)
Definition sample_overlap : Hook :=
  run (initial None 13)
      [Mount; Refresh; FetchReject 0 (ThrownError (TypeError "Failed to fetch"))].

(** The sample session completed: the server had no ad. *)
Definition sample_done : Hook :=
  run sample_fetching [FetchResolve 1 (mkResponse 204 "No Content")].

End Banner.
(** ** Reasoning about computations *)

Section Keeps.
Context (I : Page -> Prop).

Lemma keeps_ret {A} (a : A) : keeps I (mret a).
Proof. intros p Hp. exact Hp. Qed.

Lemma keeps_gets {A} (f : Page -> A) : keeps I (gets f).
Proof. intros p Hp. exact Hp. Qed.

Lemma keeps_throw {A} (e : Exn) : keeps I (@throw A e).
Proof. intros p Hp. exact Hp. Qed.

Lemma keeps_lift {A} (r : Exn + A) : keeps I (lift r).
Proof. intros p Hp. exact Hp. Qed.

Lemma keeps_modify (f : Page -> Page) :
  (forall p, I p -> I (f p)) -> keeps I (modify f).
Proof. intros Hf p Hp. exact (Hf p Hp). Qed.

Lemma keeps_bind {A B} (m : M A) (f : A -> M B) :
  keeps I m -> (forall a, keeps I (f a)) -> keeps I (m ≫= f).
Proof.
  intros Hm Hf p Hp. specialize (Hm p Hp). unfold exec, mbind, M_bind in *.
  destruct (m p) as [p' [e|a]]; [exact Hm | exact (Hf a p' Hm)].
Qed.

Lemma keeps_try_catch {A} (body : M A) (catch : Exn -> M A) :
  keeps I body -> (forall e, keeps I (catch e)) -> keeps I (try_catch body catch).
Proof.
  intros Hb Hc p Hp. specialize (Hb p Hp). unfold exec, try_catch in *.
  destruct (body p) as [p' [e|c]]; [exact (Hc e p' Hb) | exact Hb].
Qed.

Lemma keeps_try_catch_finally (body : M Ctl) (catch : Exn -> M Ctl) (finally : M unit) :
  keeps I body -> (forall e, keeps I (catch e)) -> keeps I finally ->
  keeps I (try_catch_finally body catch finally).
Proof.
  intros Hb Hc Hf p Hp. specialize (Hb p Hp).
  unfold exec, try_catch_finally, mbind, M_bind, mret, M_ret in *.
  destruct (body p) as [p1 [e|[|]]]; cbn in *.
  - specialize (Hc e p1 Hb). unfold exec in Hc.
    destruct (catch e p1) as [p2 [e'|c]]; cbn in *.
    + specialize (Hf p2 Hc). unfold exec in Hf.
      destruct (finally p2) as [p3 [e''|u]]; exact Hf.
    + specialize (Hf p2 Hc). unfold exec in Hf.
      destruct (finally p2) as [p3 [e''|u]]; exact Hf.
  - specialize (Hf p1 Hb). unfold exec in Hf.
    destruct (finally p1) as [p3 [e''|u]]; exact Hf.
  - exact Hb.
Qed.

Lemma keeps_void (m : M Ctl) : keeps I m -> keeps I (void m).
Proof. intros Hm p Hp. exact (Hm p Hp). Qed.

Lemma keeps_new_Promise {A} (executor : M (option A)) :
  keeps I executor -> keeps I (new_Promise executor).
Proof.
  intros Hm p Hp. specialize (Hm p Hp). unfold exec, new_Promise in *.
  destruct (executor p) as [p' [e|[v|]]]; exact Hm.
Qed.
End Keeps.

(** Symbolic execution of the script on a page given by its fields. *)
Ltac munfold :=
  cbv beta iota zeta delta
    [exec void mbind M_bind mret M_ret gets modify throw lift try_catch
     try_catch_finally new_Promise emit console_error register suspend enqueue
     setInterval addEventListener update set_textContent set_display
     set_disabled set_src set_alt set_href getElement setStatus setAcceptStatus
     requestAd_catch requestAd requestAd_response requestAd_json
     tryGetGeo tryGetGeo_success tryGetGeo_error await_tryGetGeo
     postVisitPing_send postVisitPing onLeave startVisitPingLoop
     PortalJs.acceptPortal_catch PortalJs.acceptPortal_finally
     PortalJs.acceptPortal_fetch PortalJs.acceptPortal PortalJs.acceptPortal_geo
     PortalJs.acceptPortal_response PortalJs.acceptPortal_json
     Part000.acceptPortal_catch Part000.acceptPortal_finally
     Part000.acceptPortal Part000.acceptPortal_response Part000.acceptPortal_json
     acceptPortal acceptPortal_response acceptPortal_json
     initPortal_success initPortal_error initPortal onDOMContentLoaded
     resume on_settled settle run_callback
     fst snd
     set_loaded set_visibilityState set_dom set_lastGeo set_visitPingTimer
     set_timers set_listeners set_pending set_next_id set_microtasks set_out
     navigator hours loaded visibilityState dom lastGeo visitPingTimer timers
     next_timer listeners pending next_id microtasks out].

Ltac dom_lookup :=
  repeat first [ rewrite lookup_alter_eq | rewrite lookup_alter_ne by done ];
  repeat match goal with
         | H : ?d !! ?k = Some _ |- context [?d !! ?k] => rewrite H
         end;
  cbn [fmap option_fmap option_map].

Ltac mrun := repeat progress (munfold; dom_lookup).

(** Name the fields of a page and the elements [page_ok] promises. *)
Ltac open_page p :=
  let nav := fresh "nav" in let hrs := fresh "hrs" in let ld := fresh "ld" in
  let vs := fresh "vs" in let dm := fresh "dm" in let lg := fresh "lg" in
  let vt := fresh "vt" in let ts := fresh "ts" in let nt := fresh "nt" in
  let ls := fresh "ls" in let pd := fresh "pd" in let ni := fresh "ni" in
  let mq := fresh "mq" in let o := fresh "o" in
  destruct p as [nav hrs ld vs dm lg vt ts nt ls pd ni mq o]; cbn in *.

Ltac open_page_ok H :=
  unfold page_ok, dom_ok, required_ids in H; rewrite !Forall_cons in H; cbn in H;
  destruct H as ([? ?] & [? ?] & [? ?] & [? ?] & [? ?] & [? ?] & [? ?] & [? ?] & [? ?] & _).

Lemma page_ok_sample : page_ok sample_page.
Proof.
  unfold page_ok, dom_ok, required_ids.
  repeat (apply Forall_cons; split; [exists blank; vm_compute; reflexivity|]).
  constructor.
Qed.

Lemma fresh_ids_sample : fresh_ids sample_page.
Proof. intros a [st Hst]. cbn in Hst. by rewrite lookup_empty in Hst. Qed.

Set Warnings "-clear-no-such-hyp".

Lemma fresh_ids_None (p : Page) (a : nat) :
  fresh_ids p -> (next_id p <= a)%nat -> pending p !! a = None.
Proof.
  intros Hf Ha. destruct (pending p !! a) eqn:E; [|done].
  specialize (Hf a (mk_is_Some _ _ E)). lia.
Qed.


Lemma wp_exec {A} (P : Page -> Prop) (m : M A) (p : Page) :
  wp m (fun p' _ => P p') p -> P (exec m p).
Proof. exact (fun H => H). Qed.

Lemma wp_ret {A} (a : A) Q p : Q p (inr a) -> wp (mret a) Q p.
Proof. exact (fun H => H). Qed.

Lemma wp_gets {A} (f : Page -> A) Q p : Q p (inr (f p)) -> wp (gets f) Q p.
Proof. exact (fun H => H). Qed.

Lemma wp_modify (f : Page -> Page) Q p : Q (f p) (inr tt) -> wp (modify f) Q p.
Proof. exact (fun H => H). Qed.

Lemma wp_throw {A} (e : Exn) (Q : Page -> Exn + A -> Prop) p :
  Q p (inl e) -> wp (throw e) Q p.
Proof. exact (fun H => H). Qed.

Lemma wp_lift {A} (r : Exn + A) Q p : Q p r -> wp (lift r) Q p.
Proof. exact (fun H => H). Qed.

Lemma wp_bind {A B} (m : M A) (f : A -> M B) Q p :
  wp m (fun p' r => match r with
                    | inl e => Q p' (inl e)
                    | inr a => wp (f a) Q p'
                    end) p ->
  wp (m ≫= f) Q p.
Proof.
  unfold wp, mbind, M_bind. destruct (m p) as [p' [e|a]]; exact (fun H => H).
Qed.

Lemma wp_try_catch {A} (body : M A) (catch : Exn -> M A) Q p :
  wp body (fun p' r => match r with
                       | inl e => wp (catch e) Q p'
                       | inr c => Q p' (inr c)
                       end) p ->
  wp (try_catch body catch) Q p.
Proof.
  unfold wp, try_catch. destruct (body p) as [p' [e|c]]; exact (fun H => H).
Qed.

Lemma wp_try_catch_finally (body : M Ctl) (catch : Exn -> M Ctl) (finally : M unit) Q p :
  wp body (fun p1 r =>
    match r with
    | inr Suspended => Q p1 (inr Suspended)
    | inr Done => wp finally (fun p3 u => match u with
                                          | inl e => Q p3 (inl e)
                                          | inr _ => Q p3 (inr Done)
                                          end) p1
    | inl e => wp (catch e) (fun p2 r2 =>
        wp finally (fun p3 u => match u, r2 with
                                | inl e'', _ => Q p3 (inl e'')
                                | inr _, inl e' => Q p3 (inl e')
                                | inr _, inr c => Q p3 (inr c)
                                end) p2) p1
    end) p ->
  wp (try_catch_finally body catch finally) Q p.
Proof.
  unfold wp, try_catch_finally, mbind, M_bind, mret, M_ret.
  destruct (body p) as [p1 [e|[|]]]; cbn.
  - destruct (catch e p1) as [p2 [e'|c]]; cbn;
      destruct (finally p2) as [p3 [e''|u]]; exact (fun H => H).
  - destruct (finally p1) as [p3 [e''|u]]; exact (fun H => H).
  - exact (fun H => H).
Qed.

Lemma wp_void (m : M Ctl) Q p : wp m (fun p' _ => Q p' (inr tt)) p -> wp (void m) Q p.
Proof. exact (fun H => H). Qed.

Lemma wp_new_Promise {A} (executor : M (option A)) Q p :
  wp executor (fun p' r => match r with
                           | inl e => Q p' (inr (Rejected e))
                           | inr (Some v) => Q p' (inr (Fulfilled v))
                           | inr None => Q p' (inr Pending)
                           end) p ->
  wp (new_Promise executor) Q p.
Proof.
  unfold wp, new_Promise. destruct (executor p) as [p' [e|[v|]]]; exact (fun H => H).
Qed.

Lemma get_prop_truthy (v : JSVal) (k : string) :
  truthy v = true -> get_prop v k = inr (field v k).
Proof. by destruct v. Qed.

Lemma get_prop_defined (v : JSVal) (k : string) :
  nullish v = false -> get_prop v k = inr (field v k).
Proof. by destruct v. Qed.

Lemma get_prop_nullish (v : JSVal) (k : string) :
  nullish v = true ->
  get_prop v k = inl (TypeError ("Cannot read properties of "
                                 +:+ match v with JNull => "null" | _ => "undefined" end
                                 +:+ " (reading '" +:+ k +:+ "')")).
Proof. by destruct v. Qed.

(** Reading a property: of a value known by its shape, or by cases on
    whether it is [null] or [undefined]. *)
Ltac read_prop v k :=
  first
    [ match goal with
      | H : truthy v = true |- _ => rewrite (get_prop_truthy v k H)
      | H : nullish v = false |- _ => rewrite (get_prop_defined v k H)
      | H : nullish v = true |- _ => rewrite (get_prop_nullish v k H)
      end
    | is_var v;
      let Hn := fresh "Hn" in
      destruct (nullish v) eqn:Hn;
      [ rewrite (get_prop_nullish v k Hn) | rewrite (get_prop_defined v k Hn) ]
    | cbv beta iota delta [get_prop] ].

Ltac norm_page :=
  cbv beta iota delta
    [set_loaded set_visibilityState set_dom set_lastGeo set_visitPingTimer
     set_timers set_listeners set_pending set_next_id set_microtasks set_out
     navigator hours loaded visibilityState dom lastGeo visitPingTimer timers
     next_timer listeners pending next_id microtasks out cont settled].

Ltac script_unfold m :=
  let h := lazymatch m with
           | ?h _ _ _ _ _ => h | ?h _ _ _ _ => h | ?h _ _ _ => h
           | ?h _ _ => h | ?h _ => h | ?h => h
           end in
  unfold h.

Ltac str_neq := solve [ discriminate | intros ?; discriminate ].

Ltac look :=
  repeat first
    [ rewrite lookup_alter_eq
    | rewrite lookup_alter_ne by str_neq
    | rewrite lookup_insert_eq
    | rewrite lookup_delete_eq
    | rewrite lookup_empty
    | rewrite lookup_insert_ne by lia
    | rewrite lookup_delete_ne by lia ];
  repeat match goal with
         | H : ?d !! ?k = _ |- context [?d !! ?k] => rewrite H
         end;
  cbn [fmap option_fmap option_map].

(** Decide a stuck case distinction: by a hypothesis that settles it, or
    by cases. *)
Ltac decide_on x :=
  lazymatch x with
  | match ?y with _ => _ end => decide_on y
  | if ?y then _ else _ => decide_on y
  | negb ?y => decide_on y
  | andb ?y _ => decide_on y
  | _ =>
      first
        [ match goal with H : x = _ |- _ => rewrite H end
        | is_var x; destruct x
        | destruct x eqn:?; try discriminate ];
      cbv beta iota; cbn [negb andb orb]
  end.

Ltac wp_step :=
  lazymatch goal with
  | |- wp (mbind _ _) _ _ => apply wp_bind
  | |- wp (mret _) _ _ => apply wp_ret; cbv beta iota
  | |- wp (gets _) _ _ => apply wp_gets; norm_page
  | |- wp (modify _) _ _ => apply wp_modify; norm_page
  | |- wp (throw _) _ _ => apply wp_throw; cbv beta iota
  | |- wp (lift ?r) _ _ =>
      apply wp_lift;
      first [ match goal with H : r = _ |- _ => rewrite H end
            | lazymatch r with get_prop ?v ?k => read_prop v k end
            | idtac ];
      cbv beta iota
  | |- wp (try_catch _ _) _ _ => apply wp_try_catch
  | |- wp (try_catch_finally _ _ _) _ _ => apply wp_try_catch_finally
  | |- wp (void _) _ _ => apply wp_void
  | |- wp (new_Promise _) _ _ => apply wp_new_Promise
  | |- wp (match ?x !! ?k with _ => _ end) _ _ =>
      first [ progress look | destruct (x !! k) eqn:? ]; cbv beta iota
  | |- wp (match ?x with _ => _ end) _ _ => decide_on x
  | |- wp (if ?x then _ else _) _ _ =>
      first [ progress cbn [andb orb negb] | decide_on x ]
  | |- wp ?m _ _ => script_unfold m
  | |- match ?x with _ => _ end =>
      lazymatch goal with |- context [wp _ _ _] => decide_on x end
  | |- if ?x then _ else _ =>
      lazymatch goal with |- context [wp _ _ _] => decide_on x end
  end.

Ltac wp_run := repeat wp_step.

Ltac is_page p :=
  lazymatch p with mkPage _ _ _ _ _ _ _ _ _ _ _ _ _ _ => idtac end.

(** One move of the event loop on a page given by its fields. *)
Ltac loop_step :=
  match goal with
  | |- context [exec ?m ?p] =>
      is_page p; pattern (exec m p); apply wp_exec; wp_run; cbv beta
  | |- context [run ?s ?p ?es] =>
      is_page p; unfold run; cbn [fold_left]
  | |- context [set_loaded ?b ?p] =>
      is_page p;
      let t := eval cbv beta iota delta [set_loaded navigator hours
        loaded visibilityState dom lastGeo visitPingTimer timers next_timer
        listeners pending next_id microtasks out] in (set_loaded b p) in
      change (set_loaded b p) with t
  | |- context [set_visibilityState ?v ?p] =>
      is_page p;
      let t := eval cbv beta iota delta [set_visibilityState navigator hours
        loaded visibilityState dom lastGeo visitPingTimer timers next_timer
        listeners pending next_id microtasks out] in (set_visibilityState v p) in
      change (set_visibilityState v p) with t
  | |- context [step ?s ?p ?e] =>
      is_page p; change (step s p e) with (drain s (react s e p))
  | |- context [react ?s ?e ?p] =>
      is_page p;
      let t := eval cbv beta iota delta [react loaded dom] in (react s e p) in
      change (react s e p) with t
  | |- context [settle ?s ?a ?e ?p] =>
      is_page p;
      let t := eval cbv beta iota delta [settle pending set_pending navigator hours
        loaded visibilityState dom lastGeo visitPingTimer timers next_timer
        listeners next_id microtasks out] in (settle s a e p) in
      change (settle s a e p) with t; look; cbv beta iota delta [on_settled]
  | |- context [drain ?s ?p] =>
      is_page p;
      let q := eval cbv beta iota delta [microtasks] in (microtasks p) in
      let q := eval cbn [app] in q in
      let t := eval cbv beta iota delta [fold_left set_microtasks navigator
        hours loaded visibilityState dom lastGeo visitPingTimer timers next_timer
        listeners pending next_id microtasks out cont settled] in
        (fold_left (fun pg jb => exec (resume (cont jb) (settled jb)) pg)
                   q (set_microtasks [] p)) in
      change (drain s p) with t
  end.

Ltac loop_run := repeat loop_step.


(** ** Counting *)

Lemma count_if_app {A} (f : A -> bool) (l l' : list A) :
  count_if f (l ++ l') = (count_if f l + count_if f l')%nat.
Proof. induction l as [|x l IH]; cbn; [done | rewrite IH; lia]. Qed.

Lemma count_ops_empty (P : Await -> bool) : count_ops P ∅ = O.
Proof. unfold count_ops. by rewrite map_filter_empty, map_size_empty. Qed.

Lemma count_ops_insert (P : Await -> bool) (m : gmap nat Await) (a : nat) (st : Await) :
  m !! a = None ->
  count_ops P (<[a := st]> m) = ((if P st then 1 else 0) + count_ops P m)%nat.
Proof.
  intros Hm. unfold count_ops. destruct (P st) eqn:E.
  - rewrite map_filter_insert_True by done.
    rewrite map_size_insert_None; [done|]. by rewrite map_lookup_filter_None; left.
  - rewrite map_filter_insert_not'; [done | cbn; congruence |].
    intros y Hy. congruence.
Qed.

Lemma count_ops_delete (P : Await -> bool) (m : gmap nat Await) (a : nat) (st : Await) :
  m !! a = Some st ->
  count_ops P m = ((if P st then 1 else 0) + count_ops P (delete a m))%nat.
Proof.
  intros Hm. rewrite <- (insert_delete_id m a st Hm) at 1.
  apply count_ops_insert, lookup_delete_eq.
Qed.

Lemma fresh_insert (m : gmap nat Await) (n : nat) (st : Await) :
  (forall a, is_Some (m !! a) -> (a < n)%nat) ->
  forall a, is_Some (<[n := st]> m !! a) -> (a < S n)%nat.
Proof.
  intros H a Ha. apply lookup_insert_is_Some in Ha as [->|[_ Ha]]; [lia|].
  specialize (H a Ha). lia.
Qed.

Lemma fresh_delete (m : gmap nat Await) (n b : nat) :
  (forall a, is_Some (m !! a) -> (a < n)%nat) ->
  forall a, is_Some (delete b m !! a) -> (a < n)%nat.
Proof.
  intros H a Ha. apply H. rewrite lookup_delete_is_Some in Ha. tauto.
Qed.

Lemma Step_ok_refl p : Inv p -> Step_ok p p.
Proof.
  intros HI. split; [exact HI|]. split; [congruence|]. split; [|congruence].
  intros H1 H2. rewrite H1 in H2. discriminate.
Qed.

Lemma dom_ok_alter f i d : dom_ok (alter f i d) <-> dom_ok d.
Proof.
  unfold dom_ok. apply Forall_proper; [|done]. intros k.
  rewrite lookup_alter_is_Some. done.
Qed.

Lemma dom_ok_absent d k : d !! k = None -> k ∈ required_ids -> ~ dom_ok d.
Proof.
  intros Hk Hin Hok. unfold dom_ok in Hok. rewrite Forall_forall in Hok.
  specialize (Hok k Hin). rewrite Hk in Hok. by destruct Hok.
Qed.

Ltac projs_in H :=
  cbn [navigator hours loaded visibilityState dom lastGeo visitPingTimer timers
       next_timer listeners pending next_id microtasks out] in H.

Ltac inv_unfold_in H :=
  unfold Inv, heartbeat_inv, click_inv, mutex_inv, ad_inv, ops, ad_requests,
    is_disabled, fresh_ids, lifecycle_listeners, element_listeners, page_ok in H;
  projs_in H.

Ltac count_singletons :=
  repeat match goal with
         | |- context [count_if ?f [?e]] =>
             let v := eval vm_compute in (count_if f [e]) in
             change (count_if f [e]) with v
         | |- context [count_if ?f []] => change (count_if f []) with O
         | |- context [@List.filter ?A ?f [?e]] =>
             let v := eval vm_compute in (@List.filter A f [e]) in
             change (@List.filter A f [e]) with v
         | |- context [@List.filter ?A ?f []] =>
             change (@List.filter A f []) with (@nil A)
         end.

Ltac count_pending :=
  repeat first
    [ rewrite count_ops_empty
    | rewrite delete_insert_id by (look; first [assumption | reflexivity])
    | rewrite count_ops_insert by (look; first [assumption | reflexivity]) ];
  cbn [is_accept_op is_init_op waits_for_fix VisitEvent_eqb].

Ltac inv_goal :=
  unfold Step_ok, button_step, Inv, heartbeat_inv, click_inv, mutex_inv, ad_inv, ops,
    ad_requests, accept_requests, is_disabled, fresh_ids, lifecycle_listeners,
    element_listeners, page_ok;
  cbn [navigator hours loaded visibilityState dom lastGeo visitPingTimer timers
       next_timer listeners pending next_id microtasks out];
  rewrite ?List.filter_app, ?count_if_app, ?dom_ok_alter;
  count_singletons; count_pending; look; cbn [disabled];
  rewrite ?app_nil_r, ?app_nil_l.

Ltac fresh_goal :=
  repeat first [ apply fresh_insert | apply fresh_delete ]; assumption.

Ltac absent_contra :=
  match goal with
  | Hok : dom_ok ?d, Hk : ?d !! ?k = None |- _ =>
      exfalso; apply (dom_ok_absent d k Hk); [vm_compute; set_solver | exact Hok]
  end.

Ltac leaf :=
  intros;
  first
    [ assumption | reflexivity | lia | fresh_goal | tauto
    | match goal with H : _ -> ?G |- ?G => apply H; lia end
    | match goal with H : _ -> _ -> ?G |- ?G => apply H; [assumption | reflexivity] end
    | match goal with
      | H : dom_ok ?d -> _ -> ?x = _ |- _ => specialize (H ltac:(assumption) eq_refl); lia
      end
    | absent_contra
    | congruence
    | match goal with
      | |- context [?d !! "accept-btn"] => destruct (d !! "accept-btn"); reflexivity
      | H : context [?d !! "accept-btn"] |- _ =>
          repeat match goal with
                 | H' : context [d !! "accept-btn"] |- _ => revert H'
                 end;
          destruct (d !! "accept-btn"); cbn [fmap option_fmap option_map disabled];
          intros; first [ reflexivity | congruence | lia ]
      end
    | auto ].

Ltac inv_solve :=
  repeat match goal with H : _ /\ _ |- _ => destruct H end;
  subst;
  inv_goal;
  repeat match goal with
         | H : List.filter ?f ?l = _ |- context [List.filter ?f ?l] => rewrite H
         end;
  repeat split; first [ fresh_goal | leaf ].

Lemma listening_element id ty p :
  listening (TElement id) ty p =
  map listener (List.filter (fun l => Target_eqb (target l) (TElement id) && String.eqb (type l) ty)
                            (element_listeners p)).
Proof.
  unfold listening, element_listeners. f_equal.
  induction (listeners p) as [|l ls IH]; [done|]. cbn.
  destruct l as [[| |i] t c]; cbn; [exact IH | exact IH |].
  destruct (String.eqb i id && String.eqb t ty); cbn; by rewrite IH.
Qed.

Lemma listening_lifecycle t ty p :
  (forall id, t <> TElement id) ->
  listening t ty p =
  map listener (List.filter (fun l => Target_eqb (target l) t && String.eqb (type l) ty)
                            (lifecycle_listeners p)).
Proof.
  intros Ht. unfold listening, lifecycle_listeners. f_equal.
  induction (listeners p) as [|l ls IH]; [done|]. cbn.
  destruct l as [[| |i] ty' c]; cbn.
  - destruct (Target_eqb TWindow t && String.eqb ty' ty); cbn; by rewrite IH.
  - destruct (Target_eqb TDocument t && String.eqb ty' ty); cbn; by rewrite IH.
  - destruct t; cbn; try exact IH. by destruct (Ht id).
Qed.

Ltac loop_more :=
  match goal with
  | |- context [invoke ?s ?p ?cb] =>
      is_page p; change (invoke s p cb) with (drain s (exec (run_callback s cb) p))
  | |- context [fold_left (invoke ?s) [] ?p] =>
      change (fold_left (invoke s) [] p) with p
  | |- context [fold_left (invoke ?s) (?cb :: ?l) ?p] =>
      change (fold_left (invoke s) (cb :: l) p) with (fold_left (invoke s) l (invoke s p cb))
  end.

Ltac go := repeat first [loop_step | loop_more].

Ltac settle_cases pd a Hfresh :=
  let st := fresh "st" in let Ea := fresh "Ea" in
  destruct (pd !! a) as [st|] eqn:Ea;
  [ pose proof (Hfresh a (mk_is_Some _ _ Ea));
    pose proof (count_ops_delete is_accept_op pd a st Ea);
    pose proof (count_ops_delete is_init_op pd a st Ea);
    destruct st as [|[[]|]| | | | |];
    cbn [is_accept_op is_init_op] in *
  | ].

Ltac settled s pd a Hfresh HS :=
  do 2 loop_step; settle_cases pd a Hfresh;
  try (loop_step; loop_step; exact HS);
  destruct s; go; inv_solve.

Lemma step_ok s p e : Inv p -> Step_ok p (step s p e).
Proof.
  intros HI. pose proof (Step_ok_refl p HI) as HS.
  pose proof (fun H => fresh_ids_None p (next_id p) H ltac:(lia)) as F0.
  pose proof (fun H => fresh_ids_None p (S (next_id p)) H ltac:(lia)) as F1.
  destruct p as [nav hrs ld vs dm lg vt ts nt ls pd ni mq o].
  inv_unfold_in HI. projs_in F0. projs_in F1.
  destruct HI as (Hmq & Hfresh & Hhb & Hclick & Hmutex & Had).
  specialize (F0 Hfresh). specialize (F1 Hfresh). subst mq.
  destruct ld.
  2: { destruct Hclick as (-> & -> & -> & ->). destruct Hhb as [-> _].
       destruct e; do 2 loop_step.
       2: { destruct (dm !! id) as [el|]; [destruct (disabled el)|]; go; exact HS. }
       all: go. all: try exact HS. all: inv_solve. }
  destruct e.
  - go. exact HS.
  - (* Click *)
    do 2 loop_step.
    destruct (dm !! id) as [el|] eqn:Eid; [destruct (disabled el) eqn:Edis|].
    1,3: go; exact HS.
    unfold dispatch. rewrite listening_element.
    unfold element_listeners. cbn [listeners].
    destruct Hclick as [Hc | Hc]; rewrite Hc; cbn [List.filter map].
    { go. exact HS. }
    unfold click_listener. cbn [target type Target_eqb].
    change (String.eqb "click" "click") with true.
    destruct (String.eqb "accept-btn" id) eqn:Ebtn; cbn [andb map listener].
    2: { go. exact HS. }
    apply String.eqb_eq in Ebtn. subst id.
    destruct Hmutex as [Hm1 Hm2]. rewrite Eid, Edis in Hm2.
    assert (count_ops is_accept_op pd = O) as Hm0.
    { destruct (count_ops is_accept_op pd) as [|[|n]]; [done| |lia].
      by specialize (Hm2 eq_refl). }
    destruct s; go; inv_solve.
  - settled s pd a Hfresh HS.
  - settled s pd a Hfresh HS.
  - settled s pd a Hfresh HS.
  - settled s pd a Hfresh HS.
  - settled s pd a Hfresh HS.
  - settled s pd a Hfresh HS.
  - (* TimerFire *)
    do 2 loop_step. unfold firing. cbn [timers].
    destruct vt as [h0|]; destruct Hhb as [Hts Hls]; subst ts; cbn [List.filter handle].
    2: { cbn [map]. go. exact HS. }
    destruct (Nat.eqb h0 h); cbn [map handler].
    2: { go. exact HS. }
    go; inv_solve.
  - (* BeforeUnload *)
    do 2 loop_step. unfold dispatch. rewrite listening_lifecycle by done.
    unfold lifecycle_listeners. cbn [listeners].
    destruct vt as [h0|]; destruct Hhb as [Hts Hls]; rewrite Hls.
    2: { cbn [List.filter map]. go. exact HS. }
    unfold leave_listeners.
    match goal with |- context [map listener ?l] =>
      let v := eval vm_compute in (map listener l) in change (map listener l) with v end.
    go; inv_solve.
  - (* VisibilityChange *)
    do 3 loop_step. unfold dispatch. rewrite listening_lifecycle by done.
    unfold lifecycle_listeners. cbn [listeners].
    destruct vt as [h0|]; destruct Hhb as [Hts Hls]; rewrite Hls.
    2: { cbn [List.filter map]. go. inv_solve. }
    unfold leave_listeners.
    match goal with |- context [map listener ?l] =>
      let v := eval vm_compute in (map listener l) in change (map listener l) with v end.
    go; inv_solve.
Qed.

(** ** Sessions *)

Lemma initial_Inv nav h v d : Inv (initial nav h v d).
Proof.
  unfold initial. inv_goal. repeat split; try done; try lia.
  intros a [st Hst]. by rewrite lookup_empty in Hst.
Qed.

Lemma reachable_Inv s p : reachable s p -> Inv p.
Proof.
  induction 1 as [nav h v d | p e _ IH]; [apply initial_Inv | apply step_ok, IH].
Qed.

Lemma reachable_run s p es : reachable s p -> reachable s (run s p es).
Proof.
  revert p. induction es as [|e es IH]; intros p Hp; [exact Hp|].
  apply IH. by constructor.
Qed.

(** Open the invariant of a page given by its fields. *)
Ltac open_inv HI p :=
  let F0 := fresh "F0" in let F1 := fresh "F1" in
  pose proof (fun H => fresh_ids_None p (next_id p) H ltac:(lia)) as F0;
  pose proof (fun H => fresh_ids_None p (S (next_id p)) H ltac:(lia)) as F1;
  destruct p as [nav hrs ld vs dm lg vt ts nt ls pd ni mq o];
  inv_unfold_in HI; projs_in F0; projs_in F1;
  destruct HI as (Hmq & Hfresh & Hhb & Hclick & Hmutex & Had);
  specialize (F0 Hfresh); specialize (F1 Hfresh); subst mq.

(** Bring what a goal counts on a page given by its fields into the
    counts on the page before. *)
Ltac view_goal :=
  unfold heartbeat_view, dispatched, sent, waiting, ops, lifecycle_listeners;
  cbn [navigator hours loaded visibilityState dom lastGeo visitPingTimer timers
       next_timer listeners pending next_id microtasks out];
  rewrite ?List.filter_app, ?count_if_app;
  count_singletons; count_pending;
  rewrite ?app_nil_r, ?app_nil_l, ?Nat.add_0_r.

(** The callbacks of the listeners an event reaches. *)
Ltac listener_callbacks :=
  match goal with
  | |- context [map listener ?l] =>
      let v := eval vm_compute in (map listener l) in change (map listener l) with v
  end.

(** ** Frame properties of a step

    A property that the writes of the event loop do not disturb holds
    after a step if the code the step runs keeps it: the continuations of
    the microtasks, the callbacks, and what the event resumes. *)

Section StepKeeps.
Context (I : Page -> Prop) (s : Script) (HI : stable I).
Context (Hresume : forall k r, keeps I (resume k r)).

Lemma drain_keeps p : I p -> I (drain s p).
Proof.
  unfold drain. intros Hp.
  assert (I (set_microtasks [] p)) as Hq by by apply stable_microtasks.
  revert Hq. generalize (set_microtasks [] p). generalize (microtasks p).
  induction l as [|job l IH]; intros q Hq; [exact Hq|].
  cbn [fold_left]. apply IH. by apply Hresume.
Qed.

Context (Hcallback : forall cb, keeps I (run_callback s cb)).

Lemma invoke_all_keeps cbs p : I p -> I (fold_left (invoke s) cbs p).
Proof.
  revert p. induction cbs as [|cb cbs IH]; intros p Hp; [exact Hp|].
  cbn [fold_left]. apply IH. unfold invoke. apply drain_keeps. by apply Hcallback.
Qed.

Context (e : Event).
Context (Hinit : e = DOMContentLoaded -> keeps I onDOMContentLoaded).
Context (Hsettled : forall st m, on_settled s st e = Some m -> keeps I m).

Lemma step_keeps p : I p -> I (step s p e).
Proof.
  intros Hp. unfold step. apply drain_keeps. unfold react, dispatch, settle.
  destruct e eqn:Ee.
  - destruct (loaded p); [exact Hp|]. apply Hinit; [done|]. by apply stable_loaded.
  - destruct (dom p !! id) as [el|]; [|exact Hp].
    destruct (disabled el); [exact Hp|]. by apply invoke_all_keeps.
  - destruct (pending p !! a) as [st|]; [|exact Hp].
    destruct (on_settled s st (GeoSuccess a pos)) as [m|] eqn:Em; [|exact Hp].
    apply (Hsettled st m Em). by apply stable_pending.
  - destruct (pending p !! a) as [st|]; [|exact Hp].
    destruct (on_settled s st (GeoError a err)) as [m|] eqn:Em; [|exact Hp].
    apply (Hsettled st m Em). by apply stable_pending.
  - destruct (pending p !! a) as [st|]; [|exact Hp].
    destruct (on_settled s st (FetchResolve a response)) as [m|] eqn:Em; [|exact Hp].
    apply (Hsettled st m Em). by apply stable_pending.
  - destruct (pending p !! a) as [st|]; [|exact Hp].
    destruct (on_settled s st (FetchReject a reason)) as [m|] eqn:Em; [|exact Hp].
    apply (Hsettled st m Em). by apply stable_pending.
  - destruct (pending p !! a) as [st|]; [|exact Hp].
    destruct (on_settled s st (JsonResolve a data)) as [m|] eqn:Em; [|exact Hp].
    apply (Hsettled st m Em). by apply stable_pending.
  - destruct (pending p !! a) as [st|]; [|exact Hp].
    destruct (on_settled s st (JsonReject a reason)) as [m|] eqn:Em; [|exact Hp].
    apply (Hsettled st m Em). by apply stable_pending.
  - by apply invoke_all_keeps.
  - by apply invoke_all_keeps.
  - apply invoke_all_keeps. by apply stable_visibility.
Qed.
End StepKeeps.

(** Show that a computation of the script keeps a property each of its
    writes keeps; [base] shows that of a write. *)
Ltac keeps_step base :=
  lazymatch goal with
  | |- keeps _ (mbind _ _) => apply keeps_bind; [|intros ?]
  | |- keeps _ (mret _) => apply keeps_ret
  | |- keeps _ (gets _) => apply keeps_gets
  | |- keeps _ (throw _) => apply keeps_throw
  | |- keeps _ (lift _) => apply keeps_lift
  | |- keeps _ (modify _) => apply keeps_modify; base
  | |- keeps _ (try_catch _ _) => apply keeps_try_catch; [|intros ?]
  | |- keeps _ (try_catch_finally _ _ _) => apply keeps_try_catch_finally; [|intros ?|]
  | |- keeps _ (void _) => apply keeps_void
  | |- keeps _ (new_Promise _) => apply keeps_new_Promise
  | |- keeps _ (match ?x with _ => _ end) => destruct x
  | |- keeps _ (if ?x then _ else _) => destruct x
  | |- keeps _ ?m => script_unfold m
  end.

Ltac keeps_run base := repeat keeps_step base.

(** A write that does not touch the observed field. *)
Ltac untouched :=
  let p := fresh in let H := fresh in intros p H; destruct p; exact H.

Lemma lastGeo_stable x : stable (fun p => lastGeo p = x).
Proof. split; intros [] *; done. Qed.

(** Only the report of a position can change the cached fix. *)
Lemma step_keeps_lastGeo s p e :
  (forall a pos, e <> GeoSuccess a pos) -> lastGeo (step s p e) = lastGeo p.
Proof.
  intros He.
  apply (step_keeps (fun q => lastGeo q = lastGeo p) s (lastGeo_stable _)); [..|done].
  - intros k r. destruct k; keeps_run untouched.
  - intros cb. destruct cb, s; keeps_run untouched.
  - intros _. keeps_run untouched.
  - intros st m Hm. destruct st, e; try discriminate; try (by edestruct He);
      injection Hm as <-; destruct s; keeps_run untouched.
Qed.

Lemma visitPingTimer_stable x : stable (fun p => visitPingTimer p = x).
Proof. split; intros [] *; done. Qed.

(** The variant build never touches the heartbeat's sentinel. *)
Lemma part_000_step_keeps_visitPingTimer p e :
  visitPingTimer (step part_000 p e) = visitPingTimer p.
Proof.
  apply (step_keeps (fun q => visitPingTimer q = visitPingTimer p) part_000
                    (visitPingTimer_stable _)); [..|done].
  - intros k r. destruct k; keeps_run untouched.
  - intros cb. destruct cb; keeps_run untouched.
  - intros _. keeps_run untouched.
  - intros st m Hm. destruct st, e; try discriminate;
      injection Hm as <-; keeps_run untouched.
Qed.

Lemma part_000_heartbeat_off p : reachable part_000 p -> visitPingTimer p = None.
Proof.
  induction 1 as [nav h v d | p e _ IH]; [reflexivity|].
  by rewrite part_000_step_keeps_visitPingTimer.
Qed.

Lemma page_ok_stable : stable page_ok.
Proof. split; intros [] *; done. Qed.

(** The script changes elements, and never adds or removes one. *)
Ltac same_elements :=
  let p := fresh in let H := fresh in
  intros p H; destruct p; unfold page_ok in *;
  cbn [dom set_dom set_out set_lastGeo set_visitPingTimer set_timers set_listeners
       set_pending set_next_id set_microtasks set_loaded set_visibilityState] in *;
  rewrite ?dom_ok_alter; exact H.

Lemma step_keeps_page_ok s p e : page_ok p -> page_ok (step s p e).
Proof.
  apply (step_keeps page_ok s page_ok_stable).
  - intros k r. destruct k; keeps_run same_elements.
  - intros cb. destruct cb, s; keeps_run same_elements.
  - intros _. keeps_run same_elements.
  - intros st m Hm. destruct st, e; try discriminate;
      injection Hm as <-; destruct s; keeps_run same_elements.
Qed.

Lemma run_keeps_page_ok s es p : page_ok p -> page_ok (run s p es).
Proof.
  revert p. induction es as [|e es IH]; intros p Hp; [exact Hp|].
  apply IH, step_keeps_page_ok, Hp.
Qed.

Lemma page_ok_without_geolocation : page_ok sample_page_without_geolocation.
Proof.
  unfold page_ok, dom_ok, required_ids.
  repeat (apply Forall_cons; split; [exists blank; vm_compute; reflexivity|]).
  constructor.
Qed.

(** * The claims *)

(** ** C1: [requestAd] *)

Ltac show_panels :=
  unfold ad_state, displayed; cbn [dom]; look; cbn [style_display]; reflexivity.

Lemma stated_outcome_outcome reply :
  body_not_shown reply = false -> stated_outcome reply = outcome reply.
Proof.
  destruct reply as [reason | response [reason | data]]; cbn; try done.
  intros Hn. apply negb_false_iff in Hn. by rewrite Hn.
Qed.

Lemma to_textContent_thrown v e : ToString v = inl e -> to_textContent v = inl e.
Proof. by destruct v. Qed.

Lemma to_textContent_returned v t :
  ToString v = inr t -> to_textContent v = inr (if nullish v then EmptyString else t).
Proof. by destruct v. Qed.

(** The conversions [requestAd] makes of the fields of a body, by
    cases. *)
Ltac convert_fields data :=
  let conv k :=
    (let E := fresh "E" in destruct (ToString (field data k)) eqn:E) in
  conv "title"; conv "image_url"; conv "target_url";
  repeat match goal with
         | H : ToString ?v = inl _ |- _ =>
             lazymatch goal with
             | _ : to_textContent v = _ |- _ => fail
             | _ => pose proof (to_textContent_thrown _ _ H)
             end
         | H : ToString ?v = inr _ |- _ =>
             lazymatch goal with
             | _ : to_textContent v = _ |- _ => fail
             | _ => pose proof (to_textContent_returned _ _ H)
             end
         end.

(** C1, as stated, fails: a 200 response whose body is the JSON text
    [null] parses, so the claim promises the Found state; but reading
    [data.title] of [null] throws, the [catch] clause runs, and the page
    shows the Error state.  So does a 200 response whose body has a
    title that cannot be converted to a string: the assignment to
    [textContent] throws. *)
Lemma requestAd_body_not_shown_is_error :
  ok (mkResponse 200 "OK") = true
  /\ stated_outcome null_body = AdFound
  /\ ad_state (requestAd_run portal_js None None null_body sample_page) = Some AdError
  /\ ad_state (requestAd_run portal_js None None null_body sample_page)
     <> Some (stated_outcome null_body)
  /\ stated_outcome unprintable_title = AdFound
  /\ ad_state (requestAd_run portal_js None None unprintable_title sample_page)
     = Some AdError
  /\ ad_state (requestAd_run portal_js None None unprintable_title sample_page)
     <> Some (stated_outcome unprintable_title).
Proof. vm_compute. repeat split; discriminate. Qed.

(** C1 (amended).  For every reply to the ad request, whatever latitude
    and longitude [requestAd] was called with ([null] included), and for
    either build of the script: once the call has run to its end, exactly
    one of the ad card, the empty panel and the error panel is displayed,
    and it is the one [outcome] names: Empty for status 204, Error for
    any other status outside 2xx, Error for a network failure and for a
    body that fails to parse, and for a 2xx body that parses, Found if
    the body can be shown as an ad and Error if it cannot: if it is
    [null], so that reading its title throws, or if the conversion of
    its [title], [image_url] or [target_url] to a string throws.  Except
    for the bodies that cannot be shown this is the classification the
    claim states. *)
Theorem requestAd_classifies (s : Script) (latitude longitude : option Q)
    (reply : Reply) (p : Page) :
  page_ok p -> microtasks p = [] -> fresh_ids p ->
  ad_state (requestAd_run s latitude longitude reply p) = Some (outcome reply)
  /\ (body_not_shown reply = false ->
      ad_state (requestAd_run s latitude longitude reply p)
      = Some (stated_outcome reply)).
Proof.
  intros Hok Hmq Hfresh.
  assert (ad_state (requestAd_run s latitude longitude reply p) = Some (outcome reply))
    as Hgoal; [|split; [exact Hgoal|intros Hn; by rewrite stated_outcome_outcome]].
  pose proof (fresh_ids_None p (S (next_id p)) Hfresh ltac:(lia)) as HS.
  open_page p. open_page_ok Hok. subst mq.
  unfold requestAd_run, reply_events, outcome, shows_as_ad, converts.
  loop_step.
  destruct reply as [reason | response [reason | data]].
  - loop_run. show_panels.
  - loop_run; show_panels.
  - destruct (nullish data) eqn:Hn; convert_fields data; cbn [negb andb];
      loop_run; show_panels.
Qed.

Lemma requestAd_classifies_witness :
  page_ok sample_page /\ microtasks sample_page = [] /\ fresh_ids sample_page
  /\ body_not_shown (Replied (mkResponse 200 "OK") (inr sample_ad)) = false
  /\ stated_outcome (Replied (mkResponse 200 "OK") (inr sample_ad)) = AdFound
  /\ ad_state (requestAd_run portal_js (Some (3123 # 100)) (Some (12147 # 100))
                             (Replied (mkResponse 200 "OK") (inr sample_ad))
                             sample_page)
     = Some (stated_outcome (Replied (mkResponse 200 "OK") (inr sample_ad))).
Proof.
  split; [exact page_ok_sample|]. split; [reflexivity|]. split; [exact fresh_ids_sample|].
  do 2 (split; [reflexivity|]).
  exact (proj2 (requestAd_classifies portal_js (Some (3123 # 100)) (Some (12147 # 100))
                  (Replied (mkResponse 200 "OK") (inr sample_ad)) sample_page
                  page_ok_sample eq_refl fresh_ids_sample) eq_refl).
Defined.

(** ** C2: [startVisitPingLoop] *)

Lemma startVisitPingLoop_started q :
  visitPingTimer q <> None -> exec startVisitPingLoop q = q.
Proof.
  intros Hq. destruct q as [? ? ? ? ? ? vt ? ? ? ? ? ? ?]. cbn [visitPingTimer] in Hq.
  destruct vt; [|done]. loop_step. reflexivity.
Qed.

Lemma startVisitPingLoop_starts q :
  visitPingTimer (exec startVisitPingLoop q) <> None.
Proof.
  destruct q as [? ? ? ? ? lg vt ? ? ? ? ? ? ?].
  destruct vt; loop_step; done.
Qed.

Lemma startVisitPingLoop_twice q :
  exec startVisitPingLoop (exec startVisitPingLoop q) = exec startVisitPingLoop q.
Proof. apply startVisitPingLoop_started, startVisitPingLoop_starts. Qed.

Lemma startVisitPingLoop_iter n q :
  Nat.iter (S n) (exec startVisitPingLoop) q = exec startVisitPingLoop q.
Proof.
  induction n as [|n IH]; [done|].
  change (Nat.iter (S (S n)) (exec startVisitPingLoop) q)
    with (exec startVisitPingLoop (Nat.iter (S n) (exec startVisitPingLoop) q)).
  rewrite IH. apply startVisitPingLoop_twice.
Qed.

(** C2, as stated, fails for the ping: in a browser with geolocation
    and no cached fix the call of [postVisitPing] that
    [startVisitPingLoop] makes first asks for a position, and nothing is
    sent at start.  In this session the position request of the accept
    call has failed, so [lastGeo] is [null] when the body accepts the
    join: afterwards the timer runs, and no ping has been sent. *)
Lemma startVisitPingLoop_sends_no_ping_without_fix :
  visitPingTimer page_accept_replied = None
  /\ lastGeo page_accept_replied = None
  /\ sent ping page_accept_replied = O
  /\ visitPingTimer page_joined_without_fix = Some 1%nat
  /\ timers page_joined_without_fix = [mkTimer 1 60000 CbIntervalPing]
  /\ sent ping page_joined_without_fix = O
  /\ out page_joined_without_fix
     = (out page_accept_replied ++ [GetCurrentPosition CACHED])%list
  /\ sent ping (exec startVisitPingLoop
                     (exec startVisitPingLoop page_accept_replied)) = O
  /\ sent ping (exec startVisitPingLoop
                     (exec startVisitPingLoop page_accept_replied))
     <> S (sent ping page_accept_replied).
Proof. vm_compute. repeat split; discriminate. Qed.

(** C2 (amended).  [startVisitPingLoop] is idempotent.  On every page a
    session reaches there is at most one interval timer, and none while
    the sentinel [visitPingTimer] is [null]; a call made while the
    sentinel is set changes nothing; and one or more calls in a row leave
    the page exactly as the first call does: with the sentinel set to the
    one timer, of 60000 ms, that runs the ping callback, and with exactly
    one more call of [postVisitPing] for a ping under way if the
    heartbeat was off before, none if it was on.  That ping is on the
    network at once when a fix is cached.  Without a cached fix nothing
    is sent at start: in a browser with geolocation the call asks for a
    position, and the ping is sent when that request settles, whichever
    way; in a browser without geolocation it is sent at the microtask
    checkpoint that follows. *)
Theorem startVisitPingLoop_idempotent (s : Script) (p : Page) :
  reachable s p -> start_idempotent p.
Proof.
  intros Hr. pose proof (reachable_Inv s p Hr) as HI. clear Hr.
  split; [|split; [|split; [|split]]].
  - destruct HI as (_ & _ & Hhb & _). unfold heartbeat_inv in Hhb.
    destruct (visitPingTimer p); destruct Hhb as [-> _]; cbn; lia.
  - destruct HI as (_ & _ & Hhb & _). unfold heartbeat_inv in Hhb.
    intros Hv. rewrite Hv in Hhb. tauto.
  - apply startVisitPingLoop_twice.
  - apply startVisitPingLoop_started.
  - intros n. cbv zeta. rewrite startVisitPingLoop_iter. split; [done|].
    open_inv HI p. cbn [visitPingTimer lastGeo navigator out pending next_id].
    destruct vt as [h0|]; destruct Hhb as [-> Hls].
    + loop_step. split; [by eexists|]. split; [lia|]. split; [done|].
      split; [done|]. split; [done|]. split; [done|].
      intros s' a e Ha He. cbn [pending] in Ha.
      pose proof (Hfresh a (mk_is_Some _ _ Ha)).
      destruct He as [[pos ->] | [err ->]]; go; view_goal; lia.
    + split; [go; by eexists|]. split; [go; view_goal; lia|].
      split; [intros _ Hlg; go; view_goal; first [lia | done]|].
      split; [intros _ -> Hgeo; go; view_goal; done|].
      split; [intros s' _ -> Hgeo; go; view_goal; split; lia|].
      split; [intros s' _; go; view_goal; lia|].
      intros s' a e Ha He. cbn [pending] in Ha.
      pose proof (Hfresh a (mk_is_Some _ _ Ha)).
      destruct He as [[pos ->] | [err ->]]; go; view_goal; lia.
Qed.

Lemma startVisitPingLoop_idempotent_witness :
  reachable portal_js page_accept_replied
  /\ visitPingTimer page_accept_replied = None
  /\ lastGeo page_accept_replied = None
  /\ geolocation (navigator page_accept_replied) = true
  /\ start_idempotent page_accept_replied.
Proof.
  split; [apply reachable_run, reach_initial|].
  do 3 (split; [reflexivity|]).
  apply (startVisitPingLoop_idempotent portal_js).
  apply reachable_run, reach_initial.
Defined.

(** ** C3: a successful join *)

(** C3.  In the canonical build, on a page with the required elements
    where [acceptPortal] waits for its response: a 2xx response followed
    by a body whose [ok] is truthy starts the heartbeat, whatever [venue]
    is.  The sentinel is set afterwards; if the heartbeat was off, the
    60000 ms timer and the two leave observers are new and exactly one
    ping is under way.  The button is enabled again and no call is in
    flight.  With the venue Cafe X (food, 12 m) the status text names
    [Cafe X] and [12m]; with a falsy venue, [null] or absent, it reports
    a successful join without attribution. *)
Theorem acceptPortal_ok_starts_heartbeat (p : Page) :
  reachable portal_js p -> page_ok p -> accept_ok_starts_heartbeat p.
Proof.
  intros Hr Hok. pose proof (reachable_Inv _ p Hr) as HI. clear Hr.
  intros a res data Ha Hres Hacc. unfold accepted in Hacc.
  destruct (nullish data) eqn:Hn;
    [ rewrite (get_prop_nullish _ _ Hn) in Hacc; discriminate
    | rewrite (get_prop_defined _ _ Hn) in Hacc ].
  rewrite (get_prop_defined _ _ Hn).
  open_inv HI p. cbn [pending next_id] in *. open_page_ok Hok.
  pose proof (Hfresh a (mk_is_Some _ _ Ha)).
  pose proof (count_ops_delete (waits_for_fix ping) pd a _ Ha) as Hp.
  pose proof (count_ops_delete is_accept_op pd a _ Ha) as Hc.
  cbn [waits_for_fix is_accept_op] in Hp, Hc. destruct Hmutex as [Hle _].
  cbv zeta. go.
  all: unfold text_of, is_disabled; view_goal; look.
  all: cbn [textContent disabled].
  all: split; [done|].
  all: split; [intros Hvt; first [ discriminate
                                 | repeat split; [by rewrite <- app_assoc | lia] ]|].
  all: split; [reflexivity|].
  all: split; [lia|].
  all: split; [intros Hv; injection Hv as Hv; rewrite Hv in *;
               repeat match goal with
                      | E : ToString _ = _ |- _ =>
                          cbn in E; first [discriminate E | injection E as <-]
                      end; done|].
  all: intros v Hv Hf; injection Hv as <-; first [reflexivity | congruence].
Qed.

Lemma acceptPortal_ok_starts_heartbeat_witness :
  reachable portal_js (page_accepting portal_js)
  /\ page_ok (page_accepting portal_js)
  /\ pending (page_accepting portal_js) !! 1%nat = Some AwaitAcceptFetch
  /\ ok (mkResponse 200 "OK") = true
  /\ accepted join_at_cafe_x = true
  /\ get_prop join_at_cafe_x "venue" = inr cafe_x
  /\ visitPingTimer (page_accepting portal_js) = None
  /\ visitPingTimer
       (run portal_js (page_accepting portal_js)
            [FetchResolve 1 (mkResponse 200 "OK");
             JsonResolve (next_id (page_accepting portal_js)) join_at_cafe_x])
     = Some (next_timer (page_accepting portal_js))
  /\ text_of "accept-status"
       (run portal_js (page_accepting portal_js)
            [FetchResolve 1 (mkResponse 200 "OK");
             JsonResolve (next_id (page_accepting portal_js)) join_at_cafe_x])
     = Some "认证成功。归因店铺：Cafe X（food），距离约 12m".
Proof.
  pose proof (acceptPortal_ok_starts_heartbeat (page_accepting portal_js)
                (reachable_run _ _ _ (reach_initial _ _ _ _ _))
                (run_keeps_page_ok _ _ _ page_ok_without_geolocation)
                1%nat (mkResponse 200 "OK") join_at_cafe_x
                eq_refl eq_refl eq_refl) as (_ & Hoff & _ & _ & Hcafe & _).
  split; [apply reachable_run, reach_initial|].
  split; [apply run_keeps_page_ok, page_ok_without_geolocation|].
  do 5 (split; [reflexivity|]).
  split; [exact (proj1 (Hoff eq_refl)) | exact (proj1 (Hcafe eq_refl))].
Defined.

(** ** C4: the cached fix *)

(** C4, as stated, fails for the acquisition [initPortal] makes under the
    FAST policy: its success callback hands the coordinates to
    [requestAd] and does not write [lastGeo], which is still [null]
    after the position has arrived. *)
Lemma initPortal_fix_is_not_cached :
  pending page_locating !! O = Some AwaitInitGeo
  /\ out page_locating = [GetCurrentPosition FAST]
  /\ lastGeo (step portal_js page_locating (GeoSuccess O sample_position)) = None
  /\ lastGeo (step portal_js page_locating (GeoSuccess O sample_position))
     <> Some (fix_of sample_position).
Proof. vm_compute. repeat split. discriminate. Qed.

(** C4 (amended).  Every successful acquisition made through [tryGetGeo]
    (the CACHED policy, on behalf of a ping, a leave or an accept)
    overwrites [lastGeo] with the new fix, and the success callback
    writes the cache before it resolves the promise with that fix.  No
    other event changes [lastGeo]: not a failed acquisition under either
    policy, and not the success of the FAST acquisition of [initPortal],
    which passes its coordinates to the ad request and leaves the cache
    as it was. *)
Theorem lastGeo_written_by_tryGetGeo_only (s : Script) (p : Page) :
  reachable s p -> lastGeo_cache s p.
Proof.
  intros Hr. pose proof (reachable_Inv s p Hr) as HI. clear Hr.
  split; [|split; [|split]].
  - open_inv HI p. intros a k pos Ha. cbn [pending] in Ha.
    destruct k as [[]|]; go; reflexivity.
  - intros q pos. by destruct q.
  - intros e He. by apply step_keeps_lastGeo.
  - open_inv HI p. intros a pos Ha. cbn [pending] in Ha. go; reflexivity.
Qed.

Lemma lastGeo_written_by_tryGetGeo_only_witness :
  reachable portal_js page_locating /\ lastGeo_cache portal_js page_locating.
Proof.
  split; [apply reach_step, reach_initial|].
  apply lastGeo_written_by_tryGetGeo_only, reach_step, reach_initial.
Defined.

(** ** C5: the transport of a heartbeat *)




(** ** C6: the initial ad request *)

(** C6.  In every session at most one ad request is made, and none
    while the position request of [initPortal] is pending: the ad
    request is made by the callback that reports the position or its
    failure.  On a page with the required elements, [DOMContentLoaded]
    either asks for a position under the FAST policy, whose timeout is
    5000 ms, and makes no request yet, or, without geolocation, makes the
    ad request with [null] coordinates at once; the error callback
    (denied, unavailable, timeout) makes the ad request with [null]
    coordinates and the success callback makes it with the coordinates
    of the position; and once the document is ready, exactly one of the
    position request and the ad request has been made. *)
Theorem initial_ad_request_after_geolocation (s : Script) (p : Page) :
  reachable s p -> initial_ad_request s p.
Proof.
  intros Hr. pose proof (reachable_Inv s p Hr) as HI.
  pose proof HI as (_ & _ & _ & _ & _ & [Hle Hex]).
  split; [lia|]. split; [lia|]. split; [exact Hex|].
  clear Hr Hle Hex. unfold ad_request.
  split; [|split].
  - intros Hok Hld. open_inv HI p. cbn [loaded navigator] in *. subst ld. open_page_ok Hok.
    destruct Hclick as (-> & -> & -> & ->).
    cbv zeta. go; cbn [out pending]; done.
  - intros a err Hok Ha. open_inv HI p. open_page_ok Hok. cbn [pending] in Ha.
    go. reflexivity.
  - intros a pos Hok Ha. open_inv HI p. open_page_ok Hok. cbn [pending] in Ha.
    go. reflexivity.
Qed.

Lemma initial_ad_request_after_geolocation_witness :
  reachable portal_js page_locating /\ initial_ad_request portal_js page_locating.
Proof.
  split; [apply reach_step, reach_initial|].
  apply initial_ad_request_after_geolocation, reach_step, reach_initial.
Defined.

(** ** C7: [tryGetGeo] *)

(** C7.  [tryGetGeo] never rejects.  Without the capability its promise
    is fulfilled with [null] when the constructor returns; with it the
    promise is left pending on a position request made under the CACHED
    policy, whose error callback (whatever the error: permission denied,
    position unavailable, timeout) resolves it with [null] and whose
    success callback resolves it with the fix.  No path throws. *)
Theorem tryGetGeo_never_rejects (p : Page) :
  (geolocation (navigator p) = false ->
     tryGetGeo p = (p, inr (Fulfilled None)))
  /\ (geolocation (navigator p) = true ->
     tryGetGeo p = (set_out (out p ++ [GetCurrentPosition CACHED]) p, inr Pending))
  /\ (forall e, snd (tryGetGeo p) <> inl e)
  /\ (forall e, snd (tryGetGeo p) <> inr (Rejected e))
  /\ (forall err, tryGetGeo_error err p = (p, inr None))
  /\ (forall pos, exists geo,
        snd (tryGetGeo_success pos p) = inr (Some geo)
        /\ latitude geo = coords_latitude pos
        /\ longitude geo = coords_longitude pos
        /\ accuracy_m geo = Math_round (coords_accuracy pos)).
Proof.
  open_page p. repeat split.
  - intros Hg. munfold. by rewrite Hg.
  - intros Hg. munfold. by rewrite Hg.
  - intros e. munfold. by destruct (geolocation nav).
  - intros e. munfold. by destruct (geolocation nav).
  - intros pos. eexists. munfold. repeat split.
Qed.

(** ** C8: the accept button *)

(** While a call of [acceptPortal] is in flight a click does nothing. *)
Lemma click_while_pending s p :
  Inv p -> ops is_accept_op p = 1%nat -> step s p (Click "accept-btn") = p.
Proof.
  intros HI Hone. open_inv HI p. unfold ops in Hone. cbn [pending] in Hone.
  destruct Hmutex as [_ Hm]. specialize (Hm Hone).
  do 2 loop_step. destruct (dm !! "accept-btn") as [el|]; [|done].
  rewrite Hm. loop_step. reflexivity.
Qed.

(** Every way a call of [acceptPortal] ends without a join leaves no
    call in flight and the button enabled. *)
Lemma accept_outcome s p a e :
  Inv p -> ends_accept p a e ->
  ops is_accept_op (step s p e) = O /\ is_disabled "accept-btn" (step s p e) = false.
Proof.
  intros HI He. unfold ends_accept in He.
  assert (ops is_accept_op (step s p e) = O) as H0; [|split; [exact H0|]].
  2: { pose proof (step_ok s p e HI) as [_ (_ & Hb & _)]. apply Hb; [|exact H0].
       destruct (pending p !! a) as [st|] eqn:Ea; [|by destruct e].
       destruct HI as (_ & _ & _ & _ & [Hle _] & _).
       pose proof (count_ops_delete is_accept_op (pending p) a st Ea) as Hd.
       unfold ops in *. destruct st; destruct e; try done; cbn in Hd; lia. }
  open_inv HI p. cbn [pending] in He.
  destruct (pd !! a) as [st|] eqn:Ea; [|by destruct e].
  pose proof (Hfresh a (mk_is_Some _ _ Ea)).
  pose proof (count_ops_delete is_accept_op pd a st Ea) as Hd.
  destruct Hmutex as [Hle _].
  destruct st; try done; destruct e; try done; cbn [is_accept_op] in Hd.
  all: repeat match goal with H : _ /\ _ |- _ => destruct H end; subst.
  all: do 2 loop_step; destruct s; go.
  all: unfold ops; cbn [pending]; count_pending; lia.
Qed.

(** C8.  In every session, and for either build, calls of [acceptPortal]
    exclude each other by the button's [disabled] flag.  At most one call
    is in flight; while one is, the button is disabled and a click
    changes nothing, so that no second request is made.  A step that
    sends an accept request leaves the button disabled: the request is
    never on the network with the button enabled.  A step that ends the
    call in flight leaves the button enabled, and each way of ending
    does end it: the request fails, the response is not 2xx, the body
    arrives (with [ok] true or false, or whatever it holds), or the body
    fails to parse.  On a page with the required elements, the button is
    never left disabled without a call in flight. *)
Theorem accept_mutual_exclusion (s : Script) (p : Page) :
  reachable s p -> accept_mutex s p.
Proof.
  intros Hr. pose proof (reachable_Inv s p Hr) as HI.
  pose proof HI as (_ & _ & _ & _ & [Hle Hdis] & _).
  split; [exact Hle|]. split; [exact Hdis|].
  split; [apply click_while_pending, HI|].
  split; [intros e; apply (step_ok s p e HI)|].
  split; [intros e; apply (step_ok s p e HI)|].
  split; [intros e; apply (step_ok s p e HI)|].
  intros a e He. by apply (accept_outcome s p a e).
Qed.

Lemma accept_mutual_exclusion_witness :
  reachable portal_js (page_accepting portal_js)
  /\ ops is_accept_op (page_accepting portal_js) = 1%nat
  /\ ends_accept (page_accepting portal_js) 1
                 (FetchResolve 1 (mkResponse 500 "Internal Server Error"))
  /\ accept_mutex portal_js (page_accepting portal_js).
Proof.
  split; [apply reachable_run, reach_initial|].
  split; [vm_compute; reflexivity|].
  split; [vm_compute; split; reflexivity|].
  apply accept_mutual_exclusion, reachable_run, reach_initial.
Defined.

(** ** C9: the two builds of [acceptPortal] *)

(** C9.  The two builds of [acceptPortal] differ in what can be observed.
    In the same session (the sample page without geolocation, a click on
    the accept button, then the server's reply) the canonical build
    sends the location payload and the variant an empty object, and:
    - on a 200 response whose body does not parse, the canonical build
      catches the parse error and reports a failure, while the variant
      warns and reports success;
    - on a 500 response, the canonical build throws [Error: HTTP 500],
      catches it and reports a failure to retry later, while the variant
      throws nothing, logs the status and reports it in the text;
    - on a 200 response whose body has no [ok] field, the canonical
      build reports an abnormal status, while the variant reports
      success;
    - on a 200 response with [ok: true], the canonical build starts the
      heartbeat (sentinel set, one ping sent), while the variant does
      not; indeed no step of the variant ever touches the sentinel, so
      in none of its sessions is the heartbeat ever on. *)
Theorem acceptPortal_builds_differ :
  (accept_view portal_js unparseable_200 =
     mkAcceptView (Some "认证失败，请稍后重试。") [BodyAccept no_fix]
       [("error", "accept portal error:",
         LogExn (SyntaxError "Unexpected end of JSON input"))]
       None 0
   /\ accept_view part_000 unparseable_200 =
     mkAcceptView (Some "认证成功，你可以继续访问互联网。") [BodyEmptyObject]
       [("warn", "portal accept response is not valid JSON:",
         LogExn (SyntaxError "Unexpected end of JSON input"))]
       None 0)
  /\ (accept_view portal_js status_500 =
     mkAcceptView (Some "认证失败，请稍后重试。") [BodyAccept no_fix]
       [("error", "accept portal error:", LogExn (Error "HTTP 500"))]
       None 0
   /\ accept_view part_000 status_500 =
     mkAcceptView (Some "认证失败：返回状态 500") [BodyEmptyObject]
       [("error", "portal accept http error:", LogStatus 500 "Internal Server Error")]
       None 0)
  /\ (accept_view portal_js body_without_ok =
     mkAcceptView (Some "认证失败：返回状态异常。") [BodyAccept no_fix] [] None 0
   /\ accept_view part_000 body_without_ok =
     mkAcceptView (Some "认证成功，你可以继续访问互联网。") [BodyEmptyObject]
       [("log", "portal accept response:", LogVal (JObj []))]
       None 0)
  /\ (accept_view portal_js body_ok_true =
     mkAcceptView (Some "认证成功。但未命中附近店铺（可能未授权定位或距离阈值过小）。")
       [BodyAccept no_fix] [] (Some 1%nat) 1
   /\ accept_view part_000 body_ok_true =
     mkAcceptView (Some "认证成功，你可以继续访问互联网。") [BodyEmptyObject]
       [("log", "portal accept response:", LogVal (JObj [("ok", JBool true)]))]
       None 0)
  /\ (forall reply, In reply [unparseable_200; status_500; body_without_ok; body_ok_true] ->
      accept_view portal_js reply <> accept_view part_000 reply)
  /\ (forall p e, visitPingTimer (step part_000 p e) = visitPingTimer p)
  /\ (forall p, reachable part_000 p -> visitPingTimer p = None).
Proof.
  split; [vm_compute; split; reflexivity|].
  split; [vm_compute; split; reflexivity|].
  split; [vm_compute; split; reflexivity|].
  split; [vm_compute; split; reflexivity|].
  split; [|split; [exact part_000_step_keeps_visitPingTimer
                  |exact part_000_heartbeat_off]].
  intros reply [<- | [<- | [<- | [<- | []]]]]; vm_compute; discriminate.
Qed.

(** ** C10: a failed join *)

(** C10.  In every session, and for either build: the click that starts
    [acceptPortal], and every event that ends or advances a call of
    [acceptPortal] in flight short of a body with a truthy [ok] (the
    position request it waits for settles, the request fails, the
    response arrives, with any status, the body fails to parse, or the
    body arrives with a falsy or absent [ok]) leaves the heartbeat as it
    was: the sentinel [visitPingTimer], the interval timers, the
    hide/unload observers, and the pings and leaves sent or waiting to
    be sent are all unchanged.  In particular the sentinel stays [null]
    if it was [null]. *)
Theorem accept_failure_starts_no_heartbeat (s : Script) (p : Page) :
  reachable s p -> accept_failure_atomic s p.
Proof.
  intros Hr. pose proof (reachable_Inv s p Hr) as HI. clear Hr. split.
  - open_inv HI p. do 2 loop_step.
    destruct (dm !! "accept-btn") as [el|] eqn:Eid; [destruct (disabled el) eqn:Edis|].
    1,3: go; reflexivity.
    unfold dispatch. rewrite listening_element.
    unfold element_listeners. cbn [listeners].
    destruct ld; [|destruct Hclick as (-> & _); cbn [List.filter map]; go; reflexivity].
    destruct Hclick as [Hc | Hc]; rewrite Hc; cbn [List.filter map].
    { go. reflexivity. }
    listener_callbacks.
    destruct s; go; view_goal; reflexivity.
  - intros a st e Ha Hst He Hdata. open_inv HI p. cbn [pending] in Ha.
    pose proof (Hfresh a (mk_is_Some _ _ Ha)).
    pose proof (count_ops_delete (waits_for_fix ping) pd a st Ha) as Hp.
    pose proof (count_ops_delete (waits_for_fix leave) pd a st Ha) as Hl.
    destruct st as [|[|]| | | | |]; try discriminate; cbn [waits_for_fix] in Hp, Hl;
      destruct e; try discriminate; injection He as ->.
    all: do 2 loop_step.
    all: try (loop_run; reflexivity).
    all: destruct s.
    all: try (assert (accepted data = false) as Hacc by (by apply Hdata);
              unfold accepted in Hacc; clear Hdata;
              destruct (nullish data) eqn:Hn;
              [ rewrite (get_prop_nullish _ _ Hn) in Hacc
              | rewrite (get_prop_defined _ _ Hn) in Hacc ]).
    all: go.
    all: view_goal; try (rewrite Hp, Hl); reflexivity.
Qed.

Lemma accept_failure_starts_no_heartbeat_witness :
  reachable portal_js (page_accepting portal_js)
  /\ pending (page_accepting portal_js) !! 1%nat = Some AwaitAcceptFetch
  /\ accept_failure_atomic portal_js (page_accepting portal_js).
Proof.
  split; [apply reachable_run, reach_initial|].
  split; [vm_compute; reflexivity|].
  apply accept_failure_starts_no_heartbeat, reachable_run, reach_initial.
Defined.

(** * Further properties of the script *)

(** ** Frame properties of one event

    Like [step_keeps], for a property that may depend on the ready flag
    and for code that is known by the operation the event settles on
    the page at hand. *)

Section StepFrame.
Context (I : Page -> Prop) (s : Script).
Context (Hvis : forall q v, I q -> I (set_visibilityState v q)).
Context (Hpend : forall q m, I q -> I (set_pending m q)).
Context (Hmicro : forall q l, I q -> I (set_microtasks l q)).
Context (Hresume : forall k r, keeps I (resume k r)).
Context (Hcallback : forall cb, keeps I (run_callback s cb)).

Lemma drain_frame q : I q -> I (drain s q).
Proof.
  unfold drain. intros Hq.
  assert (I (set_microtasks [] q)) as Hq0 by by apply Hmicro.
  revert Hq0. generalize (set_microtasks [] q). generalize (microtasks q).
  induction l as [|job l IH]; intros q' Hq'; [exact Hq'|].
  cbn [fold_left]. apply IH. by apply Hresume.
Qed.

Lemma invoke_all_frame cbs q : I q -> I (fold_left (invoke s) cbs q).
Proof.
  revert q. induction cbs as [|cb cbs IH]; intros q Hq; [exact Hq|].
  cbn [fold_left]. apply IH. unfold invoke. apply drain_frame. by apply Hcallback.
Qed.

Lemma settle_frame p e a :
  (forall st m, pending p !! a = Some st -> on_settled s st e = Some m -> keeps I m) ->
  I p -> I (settle s a e p).
Proof.
  intros Hsettled Hp. unfold settle.
  destruct (pending p !! a) as [st|] eqn:Est; [|exact Hp].
  destruct (on_settled s st e) as [m|] eqn:Em; [|exact Hp].
  apply (Hsettled st m eq_refl Em). by apply Hpend.
Qed.

Lemma step_frame p e :
  (e = DOMContentLoaded -> loaded p = false ->
   I p -> I (exec onDOMContentLoaded (set_loaded true p))) ->
  (forall a st m, settles e = Some a -> pending p !! a = Some st ->
                  on_settled s st e = Some m -> keeps I m) ->
  I p -> I (step s p e).
Proof.
  intros Hinit Hsettled Hp. unfold step. apply drain_frame. unfold react, dispatch.
  destruct e; try (apply settle_frame; [intros st m; by apply (Hsettled _ st m) | exact Hp]).
  - destruct (loaded p) eqn:Hl; [exact Hp|]. by apply Hinit.
  - destruct (dom p !! id) as [el|]; [|exact Hp].
    destruct (disabled el); [exact Hp|]. by apply invoke_all_frame.
  - by apply invoke_all_frame.
  - by apply invoke_all_frame.
  - apply invoke_all_frame. by apply Hvis.
Qed.
End StepFrame.

(** ** The heartbeat, once started *)

Lemma startVisitPingLoop_keeps_running h ts :
  keeps (fun q => visitPingTimer q = Some h /\ timers q = ts) startVisitPingLoop.
Proof.
  intros q [Hq Hts]. rewrite startVisitPingLoop_started; [done|]. by rewrite Hq.
Qed.

Ltac keeps_running :=
  repeat first [ apply startVisitPingLoop_keeps_running | keeps_step untouched ].

Lemma step_keeps_running s p e h :
  visitPingTimer p = Some h ->
  visitPingTimer (step s p e) = Some h /\ timers (step s p e) = timers p.
Proof.
  intros Hh.
  apply (step_frame (fun q => visitPingTimer q = Some h /\ timers q = timers p) s);
    try (intros [] *; done); [..|done].
  - intros k r. destruct k; keeps_running.
  - intros cb. destruct cb, s; keeps_running.
  - intros _ _ Hp.
    assert (keeps (fun q => visitPingTimer q = Some h /\ timers q = timers p)
                  onDOMContentLoaded) as Hk by keeps_running.
    apply Hk. by destruct p.
  - intros a st m _ _ Hm. destruct st, e; try discriminate;
      injection Hm as <-; destruct s; keeps_running.
Qed.

(** A body whose [ok] is falsy, or that has no [ok] to read, or that
    fails to parse, does not start the heartbeat. *)
Lemma acceptPortal_json_not_accepted r :
  (forall data, r = inr data -> accepted data = false) ->
  keeps (fun q => visitPingTimer q = None) (PortalJs.acceptPortal_json r).
Proof.
  intros Hacc q Hq. destruct q as [nav hrs ld vs dm lg vt ts nt ls pd ni mq o].
  cbn [visitPingTimer] in Hq. subst vt. destruct r as [reason|data].
  { loop_step; reflexivity. }
  specialize (Hacc data eq_refl). unfold accepted in Hacc.
  destruct (nullish data) eqn:Hn;
    [ rewrite (get_prop_nullish _ _ Hn) in Hacc
    | rewrite (get_prop_defined _ _ Hn) in Hacc ].
  all: loop_step; reflexivity.
Qed.

Lemma step_keeps_heartbeat_off p e :
  visitPingTimer p = None ->
  (forall a data, e = JsonResolve a data -> pending p !! a = Some AwaitAcceptJson ->
                  accepted data = false) ->
  visitPingTimer (step portal_js p e) = None.
Proof.
  intros Hoff He.
  apply (step_frame (fun q => visitPingTimer q = None) portal_js);
    try (intros [] *; done); [..|done].
  - intros k r. destruct k; keeps_run untouched.
  - intros cb. destruct cb; keeps_run untouched.
  - intros _ _ Hp.
    assert (keeps (fun q => visitPingTimer q = None) onDOMContentLoaded) as Hk
      by keeps_run untouched.
    apply Hk. by destruct p.
  - intros a st m Ha Hst Hm. destruct st, e; try discriminate;
      injection Hm as <-; injection Ha as ->.
    all: try (keeps_run untouched; fail).
    + apply keeps_void, acceptPortal_json_not_accepted.
      intros d Hd. injection Hd as <-. exact (He a data eq_refl Hst).
    + apply keeps_void, acceptPortal_json_not_accepted. discriminate.
Qed.

(** The heartbeat over a session: once started it is never stopped, and
    only an accepted join starts it. *)
Lemma heartbeat_started_by s p e :
  visitPingTimer p = None -> visitPingTimer (step s p e) <> None ->
  s = portal_js
  /\ exists a data, e = JsonResolve a data /\ pending p !! a = Some AwaitAcceptJson
                    /\ accepted data = true.
Proof.
  intros Hoff Hon. destruct s.
  2: { by rewrite part_000_step_keeps_visitPingTimer in Hon. }
  split; [done|].
  destruct e as [| | | | | |a data| | | |].
  7: { destruct (pending p !! a) as [st|] eqn:Hst.
       2: { destruct Hon. apply step_keeps_heartbeat_off; [done|]. congruence. }
       destruct (accepted data) eqn:Hacc.
       2: { destruct Hon. apply step_keeps_heartbeat_off; [done|]. congruence. }
       destruct st; try (destruct Hon; apply step_keeps_heartbeat_off; [done|]; congruence).
       by exists a, data. }
  all: destruct Hon; apply step_keeps_heartbeat_off; [done|]; discriminate.
Qed.

(** ** What a step leaves alone *)

Lemma same_elements_stable (P : gmap string Element -> Prop) :
  stable (fun q => P (dom q)).
Proof. split; intros [] *; done. Qed.

(** A write to the document changes an element that is there. *)
Ltac element_kept :=
  let q := fresh in let H := fresh in
  intros q H; destruct q;
  cbn [dom set_dom set_out set_lastGeo set_visitPingTimer set_timers set_listeners
       set_pending set_next_id set_microtasks set_loaded set_visibilityState] in *;
  rewrite ?lookup_alter_is_Some; exact H.

Lemma step_same_elements s p e id :
  is_Some (dom (step s p e) !! id) <-> is_Some (dom p !! id).
Proof.
  apply (step_keeps (fun q => is_Some (dom q !! id) <-> is_Some (dom p !! id)) s
                    (same_elements_stable (fun d => is_Some (d !! id) <-> _))); [..|done].
  - intros k r. destruct k; keeps_run element_kept.
  - intros cb. destruct cb, s; keeps_run element_kept.
  - intros _. keeps_run element_kept.
  - intros st m Hm. destruct st, e; try discriminate;
      injection Hm as <-; destruct s; keeps_run element_kept.
Qed.

Lemma DOMContentLoaded_or_not e : e = DOMContentLoaded \/ e <> DOMContentLoaded.
Proof. destruct e; by (left + right). Qed.

Lemma step_loaded s p e :
  loaded (step s p e)
  = loaded p || match e with DOMContentLoaded => true | _ => false end.
Proof.
  assert (forall b k r, keeps (fun q => loaded q = b) (resume k r)) as Hresume.
  { intros b k r. destruct k; keeps_run untouched. }
  destruct (DOMContentLoaded_or_not e) as [->|He].
  - rewrite orb_true_r. unfold step.
    apply (drain_frame (fun q => loaded q = true) s); [intros [] *; done|apply Hresume|].
    unfold react. destruct (loaded p) eqn:Hl; [done|].
    assert (keeps (fun q => loaded q = true) onDOMContentLoaded) as Hk
      by keeps_run untouched.
    apply Hk. by destruct p.
  - transitivity (loaded p); [|by destruct e, (loaded p)].
    apply (step_frame (fun q => loaded q = loaded p) s);
      try (intros [] *; done); [..|done].
    + intros cb. destruct cb, s; keeps_run untouched.
    + intros Hd. by destruct He.
    + intros a st m Ha Hst Hm. destruct st, e; try discriminate;
        injection Hm as <-; destruct s; keeps_run untouched.
Qed.

(** Only [initPortal] registers a listener on an element. *)
Ltac same_element_listeners :=
  let q := fresh in let H := fresh in
  intros q H; destruct q; unfold element_listeners in *;
  cbn [listeners set_dom set_out set_lastGeo set_visitPingTimer set_timers set_listeners
       set_pending set_next_id set_microtasks set_loaded set_visibilityState] in *;
  rewrite ?List.filter_app; cbn [List.filter lifecycle target negb];
  rewrite ?app_nil_r; exact H.

Lemma step_keeps_element_listeners s p e :
  e <> DOMContentLoaded -> element_listeners (step s p e) = element_listeners p.
Proof.
  intros He.
  apply (step_frame (fun q => element_listeners q = element_listeners p) s);
    try (intros [] *; done); [..|done].
  - intros k r. destruct k; keeps_run same_element_listeners.
  - intros cb. destruct cb, s; keeps_run same_element_listeners.
  - intros Hd. by destruct He.
  - intros a st m Ha Hst Hm. destruct st, e; try discriminate;
      injection Hm as <-; destruct s; keeps_run same_element_listeners.
Qed.

(** Once the document is ready, the accept button has its one click
    listener, if the document has the button. *)
Lemma click_listener_registered s p :
  reachable s p -> loaded p = true ->
  element_listeners p
  = match dom p !! "accept-btn" with Some _ => [click_listener] | None => [] end.
Proof.
  induction 1 as [nav h v d | p e Hr IH]; [discriminate|].
  intros Hl. rewrite step_loaded in Hl.
  pose proof (step_same_elements s p e "accept-btn") as Hd.
  destruct (loaded p) eqn:Hlp.
  - specialize (IH eq_refl).
    assert (element_listeners (step s p e) = element_listeners p) as ->.
    { destruct (DOMContentLoaded_or_not e) as [->|He];
        [|by apply step_keeps_element_listeners].
      unfold step, react. rewrite Hlp.
      pose proof (reachable_Inv s p Hr) as (Hmq & _). unfold drain. rewrite Hmq.
      cbn [fold_left]. by destruct p. }
    rewrite IH.
    destruct (dom p !! "accept-btn") eqn:E1, (dom (step s p e) !! "accept-btn") eqn:E2;
      try done; exfalso; apply (is_Some_None (A:=Element)), Hd; by eexists.
  - destruct e; try discriminate. clear IH Hl.
    pose proof (reachable_Inv s p Hr) as HI. clear Hr.
    destruct (dom (step s p DOMContentLoaded) !! "accept-btn") eqn:E2.
    + assert (is_Some (dom p !! "accept-btn")) as [el E1] by (apply Hd; by eexists).
      clear E2 Hd. open_inv HI p. cbn [loaded dom] in *. subst ld.
      destruct Hclick as (-> & -> & -> & ->). unfold element_listeners.
      go; cbn [listeners List.filter]; reflexivity.
    + assert (dom p !! "accept-btn" = None) as E1.
      { apply eq_None_not_Some. intros Hs. apply Hd in Hs.
        by apply (is_Some_None (A:=Element)). }
      clear E2 Hd. open_inv HI p. cbn [loaded dom] in *. subst ld.
      destruct Hclick as (-> & -> & -> & ->). unfold element_listeners.
      go; cbn [listeners List.filter]; reflexivity.
Qed.

(** ** [$], [setStatus] and [setAcceptStatus] *)

Lemma write_text_missing id text p :
  dom p !! id = None ->
  (el ← getElement id; set_textContent el text) p = (p, inl (not_found id)).
Proof.
  intros Hid. destruct p as [nav hrs ld vs dm lg vt ts nt ls pd ni mq o].
  cbn in Hid. munfold. by rewrite Hid.
Qed.

Lemma write_text_present id text p :
  is_Some (dom p !! id) ->
  let m := (el ← getElement id; set_textContent el text) in
  snd (m p) = inr tt
  /\ text_of id (exec m p) = Some text
  /\ attributes <$> dom (exec m p) !! id = attributes <$> dom p !! id
  /\ (forall id', id' <> id -> dom (exec m p) !! id' = dom p !! id')
  /\ outside_dom (exec m p) = outside_dom p
  /\ forall text', exec (el ← getElement id; set_textContent el text') (exec m p)
                   = exec (el ← getElement id; set_textContent el text') p.
Proof.
  intros [el Hid]. destruct p as [nav hrs ld vs dm lg vt ts nt ls pd ni mq o].
  cbn in Hid. cbv zeta. unfold text_of.
  munfold. rewrite Hid. cbn [fst snd dom]. rewrite lookup_alter_eq, Hid. cbn.
  repeat split.
  - intros id' Hne. by rewrite lookup_alter_ne.
  - intros text'. f_equal.
    apply map_eq. intros k. destruct (decide (k = id)) as [->|Hk].
    + rewrite !lookup_alter_eq, Hid. done.
    + by rewrite !lookup_alter_ne.
Qed.

(** X1.  [$] and the two status writers.  [setStatus(text)] on a document
    without the [status] element throws, from [$], the [Error] whose
    message names the id, and changes nothing.  On a document that has
    the element it returns normally; afterwards the element's text is
    [text], its other attributes and every other element are as before,
    nothing outside the document has changed, and a later write
    overrides it completely (the last write wins).  The same holds of
    [setAcceptStatus] and the [accept-status] element. *)
Theorem status_writers (text : string) (p : Page) :
  (dom p !! "status" = None -> setStatus text p = (p, inl (not_found "status")))
  /\ (dom p !! "accept-status" = None ->
      setAcceptStatus text p = (p, inl (not_found "accept-status")))
  /\ (is_Some (dom p !! "status") ->
      snd (setStatus text p) = inr tt
      /\ text_of "status" (exec (setStatus text) p) = Some text
      /\ attributes <$> dom (exec (setStatus text) p) !! "status"
         = attributes <$> dom p !! "status"
      /\ (forall id, id <> "status" -> dom (exec (setStatus text) p) !! id = dom p !! id)
      /\ outside_dom (exec (setStatus text) p) = outside_dom p
      /\ forall text', exec (setStatus text') (exec (setStatus text) p)
                       = exec (setStatus text') p)
  /\ (is_Some (dom p !! "accept-status") ->
      snd (setAcceptStatus text p) = inr tt
      /\ text_of "accept-status" (exec (setAcceptStatus text) p) = Some text
      /\ attributes <$> dom (exec (setAcceptStatus text) p) !! "accept-status"
         = attributes <$> dom p !! "accept-status"
      /\ (forall id, id <> "accept-status" ->
                     dom (exec (setAcceptStatus text) p) !! id = dom p !! id)
      /\ outside_dom (exec (setAcceptStatus text) p) = outside_dom p
      /\ forall text', exec (setAcceptStatus text') (exec (setAcceptStatus text) p)
                       = exec (setAcceptStatus text') p).
Proof.
  split; [apply write_text_missing|]. split; [apply write_text_missing|].
  split; intros Hid.
  - exact (write_text_present "status" text p Hid).
  - exact (write_text_present "accept-status" text p Hid).
Qed.

(** ** [requestAd] on an incomplete document *)

(** X2.  [requestAd] looks up its six elements, and [setStatus] the
    [status] element, before the [try] block.  If one of the seven is
    missing, the call ends there: it throws the [Error] naming the first
    missing id (so the promise of the [async] function is rejected), no
    request is sent and the page is unchanged; in particular none of the
    three panels is touched and no error is shown.  If all seven are
    there, the call writes the status text, sends exactly one request,
    carrying the coordinates it was given, the user agent and the local
    hour, and is suspended on the fetch. *)
Theorem requestAd_needs_its_elements (latitude longitude : option Q) (p : Page) :
  (forall id, List.find (missing p) requestAd_ids = Some id ->
     requestAd latitude longitude p = (p, inl (not_found id)))
  /\ (List.find (missing p) requestAd_ids = None ->
      let p' := exec (requestAd latitude longitude) p in
      snd (requestAd latitude longitude p) = inr Suspended
      /\ out p' = (out p ++ [ad_request latitude longitude p])%list
      /\ pending p' = <[next_id p := AwaitAdFetch]> (pending p)
      /\ text_of "status" p' = Some "正在获取推荐广告..."
      /\ (forall id, id <> "status" -> dom p' !! id = dom p !! id)).
Proof.
  destruct p as [nav hrs ld vs dm lg vt ts nt ls pd ni mq o].
  unfold requestAd_ids, missing, ad_request, text_of. cbn [List.find dom].
  destruct (dm !! "ad-card") eqn:E1.
  2: { split; [|done]. intros id [= <-]. munfold. by rewrite E1. }
  destruct (dm !! "ad-title") eqn:E2.
  2: { split; [|done]. intros id [= <-]. munfold. by rewrite E1, E2. }
  destruct (dm !! "ad-image") eqn:E3.
  2: { split; [|done]. intros id [= <-]. munfold. by rewrite E1, E2, E3. }
  destruct (dm !! "ad-link") eqn:E4.
  2: { split; [|done]. intros id [= <-]. munfold. by rewrite E1, E2, E3, E4. }
  destruct (dm !! "empty") eqn:E5.
  2: { split; [|done]. intros id [= <-]. munfold. by rewrite E1, E2, E3, E4, E5. }
  destruct (dm !! "error") eqn:E6.
  2: { split; [|done]. intros id [= <-]. munfold. by rewrite E1, E2, E3, E4, E5, E6. }
  destruct (dm !! "status") eqn:E7.
  2: { split; [|done]. intros id [= <-]. munfold. by rewrite E1, E2, E3, E4, E5, E6, E7. }
  split; [done|]. intros _. cbv zeta.
  munfold. rewrite E1, E2, E3, E4, E5, E6, E7. cbn.
  rewrite lookup_alter_eq, E7. repeat split.
  intros id Hid. by rewrite lookup_alter_ne.
Qed.

(** ** The [DOMContentLoaded] listener *)

Lemma wp_result {A} (m : M A) (Q : Page -> Exn + A -> Prop) p :
  wp m Q p -> Q (exec m p) (snd (m p)).
Proof. exact (fun H => H). Qed.

(** X3.  The listener wraps [initPortal] in [try]/[catch], and the
    [catch] clause itself writes the status.  So an exception escapes
    the listener exactly when the document has no [status] element, and
    then it is the [Error] naming [status].  With the [status] element
    but without the accept button, the listener logs the [Error] naming
    [accept-btn], shows the text of a failed initialisation, and
    registers no listener and starts no operation.  With both, it
    registers the click listener and logs nothing, whatever else the
    document lacks: a failure of the ad request it starts is a rejected
    promise that nobody handles, not an exception. *)
Theorem onDOMContentLoaded_contains_failure (p : Page) :
  (is_Some (dom p !! "status") -> snd (onDOMContentLoaded p) = inr tt)
  /\ (dom p !! "status" = None ->
      snd (onDOMContentLoaded p) = inl (not_found "status"))
  /\ (is_Some (dom p !! "status") -> dom p !! "accept-btn" = None ->
      let p' := exec onDOMContentLoaded p in
      text_of "status" p' = Some "初始化失败"
      /\ out p' = (out p ++ [Console "error" "Init portal error:"
                                     (LogExn (not_found "accept-btn"))])%list
      /\ listeners p' = listeners p
      /\ pending p' = pending p)
  /\ (is_Some (dom p !! "status") -> is_Some (dom p !! "accept-btn") ->
      let p' := exec onDOMContentLoaded p in
      listeners p' = (listeners p ++ [click_listener])%list
      /\ console_of p' = console_of p).
Proof.
  destruct p as [nav hrs ld vs dm lg vt ts nt ls pd ni mq o].
  cbn [dom]. unfold text_of, not_found.
  split; [|split; [|split]].
  - intros [st Hst].
    apply (wp_result onDOMContentLoaded (fun _ r => r = inr tt)).
    wp_run; reflexivity.
  - intros Hst.
    apply (wp_result onDOMContentLoaded (fun _ r => r = inl _)).
    wp_run; reflexivity.
  - intros [st Hst] Hbtn. cbv zeta. loop_step.
    cbn [dom out listeners pending]. look. done.
  - intros [st Hst] [btn Hbtn]. cbv zeta. loop_step.
    all: unfold console_of; cbn [listeners out]; rewrite ?omap_app; cbn [omap];
      rewrite ?app_nil_r.
    all: split; reflexivity.
Qed.

(** ** What [requestAd] shows *)

Ltac show_ad :=
  unfold text_of, console_of, requestAd_log, requestAd_error, outcome,
    shows_as_ad, converts;
  cbn [dom out status]; look;
  repeat match goal with
         | H : (_ =? _) = _ |- _ => rewrite H
         | H : ok _ = _ |- _ => rewrite H
         | H : nullish _ = _ |- _ => rewrite H
         | H : get_prop _ _ = _ |- _ => rewrite H
         | H : to_textContent _ = _ |- _ => rewrite H
         | H : ToString _ = _ |- _ => rewrite H
         end;
  cbn [first_thrown negb andb];
  rewrite ?omap_app; cbn [omap negb]; rewrite ?app_nil_r;
  cbn [textContent src alt href];
  repeat split; intros;
  try match goal with
      | H : Replied _ (inr _) = Replied _ (inr _) |- _ => injection H as ? ?; subst
      end;
  first [ discriminate | reflexivity
        | do 4 eexists; repeat split; first [eassumption | reflexivity]
        | match goal with
          | Hn : nullish ?d = _ |- _ => destruct d; first [discriminate | reflexivity]
          end ].

(** X4.  What the page shows once [requestAd] has run to its end, on a
    document with the elements the script looks up.  The status line
    reads: no targeted ad, for status 204; ad matched, when the card is
    shown; loading failed, in the error state.  In the Found state the
    card is filled from the body, each field converted to a string: the
    title is the text of [ad-title] and the [alt] of the image,
    [image_url] the [src] of the image and [target_url] the [href] of
    the link (a field the body lacks reads [undefined], which clears the
    text and is the string [undefined] in an attribute).  The console
    gets one entry exactly when the call ends in the error state, and it
    holds the exception that led there; for a body with a field that
    cannot be converted, the [TypeError] of the first assignment that
    fails. *)
Theorem requestAd_renders (s : Script) (latitude longitude : option Q)
    (reply : Reply) (p : Page) :
  page_ok p -> microtasks p = [] -> fresh_ids p ->
  let p' := requestAd_run s latitude longitude reply p in
  console_of p' = (console_of p ++ requestAd_log reply)%list
  /\ (outcome reply = AdEmpty ->
      text_of "status" p' = Some "当前没有匹配到定向广告，展示通用提示。")
  /\ (outcome reply = AdError -> text_of "status" p' = Some "加载广告失败")
  /\ (outcome reply = AdFound -> text_of "status" p' = Some "已为你匹配到专属广告")
  /\ (forall response data,
      reply = Replied response (inr data) -> outcome reply = AdFound ->
      exists text image label target,
        to_textContent (field data "title") = inr text
        /\ ToString (field data "image_url") = inr image
        /\ ToString (field data "title") = inr label
        /\ ToString (field data "target_url") = inr target
        /\ text_of "ad-title" p' = Some text
        /\ src <$> dom p' !! "ad-image" = Some image
        /\ alt <$> dom p' !! "ad-image" = Some label
        /\ href <$> dom p' !! "ad-link" = Some target).
Proof.
  intros Hok Hmq Hfresh.
  pose proof (fresh_ids_None p (S (next_id p)) Hfresh ltac:(lia)) as HS.
  open_page p. open_page_ok Hok. subst mq. cbv zeta.
  unfold requestAd_run, reply_events.
  loop_step.
  destruct reply as [reason | response [reason | data]].
  - loop_run. show_ad.
  - destruct (status response =? 204) eqn:E204; [|destruct (ok response) eqn:Eok];
      loop_run; show_ad.
  - destruct (status response =? 204) eqn:E204; [|destruct (ok response) eqn:Eok].
    1,3: loop_run; show_ad.
    destruct (nullish data) eqn:Hn.
    + pose proof (get_prop_nullish data "title" Hn) as Ht. loop_run. show_ad.
    + pose proof (get_prop_defined data "title" Hn) as Ht.
      convert_fields data; loop_run; show_ad.
Qed.

Lemma requestAd_renders_witness :
  page_ok sample_page /\ microtasks sample_page = [] /\ fresh_ids sample_page
  /\ outcome (Replied (mkResponse 200 "OK") (inr sample_ad)) = AdFound
  /\ console_of (requestAd_run portal_js None None
                               (Replied (mkResponse 200 "OK") (inr sample_ad)) sample_page)
     = (console_of sample_page
        ++ requestAd_log (Replied (mkResponse 200 "OK") (inr sample_ad)))%list
  /\ text_of "status" (requestAd_run portal_js None None
                                     (Replied (mkResponse 200 "OK") (inr sample_ad))
                                     sample_page)
     = Some "已为你匹配到专属广告".
Proof.
  pose proof (requestAd_renders portal_js None None
                (Replied (mkResponse 200 "OK") (inr sample_ad)) sample_page
                page_ok_sample eq_refl fresh_ids_sample) as (Hlog & _ & _ & Hfound & _).
  split; [exact page_ok_sample|]. split; [reflexivity|]. split; [exact fresh_ids_sample|].
  split; [reflexivity|]. split; [exact Hlog | exact (Hfound eq_refl)].
Defined.

(** ** The status line during initialisation *)

(** X5.  [initPortal] and its two geolocation callbacks write a status
    text and then call [requestAd], whose first act is to write the
    status itself.  So on a document with the required elements the
    texts about the missing capability, the position found and the
    position error are overwritten in the same task: after
    [DOMContentLoaded] the status reads that the position is being
    requested, with geolocation, or that the ad is being fetched,
    without; and after the position request settles, either way, it
    reads that the ad is being fetched. *)
Theorem initPortal_status_is_overwritten (s : Script) (p : Page) :
  reachable s p -> page_ok p ->
  (loaded p = false ->
   text_of "status" (step s p DOMContentLoaded)
   = Some (if geolocation (navigator p) then "正在请求位置信息..."
           else "正在获取推荐广告..."))
  /\ (forall a e, pending p !! a = Some AwaitInitGeo ->
      (exists pos, e = GeoSuccess a pos) \/ (exists err, e = GeoError a err) ->
      text_of "status" (step s p e) = Some "正在获取推荐广告...").
Proof.
  intros Hr Hok. pose proof (reachable_Inv s p Hr) as HI. clear Hr.
  open_inv HI p. open_page_ok Hok. cbn [loaded navigator pending]. unfold text_of. split.
  - intros ->. destruct Hclick as (-> & -> & -> & ->).
    go; cbn [dom]; look; reflexivity.
  - intros a e Ha [[pos ->] | [err ->]]; go; cbn [dom]; look; reflexivity.
Qed.

Lemma initPortal_status_is_overwritten_witness :
  reachable portal_js page_locating /\ page_ok page_locating
  /\ pending page_locating !! O = Some AwaitInitGeo
  /\ text_of "status" (step portal_js page_locating
                            (GeoError O (mkPositionError 1 "User denied Geolocation")))
     = Some "正在获取推荐广告...".
Proof.
  split; [apply reach_step, reach_initial|].
  split; [apply step_keeps_page_ok, page_ok_sample|].
  split; [vm_compute; reflexivity|].
  apply (proj2 (initPortal_status_is_overwritten portal_js page_locating
                  (reach_step _ _ _ (reach_initial _ _ _ _ _))
                  (step_keeps_page_ok _ _ _ page_ok_sample)) O).
  - vm_compute; reflexivity.
  - right. by eexists.
Defined.

(** ** The heartbeat's ticks *)

(** X6.  Every tick of the heartbeat's timer makes exactly one call of
    [postVisitPing] for a ping and none for a leave, and leaves the
    timer running.  With a cached fix the ping goes out at once, by a
    keepalive fetch that carries the fix, and no position is asked for;
    without one, and with geolocation, the tick asks for a position
    under the CACHED policy and sends nothing yet; without one and
    without geolocation the ping goes out at once with [null]s.  A tick
    of any other timer handle does nothing. *)
Theorem heartbeat_tick (s : Script) (p : Page) (h : nat) :
  reachable s p -> visitPingTimer p = Some h ->
  let p' := step s p (TimerFire h) in
  dispatched ping p' = S (dispatched ping p)
  /\ dispatched leave p' = dispatched leave p
  /\ visitPingTimer p' = Some h
  /\ timers p' = timers p
  /\ out p' = (out p ++
               match lastGeo p with
               | Some geo => [ping_request ping (Some geo)]
               | None => if geolocation (navigator p)
                         then [GetCurrentPosition CACHED]
                         else [ping_request ping None]
               end)%list
  /\ (forall h', h' <> h -> step s p (TimerFire h') = p).
Proof.
  intros Hr Hh. pose proof (reachable_Inv s p Hr) as HI. clear Hr.
  open_inv HI p. cbn [visitPingTimer] in Hh. subst vt. destruct Hhb as [-> Hls].
  cbv zeta. unfold ping_request, heartbeat_payload.
  cbn [lastGeo navigator out timers visitPingTimer].
  split; [|split; [|split; [|split; [|split]]]].
  6: { intros h' Hne. do 2 loop_step. unfold firing. cbn [timers List.filter handle].
       destruct (Nat.eqb_spec h h') as [->|_]; [done|]. cbn [map]. go. reflexivity. }
  all: do 2 loop_step; unfold firing; cbn [timers List.filter handle];
    rewrite Nat.eqb_refl; cbn [map handler].
  all: go; view_goal; first [reflexivity | lia].
Qed.

Lemma heartbeat_tick_witness :
  reachable portal_js page_joined /\ visitPingTimer page_joined = Some 1%nat
  /\ dispatched ping (step portal_js page_joined (TimerFire 1))
     = S (dispatched ping page_joined).
Proof.
  split; [apply reachable_run, reach_initial|]. split; [vm_compute; reflexivity|].
  exact (proj1 (heartbeat_tick portal_js page_joined 1
                  (reachable_run _ _ _ (reach_initial _ _ _ _ _)) eq_refl)).
Defined.

(** ** The click on the accept button *)

(** On a loaded page whose button is enabled, the click reaches
    [acceptPortal] once, and no call is in flight. *)
Ltac open_click HI Hr Hl Hdis p :=
  let Hlis := fresh "Hlis" in
  pose proof (click_listener_registered _ p Hr Hl) as Hlis;
  unfold is_disabled in Hdis; unfold element_listeners in Hlis;
  open_inv HI p; cbn [dom listeners] in Hdis, Hlis.

Ltac click_once Hdis Hlis :=
  do 2 loop_step; look; rewrite Hdis; unfold dispatch; rewrite listening_element;
  unfold element_listeners; cbn [listeners]; rewrite Hlis;
  listener_callbacks.

Lemma no_call_in_flight (pd : gmap nat Await) (b : bool) :
  (count_ops is_accept_op pd <= 1)%nat ->
  (count_ops is_accept_op pd = 1%nat -> b = true) -> b = false ->
  count_ops is_accept_op pd = O.
Proof.
  intros Hle Hone ->. destruct (count_ops is_accept_op pd) as [|[|n]]; [done| |lia].
  by specialize (Hone eq_refl).
Qed.

(** X7.  The request of the canonical [acceptPortal].  A click on the
    enabled button of a loaded page with the required elements disables
    the button, shows that the request is being submitted, and starts
    exactly one call.  With a cached fix the accept request goes out at
    once and carries the fix; without one and with geolocation the call
    asks for a position under the CACHED policy and sends no accept
    request yet; without one and without geolocation the accept request
    goes out at once with [null]s.  When the position request of a
    waiting call settles, the accept request goes out: with the new fix
    on success, with [null]s on an error. *)
Theorem acceptPortal_request (p : Page) :
  reachable portal_js p -> page_ok p ->
  (loaded p = true -> is_disabled "accept-btn" p = false ->
   let p' := step portal_js p (Click "accept-btn") in
   is_disabled "accept-btn" p' = true
   /\ text_of "accept-status" p' = Some "正在提交认证..."
   /\ ops is_accept_op p' = 1%nat
   /\ out p' = (out p ++
                match lastGeo p with
                | Some geo => [accept_request (Some geo)]
                | None => if geolocation (navigator p)
                          then [GetCurrentPosition CACHED]
                          else [accept_request None]
                end)%list)
  /\ (forall a pos, pending p !! a = Some (AwaitTryGetGeo KAccept) ->
      out (step portal_js p (GeoSuccess a pos))
      = (out p ++ [accept_request (Some (fix_of pos))])%list)
  /\ (forall a err, pending p !! a = Some (AwaitTryGetGeo KAccept) ->
      out (step portal_js p (GeoError a err)) = (out p ++ [accept_request None])%list).
Proof.
  intros Hr Hok. pose proof (reachable_Inv _ p Hr) as HI.
  unfold accept_request, fix_of. split; [|split].
  - intros Hl Hdis. open_click HI Hr Hl Hdis p. open_page_ok Hok. clear Hr.
    cbn [loaded] in Hl. subst ld.
    match goal with
    | H : dm !! "accept-btn" = Some _ |- _ =>
        rewrite H in Hdis; rewrite H in Hlis; rewrite H in Hmutex
    end.
    destruct Hmutex as [Hm1 Hm2].
    pose proof (no_call_in_flight pd _ Hm1 Hm2 Hdis) as Hm0.
    cbv zeta. cbn [lastGeo navigator out]. unfold is_disabled, text_of.
    click_once Hdis Hlis.
    go; view_goal; cbn [dom]; look; cbn [disabled textContent]; repeat split;
      first [reflexivity | lia].
  - clear Hr. intros a pos Ha. open_inv HI p. open_page_ok Hok. cbn [pending] in Ha.
    go. reflexivity.
  - clear Hr. intros a err Ha. open_inv HI p. open_page_ok Hok. cbn [pending] in Ha.
    go. reflexivity.
Qed.

Lemma acceptPortal_request_witness :
  reachable portal_js page_locating /\ page_ok page_locating
  /\ loaded page_locating = true /\ is_disabled "accept-btn" page_locating = false
  /\ is_disabled "accept-btn" (step portal_js page_locating (Click "accept-btn")) = true.
Proof.
  split; [apply reach_step, reach_initial|].
  split; [apply step_keeps_page_ok, page_ok_sample|].
  split; [vm_compute; reflexivity|]. split; [vm_compute; reflexivity|].
  refine (proj1 (proj1 (acceptPortal_request page_locating
                          (reach_step _ _ _ (reach_initial _ _ _ _ _))
                          (step_keeps_page_ok _ _ _ page_ok_sample)) _ _)).
  - vm_compute; reflexivity.
  - vm_compute; reflexivity.
Defined.

(** ** How the canonical [acceptPortal] reports a failure *)

Ltac show_accept :=
  unfold text_of, console_of, is_disabled; cbn [dom out]; look;
  rewrite ?omap_app; cbn [omap]; rewrite ?app_nil_r; cbn [textContent disabled];
  repeat split; first [reflexivity | congruence].

(** X8.  The canonical build tells a failed request from a refused join.
    When the request fails, the response status is outside 2xx, the body
    fails to parse, or the body is [null], the call throws into its
    [catch] clause: the console gets the exception (the rejection
    reason, [Error: HTTP <status>], the parse error, or the [TypeError]
    of reading [ok]) and the status asks to retry later.  When the body
    parses and its [ok] is falsy or absent, nothing is thrown or logged
    and the status reports an abnormal return state. *)
Theorem acceptPortal_failure_messages (p : Page) :
  reachable portal_js p -> page_ok p ->
  (forall a reason, pending p !! a = Some AwaitAcceptFetch ->
     let p' := step portal_js p (FetchReject a reason) in
     text_of "accept-status" p' = Some "认证失败，请稍后重试。"
     /\ console_of p'
        = (console_of p ++ [("error", "accept portal error:", LogExn reason)])%list)
  /\ (forall a res, pending p !! a = Some AwaitAcceptFetch -> ok res = false ->
     let p' := step portal_js p (FetchResolve a res) in
     text_of "accept-status" p' = Some "认证失败，请稍后重试。"
     /\ console_of p'
        = (console_of p ++ [("error", "accept portal error:",
                             LogExn (Error ("HTTP " +:+ pretty (status res))))])%list)
  /\ (forall a reason, pending p !! a = Some AwaitAcceptJson ->
     let p' := step portal_js p (JsonReject a reason) in
     text_of "accept-status" p' = Some "认证失败，请稍后重试。"
     /\ console_of p'
        = (console_of p ++ [("error", "accept portal error:", LogExn reason)])%list)
  /\ (forall a data e, pending p !! a = Some AwaitAcceptJson ->
     get_prop data "ok" = inl e ->
     let p' := step portal_js p (JsonResolve a data) in
     text_of "accept-status" p' = Some "认证失败，请稍后重试。"
     /\ console_of p'
        = (console_of p ++ [("error", "accept portal error:", LogExn e)])%list)
  /\ (forall a data v, pending p !! a = Some AwaitAcceptJson ->
     get_prop data "ok" = inr v -> truthy v = false ->
     let p' := step portal_js p (JsonResolve a data) in
     text_of "accept-status" p' = Some "认证失败：返回状态异常。"
     /\ console_of p' = console_of p).
Proof.
  intros Hr Hok. pose proof (reachable_Inv _ p Hr) as HI. clear Hr.
  open_inv HI p. open_page_ok Hok. cbn [pending]. cbv zeta.
  split; [|split; [|split; [|split]]].
  - intros a reason Ha. go. show_accept.
  - intros a res Ha Hres. go. show_accept.
  - intros a reason Ha. go. show_accept.
  - intros a data e Ha He.
    destruct (nullish data) eqn:Hn;
      [|rewrite (get_prop_defined _ _ Hn) in He; discriminate].
    rewrite (get_prop_nullish _ _ Hn) in He. injection He as <-.
    go. show_accept.
  - intros a data v Ha Hv Hf.
    destruct (nullish data) eqn:Hn;
      [rewrite (get_prop_nullish _ _ Hn) in Hv; discriminate|].
    rewrite (get_prop_defined _ _ Hn) in Hv. injection Hv as <-.
    go. show_accept.
Qed.

Lemma acceptPortal_failure_messages_witness :
  reachable portal_js (page_accepting portal_js)
  /\ page_ok (page_accepting portal_js)
  /\ pending (page_accepting portal_js) !! 1%nat = Some AwaitAcceptFetch
  /\ text_of "accept-status"
       (step portal_js (page_accepting portal_js)
             (FetchReject 1 (TypeError "Failed to fetch")))
     = Some "认证失败，请稍后重试。".
Proof.
  split; [apply reachable_run, reach_initial|].
  split; [apply run_keeps_page_ok, page_ok_without_geolocation|].
  split; [vm_compute; reflexivity|].
  refine (proj1 (proj1 (acceptPortal_failure_messages (page_accepting portal_js)
                          (reachable_run _ _ _ (reach_initial _ _ _ _ _))
                          (run_keeps_page_ok _ _ _ page_ok_without_geolocation))
                       1%nat (TypeError "Failed to fetch") _)).
  vm_compute; reflexivity.
Defined.

(** ** [acceptPortal] of the other build *)

(** X9.  The other build's [acceptPortal].  A click on the enabled
    button of a loaded page with the required elements disables the
    button, shows that the request is being submitted and sends the
    accept request at once, with an empty object for a body and without
    asking for a position.  A failed request is logged and reported as
    a network or server error.  A response outside 2xx is logged with
    its status and reported with the status code, and its body is not
    read.  After a 2xx response the join counts as made unless the body
    is truthy and its [is_authenticated] is exactly [false]: a body that
    fails to parse is logged as a warning and is a success, and so is
    any body without the field.  Each of these ends the call with the
    button enabled. *)
Theorem Part000_acceptPortal_outcomes (p : Page) :
  reachable part_000 p -> page_ok p ->
  (loaded p = true -> is_disabled "accept-btn" p = false ->
   let p' := step part_000 p (Click "accept-btn") in
   is_disabled "accept-btn" p' = true
   /\ text_of "accept-status" p' = Some "正在提交认证..."
   /\ out p' = (out p ++ [Fetch "/api/v1/portal/accept/" BodyEmptyObject false])%list
   /\ pending p' = <[next_id p := AwaitAcceptFetch]> (pending p))
  /\ (forall a reason, pending p !! a = Some AwaitAcceptFetch ->
     let p' := step part_000 p (FetchReject a reason) in
     text_of "accept-status" p' = Some "认证失败：网络异常或服务器错误。"
     /\ console_of p'
        = (console_of p ++ [("error", "accept portal error:", LogExn reason)])%list
     /\ is_disabled "accept-btn" p' = false)
  /\ (forall a res, pending p !! a = Some AwaitAcceptFetch -> ok res = false ->
     let p' := step part_000 p (FetchResolve a res) in
     text_of "accept-status" p' = Some ("认证失败：返回状态 " +:+ pretty (status res))
     /\ console_of p'
        = (console_of p ++ [("error", "portal accept http error:",
                             LogStatus (status res) (statusText res))])%list
     /\ is_disabled "accept-btn" p' = false
     /\ pending p' = delete a (pending p))
  /\ (forall a reason, pending p !! a = Some AwaitAcceptJson ->
     let p' := step part_000 p (JsonReject a reason) in
     text_of "accept-status" p' = Some "认证成功，你可以继续访问互联网。"
     /\ console_of p'
        = (console_of p ++ [("warn", "portal accept response is not valid JSON:",
                             LogExn reason)])%list
     /\ is_disabled "accept-btn" p' = false)
  /\ (forall a data, pending p !! a = Some AwaitAcceptJson ->
     let p' := step part_000 p (JsonResolve a data) in
     text_of "accept-status" p'
     = Some (if not_authenticated data then "认证未生效，请稍后重试。"
             else "认证成功，你可以继续访问互联网。")
     /\ console_of p'
        = (console_of p ++ [("log", "portal accept response:", LogVal data)])%list
     /\ is_disabled "accept-btn" p' = false).
Proof.
  intros Hr Hok. pose proof (reachable_Inv _ p Hr) as HI.
  split; [|clear Hr; open_inv HI p; open_page_ok Hok; cbn [pending]; cbv zeta;
           split; [|split; [|split]]].
  - intros Hl Hdis. open_click HI Hr Hl Hdis p. open_page_ok Hok. clear Hr.
    cbn [loaded] in Hl. subst ld.
    match goal with
    | H : dm !! "accept-btn" = Some _ |- _ => rewrite H in Hdis; rewrite H in Hlis
    end.
    cbv zeta. cbn [out pending next_id].
    click_once Hdis Hlis.
    go. show_accept.
  - intros a reason Ha. go. show_accept.
  - intros a res Ha Hres. go. show_accept.
  - intros a reason Ha. go. show_accept.
  - intros a data Ha. unfold not_authenticated.
    destruct (truthy data) eqn:Ht.
    + pose proof (get_prop_truthy data "is_authenticated" Ht) as Hp.
      destruct (field data "is_authenticated") as [| |[|]| | | |] eqn:Hf;
        go; show_accept.
    + go. show_accept.
Qed.

Lemma Part000_acceptPortal_outcomes_witness :
  reachable part_000 (page_accepting part_000)
  /\ page_ok (page_accepting part_000)
  /\ pending (page_accepting part_000) !! 1%nat = Some AwaitAcceptFetch
  /\ text_of "accept-status"
       (step part_000 (page_accepting part_000)
             (FetchReject 1 (TypeError "Failed to fetch")))
     = Some "认证失败：网络异常或服务器错误。".
Proof.
  split; [apply reachable_run, reach_initial|].
  split; [apply run_keeps_page_ok, page_ok_without_geolocation|].
  split; [vm_compute; reflexivity|].
  refine (proj1 (proj1 (proj2 (Part000_acceptPortal_outcomes (page_accepting part_000)
                                 (reachable_run _ _ _ (reach_initial _ _ _ _ _))
                                 (run_keeps_page_ok _ _ _ page_ok_without_geolocation)))
                       1%nat (TypeError "Failed to fetch") _)).
  vm_compute; reflexivity.
Defined.

(** ** The accept button on a document without the status element *)

(** X10.  The canonical [acceptPortal] disables the button and writes
    the status before it enters its [try] block.  On a loaded page that
    has the button but no [accept-status] element, a click therefore
    disables the button and then throws out of the call, past the
    [finally] clause that would enable it again: the button is left
    disabled with no call in flight and no request sent, and a further
    click does nothing.  The other build looks up both elements before
    it touches the button, so there the click changes nothing at all. *)
Theorem acceptPortal_without_status_element (s : Script) (p : Page) :
  reachable s p -> loaded p = true ->
  is_Some (dom p !! "accept-btn") -> dom p !! "accept-status" = None ->
  is_disabled "accept-btn" p = false ->
  let p' := step s p (Click "accept-btn") in
  match s with
  | portal_js =>
      is_disabled "accept-btn" p' = true
      /\ ops is_accept_op p' = O
      /\ out p' = out p
      /\ pending p' = pending p
      /\ step portal_js p' (Click "accept-btn") = p'
  | part_000 => p' = p
  end.
Proof.
  intros Hr Hl [btn Hbtn] Hst Hdis. pose proof (reachable_Inv _ p Hr) as HI.
  open_click HI Hr Hl Hdis p. clear Hr. cbn [loaded dom] in *. subst ld.
  rewrite Hbtn in Hdis. rewrite Hbtn in Hlis. rewrite Hbtn in Hmutex.
  destruct Hmutex as [Hm1 Hm2].
  pose proof (no_call_in_flight pd _ Hm1 Hm2 Hdis) as Hm0.
  cbv zeta. click_once Hdis Hlis.
  destruct s; go.
  - unfold is_disabled, ops. cbn [dom pending out]. look. cbn [disabled].
    split; [reflexivity|]. split; [exact Hm0|]. split; [reflexivity|].
    split; [reflexivity|]. go. look. cbn [disabled]. go. reflexivity.
  - reflexivity.
Qed.

Lemma acceptPortal_without_status_element_witness :
  reachable portal_js (page_without_accept_status portal_js)
  /\ dom (page_without_accept_status portal_js) !! "accept-status" = None
  /\ is_disabled "accept-btn"
       (step portal_js (page_without_accept_status portal_js) (Click "accept-btn")) = true.
Proof.
  split; [apply reach_step, reach_initial|]. split; [vm_compute; reflexivity|].
  refine (proj1 (acceptPortal_without_status_element portal_js
                   (page_without_accept_status portal_js)
                   (reach_step _ _ _ (reach_initial _ _ _ _ _)) _ _ _ _)).
  - vm_compute; reflexivity.
  - vm_compute. by eexists.
  - vm_compute; reflexivity.
  - vm_compute; reflexivity.
Defined.

(** ** The heartbeat over a session *)

(** X11.  Over any step of either build, from any page: a heartbeat that
    runs keeps running, with the same sentinel and the same timers (the
    script never clears the interval); and a heartbeat that is off is
    switched on only by the canonical build, and only by the body of an
    accept response whose [ok] is truthy arriving for a call that waits
    for it.  No other event starts it: not the ad flow, not a position,
    not a click, not a page-lifecycle event. *)
Theorem heartbeat_lifecycle (s : Script) (p : Page) (e : Event) :
  (forall h, visitPingTimer p = Some h ->
     visitPingTimer (step s p e) = Some h /\ timers (step s p e) = timers p)
  /\ (visitPingTimer p = None -> visitPingTimer (step s p e) <> None ->
      s = portal_js
      /\ exists a data, e = JsonResolve a data
                        /\ pending p !! a = Some AwaitAcceptJson
                        /\ accepted data = true).
Proof.
  split; [intros h; apply step_keeps_running | apply heartbeat_started_by].
Qed.

(** ** The click listener *)

(** X12.  [initPortal] registers the click listener of the accept button
    first, and it runs once per document.  So in every session: before
    the document is ready the page has no listener at all; once it is
    ready the accept button has exactly one click listener, the one
    that calls [acceptPortal], if the document has the button, and
    there is no listener on any element otherwise.  Nothing later adds
    or removes a listener on an element. *)
Theorem initPortal_registers_one_click_listener (s : Script) (p : Page) :
  reachable s p ->
  (loaded p = false -> listeners p = [])
  /\ (loaded p = true ->
      element_listeners p
      = match dom p !! "accept-btn" with Some _ => [click_listener] | None => [] end)
  /\ (forall e, e <> DOMContentLoaded ->
      element_listeners (step s p e) = element_listeners p)
  /\ (forall e, loaded p = true -> element_listeners (step s p e) = element_listeners p).
Proof.
  intros Hr. pose proof (reachable_Inv s p Hr) as HI. split; [|split; [|split]].
  - intros Hl. destruct HI as (_ & _ & _ & Hc & _). unfold click_inv in Hc.
    rewrite Hl in Hc. tauto.
  - exact (click_listener_registered s p Hr).
  - intros e He. by apply step_keeps_element_listeners.
  - intros e Hl. destruct (DOMContentLoaded_or_not e) as [->|He];
      [|by apply step_keeps_element_listeners].
    unfold step, react. rewrite Hl. destruct HI as (Hmq & _).
    unfold drain. rewrite Hmq. cbn [fold_left]. by destruct p.
Qed.

Lemma initPortal_registers_one_click_listener_witness :
  reachable portal_js page_locating
  /\ loaded page_locating = true
  /\ element_listeners page_locating = [click_listener].
Proof.
  split; [apply reach_step, reach_initial|]. split; [vm_compute; reflexivity|].
  exact (proj1 (proj2 (initPortal_registers_one_click_listener portal_js page_locating
                         (reach_step _ _ _ (reach_initial _ _ _ _ _)))) eq_refl).
Defined.

(** ** The ad display and the other flows *)

(** [$] yields the id it was asked for, if it yields anything. *)
Lemma keeps_getElement_bind {B} (I : Page -> Prop) id (f : string -> M B) :
  keeps I (f id) -> keeps I (getElement id ≫= f).
Proof.
  intros Hf q Hq. specialize (Hf q Hq). destruct q as [nav hrs ld vs dm lg vt ts nt ls pd ni mq o].
  unfold exec, getElement, mbind, M_bind, gets, mret, M_ret, throw in *. cbn [dom] in *.
  destruct (dm !! id); [exact Hf | exact Hq].
Qed.

Ltac keeps_by_id base :=
  repeat first [ apply keeps_getElement_bind | keeps_step base ].

(** A write to another element. *)
Ltac other_element :=
  let q := fresh in let H := fresh in
  intros q H; destruct q;
  cbn [dom set_dom set_out set_lastGeo set_visitPingTimer set_timers set_listeners
       set_pending set_next_id set_microtasks set_loaded set_visibilityState] in *;
  rewrite ?lookup_alter_ne by str_neq; exact H.

(** X13.  Only the ad flow writes the ad display.  A step that is not
    [DOMContentLoaded] and does not settle an operation of the ad flow
    (the position request of [initPortal], the ad request, its body)
    leaves the ad card, its title, image and link, the empty and error
    panels and the status line exactly as they were: neither a click on
    the accept button, nor anything that happens to a call of
    [acceptPortal], nor the heartbeat touches them, in either build. *)
Theorem ad_display_frame (s : Script) (p : Page) (e : Event) :
  e <> DOMContentLoaded ->
  (forall a st, settles e = Some a -> pending p !! a = Some st -> is_ad_op st = false) ->
  Forall (fun id => dom (step s p e) !! id = dom p !! id) requestAd_ids.
Proof.
  intros He Hst. unfold requestAd_ids.
  repeat (apply Forall_cons; split); [..|constructor].
  all: match goal with |- dom _ !! ?id = _ =>
         apply (step_frame (fun q => dom q !! id = dom p !! id) s);
           try (intros [] *; done); [..|done]
       end.
  all: try (intros Hd; by destruct He).
  all: try (intros k r; destruct k; keeps_by_id other_element; fail).
  all: try (intros cb; destruct cb, s; keeps_by_id other_element; fail).
  all: intros a st m Ha Hp Hm; specialize (Hst a st Ha Hp);
    destruct st, e; try discriminate; injection Hm as <-; destruct s;
    keeps_by_id other_element.
Qed.

Lemma ad_display_frame_witness :
  Click "accept-btn" <> DOMContentLoaded
  /\ Forall (fun id => dom (step portal_js page_locating (Click "accept-btn")) !! id
                       = dom page_locating !! id) requestAd_ids.
Proof.
  split; [discriminate|].
  apply (ad_display_frame portal_js page_locating (Click "accept-btn")); discriminate.
Defined.

(** ** Position requests *)







(** ** The accuracy of a cached fix *)

Lemma Math_round_bounds (x : Q) :
  (x - (1 # 2) < inject_Z (Math_round x))%Q /\ (inject_Z (Math_round x) <= x + (1 # 2))%Q.
Proof.
  unfold Math_round. split; [|apply Qfloor_le].
  pose proof (Qlt_floor (x + (1 # 2))) as H. rewrite inject_Z_plus in H.
  apply (Qplus_lt_l _ _ 1).
  assert (x - (1 # 2) + 1 == x + (1 # 2))%Q as -> by ring. exact H.
Qed.

Lemma Math_round_integer (n : Z) : Math_round (inject_Z n) = n.
Proof.
  unfold Math_round. apply Z.le_antisymm.
  - apply Z.lt_succ_r. rewrite Zlt_Qlt.
    eapply Qle_lt_trans; [apply Qfloor_le|].
    unfold Z.succ. rewrite inject_Z_plus. apply Qplus_lt_r. reflexivity.
  - rewrite <- (Qfloor_Z n) at 1. apply Qfloor_resp_le.
    rewrite <- (Qplus_0_r (inject_Z n)) at 1. apply Qplus_le_r. discriminate.
Qed.

(** X15.  The fix [tryGetGeo] caches keeps the latitude and longitude of
    the position as they are and holds the accuracy rounded to the
    nearest integer, a tie going up: the cached [accuracy_m] is more
    than [accuracy - 1/2] and at most [accuracy + 1/2], and an accuracy
    that is an integer is kept. *)
Theorem cached_accuracy_is_nearest_integer (pos : Coords) (p : Page) :
  exists geo,
    lastGeo (exec (tryGetGeo_success pos) p) = Some geo
    /\ latitude geo = coords_latitude pos
    /\ longitude geo = coords_longitude pos
    /\ (coords_accuracy pos - (1 # 2) < inject_Z (accuracy_m geo))%Q
    /\ (inject_Z (accuracy_m geo) <= coords_accuracy pos + (1 # 2))%Q
    /\ (forall n, coords_accuracy pos = inject_Z n -> accuracy_m geo = n).
Proof.
  eexists. split; [by destruct p|]. cbn [latitude longitude accuracy_m].
  split; [done|]. split; [done|].
  split; [apply Math_round_bounds|]. split; [apply Math_round_bounds|].
  intros n ->. apply Math_round_integer.
Qed.

(** ** The response to a heartbeat *)

(** X16.  [postVisitPing] awaits its fetch and then ends: whatever the
    response to a ping or leave request, and also when the request
    fails, the page shows and logs nothing, sends nothing (there is no
    retry), and keeps the heartbeat as it is; the operation is just no
    longer pending. *)
Theorem heartbeat_response_is_ignored (s : Script) (p : Page) (a : nat) (e : Event) :
  reachable s p -> pending p !! a = Some AwaitPingFetch ->
  (exists response, e = FetchResolve a response)
  \/ (exists reason, e = FetchReject a reason) ->
  step s p e = set_pending (delete a (pending p)) p.
Proof.
  intros Hr Ha He. pose proof (reachable_Inv s p Hr) as HI. clear Hr.
  open_inv HI p. cbn [pending] in Ha.
  destruct He as [[response ->] | [reason ->]]; go; reflexivity.
Qed.

Lemma heartbeat_response_is_ignored_witness :
  reachable portal_js page_joined
  /\ pending page_joined !! 4%nat = Some AwaitPingFetch
  /\ step portal_js page_joined (FetchReject 4 (TypeError "Failed to fetch"))
     = set_pending (delete 4%nat (pending page_joined)) page_joined.
Proof.
  split; [apply reachable_run, reach_initial|].
  split; [vm_compute; reflexivity|].
  apply (heartbeat_response_is_ignored portal_js page_joined 4).
  - apply reachable_run, reach_initial.
  - vm_compute; reflexivity.
  - right. by eexists.
Defined.

(** * The React ad banner *)

Module BannerFacts.
Import Banner.

Ltac open_hook h :=
  destruct h as [nav clk mt [a0 ld er dn] pd ni o];
  cbn [navigator clock mounted state pending next_id out ad loading error
       locationDenied] in *.

Ltac hook_unfold :=
  cbv beta iota zeta delta
    [fetchAd fetchAd_success fetchAd_error sendRequest sendRequest_around
     postAdRecommend postAdRecommend_response postAdRecommend_text postAdRecommend_json
     setAd setLoading setError setLocationDenied set_state emit register set_pending
     getUserAgent has_geolocation on_settled
     navigator clock mounted state pending next_id out ad loading error locationDenied].

Lemma fresh_insert_next (m : gmap nat Await) n st :
  (forall a, is_Some (m !! a) -> (a < n)%nat) ->
  forall a, is_Some (<[n := st]> m !! a) -> (a < S n)%nat.
Proof.
  intros Hm a. rewrite lookup_insert_is_Some. intros [<- | [_ Ha]]; [lia|].
  specialize (Hm a Ha). lia.
Qed.

Lemma fresh_delete_any (m : gmap nat Await) n b :
  (forall a, is_Some (m !! a) -> (a < n)%nat) ->
  forall a, is_Some (delete b m !! a) -> (a < n)%nat.
Proof. intros Hm a. rewrite lookup_delete_is_Some. intros [_ Ha]. by apply Hm. Qed.

Lemma fresh_ids_fetchAd h : fresh_ids h -> fresh_ids (fetchAd h).
Proof.
  unfold fresh_ids. intros Hf. open_hook h. hook_unfold.
  destruct nav as [[[] ? ?]|]; cbn; by apply fresh_insert_next.
Qed.

Lemma fresh_ids_step h e : fresh_ids h -> fresh_ids (step h e).
Proof.
  intros Hf. destruct e; cbn [step].
  1: { destruct (mounted h); [exact Hf|]. apply fresh_ids_fetchAd.
       unfold fresh_ids in *. by destruct h. }
  1: by apply fresh_ids_fetchAd.
  1: { destruct (AdBanner _); try exact Hf; by apply fresh_ids_fetchAd. }
  1: { unfold fresh_ids in *. by destruct h. }
  all: unfold fresh_ids in *; open_hook h; unfold settle; cbn [pending];
    destruct (pd !! a) as [st|] eqn:Ea; [|exact Hf];
    destruct st; cbn [on_settled]; try exact Hf; hook_unfold.
  - cbn. by apply fresh_insert_next, fresh_delete_any.
  - destruct (code err =? PERMISSION_DENIED); cbn;
      by apply fresh_insert_next, fresh_delete_any.
  - destruct (status response =? 204); [cbn; by apply fresh_delete_any|].
    destruct (negb (ok response)); cbn; by apply fresh_insert_next, fresh_delete_any.
  - cbn. by apply fresh_delete_any.
  - cbn. by apply fresh_delete_any.
  - cbn. by apply fresh_delete_any.
  - cbn. by apply fresh_delete_any.
  - cbn. by apply fresh_delete_any.
Qed.

Lemma reachable_any_fresh h : reachable_any h -> fresh_ids h.
Proof.
  induction 1 as [nav hour | h e _ IH]; [|by apply fresh_ids_step].
  intros a [st Hst]. cbn in Hst. by rewrite lookup_empty in Hst.
Qed.

Lemma reachable_reachable_any h : reachable h -> reachable_any h.
Proof. induction 1; by constructor. Qed.

Lemma single_flight_fetchAd nav clk a0 ld er dn ni o :
  single_flight (fetchAd (mkHook nav clk true (mkHookState a0 ld er dn) ∅ ni o)).
Proof.
  unfold single_flight. hook_unfold.
  destruct nav as [[[] ? ?]|]; cbn; (split; [|split; [done|]]).
  all: try (left; split; [done|]; eexists _, _; by rewrite insert_empty).
  all: intros a; rewrite lookup_insert_is_Some, lookup_empty;
    intros [<- | [_ [? ?]]]; [lia | done].
Qed.

Lemma single_flight_idle nav clk mt a0 er dn ni o :
  single_flight (mkHook nav clk mt (mkHookState a0 false er dn) ∅ ni o) <-> mt = true.
Proof.
  unfold single_flight. cbn. split.
  - intros (_ & _ & Hm). destruct mt; [done|]. by destruct Hm.
  - intros ->. split; [|split; [done|by right]].
    intros a [st Hst]. by rewrite lookup_empty in Hst.
Qed.

Lemma single_flight_busy nav clk a0 dn ni o st :
  single_flight (mkHook nav clk true (mkHookState a0 true None dn) {[ni := st]} (S ni) o).
Proof.
  unfold single_flight. cbn. split; [|split; [done|left; split; [done|by eexists _, _]]].
  intros a. rewrite lookup_singleton_is_Some. intros <-. lia.
Qed.

Ltac flight :=
  first [ by apply single_flight_idle | apply single_flight_busy ].

Lemma single_flight_step h e : e <> Refresh -> single_flight h -> single_flight (step h e).
Proof.
  intros He HI. pose proof HI as (Hf & Herr & Hm).
  destruct e; try done; cbn [step].
  1: { (* Mount *)
    destruct (mounted h) eqn:Hmt; [done|]. open_hook h. destruct Hm as (-> & -> & ->).
    apply single_flight_fetchAd. }
  1: { (* ClickRetry *)
    destruct (AdBanner (state h)) eqn:Hv; try done.
    open_hook h. unfold AdBanner in Hv. cbn in Hv.
    destruct ld; [discriminate|]. destruct mt; [|by destruct Hm].
    destruct Hm as [[? _] | [_ ->]]; [discriminate|]. apply single_flight_fetchAd. }
  all: open_hook h; unfold settle; cbn [pending].
  all: destruct mt;
    [ destruct Hm as [[-> (b & st & ->)] | [-> ->]]; [|by rewrite lookup_empty]
    | destruct Hm as (-> & -> & ->); by rewrite lookup_empty ].
  all: rewrite (Herr eq_refl) in *.
  all: destruct (decide (a = b)) as [->|Hne];
    [rewrite lookup_singleton_eq | by rewrite lookup_singleton_ne].
  all: destruct st; cbn [on_settled]; try exact HI; hook_unfold;
    rewrite delete_singleton_eq.
  - rewrite insert_empty. flight.
  - destruct (code err =? PERMISSION_DENIED); rewrite insert_empty; flight.
  - destruct (status response =? 204); [flight|].
    destruct (negb (ok response)); rewrite insert_empty; flight.
  - flight.
  - flight.
  - flight.
  - flight.
  - flight.
Qed.

Lemma reachable_single_flight h : reachable h -> single_flight h.
Proof.
  induction 1 as [nav hour | h e _ IH He]; [|by apply single_flight_step].
  unfold single_flight. cbn. split; [|done].
  intros a [st Hst]. by rewrite lookup_empty in Hst.
Qed.

(** X17.  The banner on its own has at most one request in flight.  In
    every session in which only the retry button calls [refresh]: at
    most one operation (position request, fetch, body read) is pending;
    the banner shows the loading view exactly while the effect has not
    run yet or an operation is pending; no error is set while it loads;
    and the retry button, which exists only in the error view, cannot
    start a second request: a retry while loading, or while the card or
    the empty view is shown, does nothing. *)
Theorem banner_single_flight (h : Hook) :
  reachable h ->
  (size (pending h) <= 1)%nat
  /\ (AdBanner (state h) = LoadingView <-> mounted h = false \/ pending h <> ∅)
  /\ (loading (state h) = true -> error (state h) = None)
  /\ (pending h <> ∅ -> step h ClickRetry = h)
  /\ ((forall m, AdBanner (state h) <> ErrorView m) -> step h ClickRetry = h).
Proof.
  intros Hr. pose proof (reachable_single_flight h Hr) as (Hf & Herr & Hm).
  open_hook h. unfold AdBanner. cbn [loading error ad locationDenied step state].
  split; [|split; [|split; [exact Herr|split]]].
  - destruct mt.
    + destruct Hm as [[_ (b & st & ->)] | [_ ->]].
      * by rewrite map_size_singleton.
      * rewrite map_size_empty. lia.
    + destruct Hm as (_ & -> & _). rewrite map_size_empty. lia.
  - destruct mt.
    + destruct Hm as [[-> (b & st & ->)] | [-> ->]].
      * split; [|done]. intros _. right. apply insert_non_empty.
      * split; [by destruct er as [[|]|]; destruct (truthy a0)|]. intros [?|?]; done.
    + destruct Hm as (-> & -> & _). split; [by left|done].
  - intros Hp. destruct mt.
    + destruct Hm as [[-> _] | [_ ->]]; [done|]. done.
    + by destruct Hm as (_ & -> & _).
  - intros Hv. unfold AdBanner. cbn. destruct ld; [done|].
    destruct er as [[|c m]|]; try by destruct (negb (truthy a0)).
    by destruct (Hv (String c m)).
Qed.

Lemma banner_single_flight_witness :
  reachable sample_fetching /\ (size (pending sample_fetching) <= 1)%nat.
Proof.
  assert (reachable sample_fetching) as Hr.
  { apply reach_step; [|discriminate]. apply reach_step; [|discriminate].
    apply reach_initial. }
  split; [exact Hr|]. exact (proj1 (banner_single_flight sample_fetching Hr)).
Defined.

(** X18.  What the hook makes of the server's reply, for a request in
    flight in any session of the hook.  Status 204 is no ad: [ad]
    becomes [null] and the body is not read.  Another status outside 2xx
    is an error whose message holds the status and the body text; if
    the text cannot be read, the error is that failure.  A failed fetch
    or a body that fails to parse is an error with the message of what
    was thrown, or a fixed message if that is not an [Error].  A 2xx
    body becomes [ad] as it is.  An error is logged and leaves [ad] as
    it was; a returned ad leaves [error] as it was.  Either way
    [loading] ends, the location notice is untouched and the operation
    is gone.  The banner then shows the error with the retry button if
    the message is not empty, the card for a truthy ad, and the empty
    view for [null] or another falsy body. *)
Theorem useAdRecommendation_outcome (h : Hook) (a : nat) (reply : Reply) :
  reachable_any h -> pending h !! a = Some AwaitFetch ->
  let h' := run h (reply_events a h reply) in
  state h' = settled_state (state h) (verdict reply)
  /\ out h' = (out h ++ match verdict reply with
                        | inl err => [LogError err]
                        | inr _ => []
                        end)%list
  /\ pending h' = delete a (pending h)
  /\ (forall v, verdict reply = inr v -> error (state h) = None ->
      AdBanner (state h')
      = if truthy v
        then CardView (locationDenied (state h)) (field v "target_url")
                      (field v "image_url") (field v "title")
        else EmptyView)
  /\ (forall err c m, verdict reply = inl err -> message_of err = String c m ->
      AdBanner (state h') = ErrorView (String c m)).
Proof.
  intros Hr Ha. pose proof (reachable_any_fresh h Hr) as Hfresh.
  assert (pending h !! next_id h = None) as Hnext.
  { destruct (pending h !! next_id h) eqn:E; [|done].
    specialize (Hfresh _ (mk_is_Some _ _ E)). lia. }
  clear Hr Hfresh. open_hook h. cbv zeta.
  assert (forall st, delete ni (<[ni := st]> (delete a pd)) = delete a pd) as Hdel.
  { intros st. rewrite delete_insert_eq. apply delete_id.
    by rewrite lookup_delete_ne by (intros ->; congruence). }
  assert (run (mkHook nav clk mt (mkHookState a0 ld er dn) pd ni o)
              (reply_events a (mkHook nav clk mt (mkHookState a0 ld er dn) pd ni o) reply)
          = mkHook nav clk mt (settled_state (mkHookState a0 ld er dn) (verdict reply))
                   (delete a pd) (match reply with
                                  | Responded response _ _ =>
                                      if status response =? 204 then ni else S ni
                                  | _ => ni
                                  end)
                   (o ++ match verdict reply with
                         | inl err => [LogError err]
                         | inr _ => []
                         end)) as ->.
  { unfold run, reply_events, verdict. cbn [next_id].
    destruct reply as [reason | response [reason|text] [reason'|data]];
      [|destruct (status response =? 204) eqn:E204;
        [|destruct (negb (ok response)) eqn:Eok]..].
    all: cbn [fold_left step]; unfold settle; cbn [pending]; rewrite Ha;
      cbn [on_settled]; hook_unfold; rewrite ?E204, ?Eok; cbn [fold_left step].
    all: try (unfold settle; cbn [pending]; rewrite lookup_insert_eq;
              cbn [on_settled]; hook_unfold; rewrite Hdel).
    all: rewrite ?app_nil_r; reflexivity. }
  cbn [state out pending]. repeat split.
  - intros v -> ->. unfold AdBanner. cbn. by destruct (truthy v).
  - intros err c m -> Hm. unfold AdBanner. cbn. by rewrite Hm.
Qed.

Lemma useAdRecommendation_outcome_witness :
  reachable_any sample_fetching /\ pending sample_fetching !! 1%nat = Some AwaitFetch
  /\ state (run sample_fetching
                (reply_events 1 sample_fetching
                   (Responded (mkResponse 204 "No Content") (inr EmptyString) (inr JNull))))
     = mkHookState JNull false None true.
Proof.
  assert (reachable_any sample_fetching) as Hr by (do 2 apply reach_any_step; constructor).
  split; [exact Hr|]. split; [vm_compute; reflexivity|].
  refine (proj1 (useAdRecommendation_outcome sample_fetching 1
                   (Responded (mkResponse 204 "No Content") (inr EmptyString) (inr JNull))
                   Hr _)).
  vm_compute; reflexivity.
Defined.

(** X19.  Where [fetchAd] gets its coordinates.  A call (from the
    effect, or as [refresh]) turns [loading] on and clears [error], and
    keeps the last ad and the location notice.  Without geolocation it
    sends the ad request at once, with [null] coordinates; with it, it
    asks for a position under the FAST policy and sends nothing yet.
    When the position arrives the request goes out with its
    coordinates and the notice is cleared; when the position request
    fails the request goes out with [null]s, and the notice is set if
    permission was denied, while any other error is logged as a warning
    and leaves the notice as it was.  The request carries the user
    agent and the hour read when [fetchAd] was called, also if the hour
    has changed since. *)
Theorem fetchAd_location (h : Hook) :
  (let h' := fetchAd h in
   loading (state h') = true /\ error (state h') = None
   /\ ad (state h') = ad (state h)
   /\ locationDenied (state h') = locationDenied (state h)
   /\ out h' = (out h ++ [if has_geolocation h then PositionRequest FAST
                          else AdFetch (mkAdApiPayload None None (getUserAgent h)
                                                       (clock h))])%list
   /\ pending h' = <[next_id h := if has_geolocation h
                                   then AwaitPosition (getUserAgent h) (clock h)
                                   else AwaitFetch]> (pending h))
  /\ (forall a ua hour pos, pending h !! a = Some (AwaitPosition ua hour) ->
      let h' := step h (GeoSuccess a pos) in
      out h' = (out h ++ [AdFetch (mkAdApiPayload (Some (coords_latitude pos))
                                                  (Some (coords_longitude pos))
                                                  ua hour)])%list
      /\ locationDenied (state h') = false)
  /\ (forall a ua hour err, pending h !! a = Some (AwaitPosition ua hour) ->
      let h' := step h (GeoError a err) in
      out h' = (out h ++ (if code err =? 1 then []
                          else [LogWarn "Geolocation error:" err])
                ++ [AdFetch (mkAdApiPayload None None ua hour)])%list
      /\ locationDenied (state h')
         = (if code err =? 1 then true else locationDenied (state h)))
  /\ (has_geolocation h = true -> forall t pos,
      ad_fetches (run (fetchAd h) [Hour t; GeoSuccess (next_id h) pos])
      = (ad_fetches h ++ [mkAdApiPayload (Some (coords_latitude pos))
                                         (Some (coords_longitude pos))
                                         (getUserAgent h) (clock h)])%list).
Proof.
  open_hook h. split; [|split; [|split]].
  - cbv zeta. hook_unfold. by destruct nav as [[[] ? ?]|].
  - intros a ua hour pos Ha. cbv zeta. cbn [step]. unfold settle. cbn [pending].
    rewrite Ha. cbn [on_settled]. hook_unfold. done.
  - intros a ua hour err Ha. cbv zeta. cbn [step]. unfold settle. cbn [pending].
    rewrite Ha. cbn [on_settled]. hook_unfold. unfold PERMISSION_DENIED.
    destruct (code err =? 1); cbn; by rewrite <- ?app_assoc.
  - intros Hg t pos. unfold has_geolocation in Hg. cbn [navigator] in Hg.
    destruct nav as [[[] sb ua]|]; try discriminate.
    unfold run, ad_fetches. hook_unfold. cbn [geolocation userAgent negb].
    cbn [fold_left step]. hook_unfold.
    unfold settle. hook_unfold. rewrite lookup_insert_eq. hook_unfold.
    rewrite !omap_app. cbn. by rewrite app_nil_r.
Qed.

(** X20.  The location notice and the ad are sticky.  Over any step of
    the hook, [locationDenied] changes only when a position request of
    [fetchAd] settles, by a position or by a denial; no reply of the
    server and no [refresh] resets it, so the notice of a denial stays
    until a later position request succeeds.  And [ad] changes only
    when a reply yields an ad or none: a 204 response or a parsed body;
    a failed request keeps the last ad. *)
Theorem notice_and_ad_are_sticky (h : Hook) (e : Event) :
  (locationDenied (state (step h e)) <> locationDenied (state h) ->
   exists a ua hour, pending h !! a = Some (AwaitPosition ua hour)
     /\ ((exists pos, e = GeoSuccess a pos)
         \/ (exists err, e = GeoError a err /\ code err = 1)))
  /\ (ad (state (step h e)) <> ad (state h) ->
      exists a, (pending h !! a = Some AwaitFetch
                 /\ exists response, e = FetchResolve a response /\ status response = 204)
                \/ (pending h !! a = Some AwaitJson /\ exists data, e = JsonResolve a data)).
Proof.
  assert (forall h', state (fetchAd h')
                     = mkHookState (ad (state h')) true None (locationDenied (state h')))
    as Hfetch.
  { intros h'. open_hook h'. hook_unfold. by destruct nav as [[[] ? ?]|]. }
  split; intros Hne.
  - destruct e; cbn [step] in Hne.
    1: { destruct (mounted h); [done|]. by rewrite Hfetch in Hne. }
    1: { by rewrite Hfetch in Hne. }
    1: { destruct (AdBanner _); try done; by rewrite Hfetch in Hne. }
    1: { by destruct h. }
    all: open_hook h; unfold settle in Hne; cbn [pending] in Hne;
      destruct (pd !! a) as [st|] eqn:Ea; [|done];
      destruct st as [ua hr| | |]; cbn [on_settled] in Hne; try done; revert Hne; hook_unfold;
      unfold PERMISSION_DENIED;
      try destruct (status response =? 204); try destruct (negb (ok response));
      try destruct (code err =? 1) eqn:Ec; try destruct reason; try done; intros _.
    + exists a, ua, hr. split; [done|]. left. by eexists.
    + exists a, ua, hr. split; [done|]. right. eexists. split; [done|].
      by apply Z.eqb_eq.
  - destruct e; cbn [step] in Hne.
    1: { destruct (mounted h); [done|]. by rewrite Hfetch in Hne. }
    1: { by rewrite Hfetch in Hne. }
    1: { destruct (AdBanner _); try done; by rewrite Hfetch in Hne. }
    1: { by destruct h. }
    all: open_hook h; unfold settle in Hne; cbn [pending] in Hne;
      destruct (pd !! a) as [st|] eqn:Ea; [|done];
      destruct st as [ua hr| | |]; cbn [on_settled] in Hne; try done; revert Hne; hook_unfold;
      unfold PERMISSION_DENIED;
      try destruct (status response =? 204) eqn:Es; try destruct (negb (ok response));
      try destruct (code err =? 1) eqn:Ec; try destruct reason; try done; intros _.
    all: exists a;
      first [ left; split; [done|]; eexists; split; [done|]; by apply Z.eqb_eq
            | right; split; [done|]; by eexists ].
Qed.

(** With a caller that refreshes while a request is in flight,
    [loading] goes off when the first request ends although the second
    is still pending: that [loading] means a request in flight needs the
    banner's discipline. *)
Lemma refresh_can_overlap :
  reachable_any sample_overlap
  /\ loading (state sample_overlap) = false
  /\ pending sample_overlap !! 1%nat = Some AwaitFetch.
Proof. split; [do 3 apply reach_any_step; constructor|by vm_compute]. Qed.

(** X21.  [loading] is never left on: in every session of the hook,
    whoever calls [refresh] and however requests overlap, once a request
    has been started and nothing is pending any more, [loading] is
    off. *)
Theorem loading_ends (h : Hook) :
  reachable_any h -> pending h = ∅ -> out h <> [] -> loading (state h) = false.
Proof.
  induction 1 as [nav hour | h e _ IH]; [done|].
  assert (forall h', pending (fetchAd h') <> ∅) as Hfetch.
  { intros h'. open_hook h'. hook_unfold.
    destruct nav as [[[] ? ?]|]; cbn; apply insert_non_empty. }
  destruct e; cbn [step].
  1: { destruct (mounted h); [exact IH|]. intros Hp. by destruct (Hfetch _ Hp). }
  1: { intros Hp. by destruct (Hfetch _ Hp). }
  1: { destruct (AdBanner _); try exact IH; intros Hp; by destruct (Hfetch _ Hp). }
  1: { by destruct h. }
  all: open_hook h; unfold settle; cbn [pending];
    destruct (pd !! a) as [st|] eqn:Ea; [|exact IH];
    destruct st; cbn [on_settled]; try exact IH; hook_unfold; cbn [pending loading state].
  all: try destruct (code err =? PERMISSION_DENIED);
    try destruct (status response =? 204); try destruct (negb (ok response)).
  all: first [ done | intros Hp; by apply insert_non_empty in Hp ].
Qed.

Lemma loading_ends_witness :
  reachable_any sample_done /\ pending sample_done = ∅
  /\ loading (state sample_done) = false.
Proof.
  assert (reachable_any sample_done) as Hr by (do 3 apply reach_any_step; constructor).
  assert (pending sample_done = ∅) as Hp by (by vm_compute).
  split; [exact Hr|]. split; [exact Hp|].
  apply (loading_ends sample_done Hr Hp). by vm_compute.
Defined.

End BannerFacts.
